(** * TrafficSimulator2D: road graph, router and simulation step

    A shallow embedding of [map_utils.py] (graph builder and Dijkstra
    router) and of the simulation core of [simulator.py] (traffic lights,
    vehicles, reservation registry, spawning, the step of the simulator),
    followed by the proofs of the properties stated about them.

    Modelling conventions
    - Python numbers (JSON ints and floats) are exact rationals [Q]; the
      rounding of floating point arithmetic is not modelled.
    - [math.hypot] and [Vector2.length] take a square root, which [Q] does
      not have: the Euclidean length is a section variable [hypot], so
      every general theorem holds for any such function.  [hypot6] is an
      executable instance (square root rounded down at six decimals) used
      to run the code on concrete maps.
    - A Python [dict] is an association list in insertion order
      ([Py.dict]); a [defaultdict(list)] is read with default [[]].
    - A map document is a [document]: every field of a road or hub entry
      may be absent, and [read_document] makes the subscripts of
      [build_graph] ([r['id']], [r['x']], ..., [h['y']]), which raise
      [KeyError] on an absent field; [mapdata] is the document after
      these reads.  Light and symbol entries keep their optional fields:
      [TrafficLight.__init__] subscripts [x] and [y] of a light at load,
      [Car.update] subscripts [x] and [y] of a symbol at each step.
    - Exceptions are results: [Py.outcome] is [Ok], [Raise] or [Diverge]
      (a loop ran out of the fuel the model gives it; the loops of [heapq]
      never do, the loop of [find_path] is given its fuel by the caller).
    - Object identity: a traffic light is its index in [Simulator.lights],
      a car is its [id] (the simulator numbers the cars it creates). *)

From Stdlib Require Import List String Ascii ZArith QArith Qround Qabs Qminmax.
From Stdlib Require Import Lia Lqa Bool Arith PeanoNat Permutation DecimalString.
From Stdlib Require DecimalPos DecimalZ.
Import ListNotations.

(* ================================================================== *)
(** * Part I. The embedding *)
(* ================================================================== *)

(** ** Python run-time notions shared by both source files *)
Module Py.

Inductive exn : Type :=
| KeyError
| IndexError
| TypeError
| ValueError
| ZeroDivisionError.

Inductive outcome (A : Type) : Type :=
| Ok (a : A)
| Raise (e : exn)
| Diverge.

Arguments Ok {A} a.
Arguments Raise {A} e.
Arguments Diverge {A}.

Definition bind {A B : Type} (m : outcome A) (f : A -> outcome B) : outcome B :=
  match m with
  | Ok a => f a
  | Raise e => Raise e
  | Diverge => Diverge
  end.

Notation "x <- m ;; k" := (bind m (fun x => k))
  (at level 61, m at next level, right associativity).
Notation "' p <- m ;; k" := (bind m (fun x => let 'p := x in k))
  (at level 61, p pattern, m at next level, right associativity).

(** Keys of dictionaries: a type with Python's [==] deciding equality. *)
Class PyEq (K : Type) : Type := {
  eqb : K -> K -> bool;
  eqb_spec : forall a b : K, reflect (a = b) (eqb a b)
}.

Definition dict (K V : Type) : Type := list (K * V).

Section Dict.
Context {K V : Type} {HK : PyEq K}.

(** [d.get(k)] *)
Fixpoint dict_get (k : K) (d : dict K V) : option V :=
  match d with
  | [] => None
  | (k', v) :: r => if eqb k' k then Some v else dict_get k r
  end.

(** [d[k] = v]: an existing key keeps its place, a new one goes last. *)
Fixpoint dict_set (k : K) (v : V) (d : dict K V) : dict K V :=
  match d with
  | [] => [(k, v)]
  | (k', v') :: r => if eqb k' k then (k', v) :: r else (k', v') :: dict_set k v r
  end.

(** [k in d] *)
Definition dict_mem (k : K) (d : dict K V) : bool :=
  match dict_get k d with Some _ => true | None => false end.

(** [d.pop(k, None)], the popped value dropped *)
Fixpoint dict_pop (k : K) (d : dict K V) : dict K V :=
  match d with
  | [] => []
  | (k', v) :: r => if eqb k' k then r else (k', v) :: dict_pop k r
  end.

(** [d[k]] *)
Definition dict_item (k : K) (d : dict K V) : outcome V :=
  match dict_get k d with Some v => Ok v | None => Raise KeyError end.

Definition dict_keys (d : dict K V) : list K := map fst d.

End Dict.

(** [l[i] = x] on a list; the callers only write inside the list. *)
Fixpoint list_set {A : Type} (l : list A) (i : nat) (x : A) : list A :=
  match l, i with
  | [], _ => []
  | _ :: r, O => x :: r
  | a :: r, S j => a :: list_set r j x
  end.

(** [l[i]] *)
Definition list_item {A : Type} (l : list A) (i : nat) : outcome A :=
  match nth_error l i with Some a => Ok a | None => Raise IndexError end.

(** [str(z)] of an int *)
Definition str_of_int (z : Z) : string := NilZero.string_of_int (Z.to_int z).

Definition Qltb (x y : Q) : bool := negb (Qle_bool y x).

(** [x % m]: the remainder has the sign of [m]; [m == 0] raises. *)
Definition pymod (x m : Q) : outcome Q :=
  if Qeq_bool m 0 then Raise ZeroDivisionError
  else Ok (x - m * inject_Z (Qfloor (x / m))).

(** [needle in haystack] on strings *)
Fixpoint str_contains (needle haystack : string) : bool :=
  if String.prefix needle haystack then true
  else match haystack with
       | EmptyString => false
       | String _ rest => str_contains needle rest
       end.

(** The square root behind [hypot6]: the largest multiple of 10^-6 whose
    square is at most [q] (0 for a negative [q]). *)
Definition sqrt6 (q : Q) : Q :=
  Qred (Z.sqrt ((Qnum q * 1000000000000) / Zpos (Qden q)) # 1000000).

Definition hypot6 (x y : Q) : Q := sqrt6 (x * x + y * y).

#[global] Instance string_PyEq : PyEq string :=
  {| eqb := String.eqb; eqb_spec := String.eqb_spec |}.

#[global] Instance nat_PyEq : PyEq nat :=
  {| eqb := Nat.eqb; eqb_spec := Nat.eqb_spec |}.

#[global] Instance Z_PyEq : PyEq Z :=
  {| eqb := Z.eqb; eqb_spec := Z.eqb_spec |}.

End Py.

(* ------------------------------------------------------------------ *)
(** ** map_utils.py *)
Module map_utils.
Import Py.
Local Open Scope Q_scope.

(** Node ids: "strings for road points and ints for hub ids". *)
Inductive node_id : Type :=
| NStr (s : string)
| NInt (z : Z).

Definition node_eqb (a b : node_id) : bool :=
  match a, b with
  | NStr s, NStr s' => String.eqb s s'
  | NInt z, NInt z' => Z.eqb z z'
  | _, _ => false
  end.

Lemma node_eqb_spec (a b : node_id) : reflect (a = b) (node_eqb a b).
Proof.
  destruct a as [s|z], b as [s'|z']; simpl; try (constructor; discriminate).
  - destruct (String.eqb_spec s s'); constructor; congruence.
  - destruct (Z.eqb_spec z z'); constructor; congruence.
Qed.

#[global] Instance node_PyEq : PyEq node_id :=
  {| eqb := node_eqb; eqb_spec := node_eqb_spec |}.

(** [str(node)] *)
Definition str (n : node_id) : string :=
  match n with
  | NStr s => s
  | NInt z => str_of_int z
  end.

(** [nid.startswith(p)]; only applied while every key of [nodes] is a
    string (hubs are added last). *)
Definition startswith (n : node_id) (p : string) : bool :=
  match n with
  | NStr s => String.prefix p s
  | NInt _ => false
  end.

(** Truth value of a node id ([if best_a:]). *)
Definition truthy (n : node_id) : bool :=
  match n with
  | NStr s => negb (String.eqb s "")
  | NInt z => negb (Z.eqb z 0)
  end.

(** *** The map document.  [mapdata] is the document once [build_graph]
    has read the fields it subscripts: a road has [id], [x], [y], [w], [h]
    and a hub has [id], [x], [y]; the fields read with [.get] are
    optional.  Light and symbol entries are kept as [json.load] returns
    them: every field of theirs is optional, and the code subscripts them
    only later ([TrafficLight.__init__], [Car.update]). *)
Record road : Type := {
  r_id : Z; r_x : Q; r_y : Q; r_w : Q; r_h : Q; r_type : option string
}.

Record hub : Type := {
  h_id : Z; h_x : Q; h_y : Q; h_name : option string; h_rate : option Q
}.

Record symbol : Type := {
  s_x : option Q; s_y : option Q; s_type : option string
}.

Record light_entry : Type := {
  l_x : option Q; l_y : option Q;
  l_green : option Q; l_red : option Q; l_offset : option Q
}.

Record mapdata : Type := {
  md_roads : option (list road);
  md_hubs : option (list hub);
  md_lights : option (list light_entry);
  md_symbols : option (list symbol)
}.

(** [mapdata.get(key, [])] *)
Definition get_list {A : Type} (o : option (list A)) : list A :=
  match o with Some l => l | None => [] end.

(** The document as [json.load] returns it: any field of a road or hub
    entry may be missing too. *)
Record road_entry : Type := {
  re_id : option Z; re_x : option Q; re_y : option Q; re_w : option Q;
  re_h : option Q; re_type : option string
}.

Record hub_entry : Type := {
  he_id : option Z; he_x : option Q; he_y : option Q;
  he_name : option string; he_rate : option Q
}.

Record document : Type := {
  doc_roads : option (list road_entry);
  doc_hubs : option (list hub_entry);
  doc_lights : option (list light_entry);
  doc_symbols : option (list symbol)
}.

(** [entry[key]] *)
Definition field {A : Type} (o : option A) : outcome A :=
  match o with Some v => Ok v | None => Raise KeyError end.

(** The subscripts of [build_graph] on a road, lines 54 and 55:
    [rid = r['id']] and [x, y, w, h = r['x'], r['y'], r['w'], r['h']]. *)
Definition read_road (r : road_entry) : outcome road :=
  rid <- field (re_id r) ;;
  x <- field (re_x r) ;;
  y <- field (re_y r) ;;
  w <- field (re_w r) ;;
  h <- field (re_h r) ;;
  Ok {| r_id := rid; r_x := x; r_y := y; r_w := w; r_h := h; r_type := re_type r |}.

(** The subscripts of [build_graph] on a hub, lines 152 and 153:
    [hid = h['id']] and [hx, hy = h['x'], h['y']]. *)
Definition read_hub (h : hub_entry) : outcome hub :=
  hid <- field (he_id h) ;;
  hx <- field (he_x h) ;;
  hy <- field (he_y h) ;;
  Ok {| h_id := hid; h_x := hx; h_y := hy; h_name := he_name h; h_rate := he_rate h |}.

Fixpoint read_all {A B : Type} (read : A -> outcome B) (l : list A) : outcome (list B) :=
  match l with
  | [] => Ok []
  | a :: rest =>
      b <- read a ;;
      bs <- read_all read rest ;;
      Ok (b :: bs)
  end.

(** What [build_graph] reads of the document: every road in the loop of
    step 1, every hub in the loop of step 4.  A missing key raises
    [KeyError] there and [build_graph] returns nothing; it writes nothing
    but its own locals, and the later steps subscript the same fields of
    the same roads.  An absent list is kept absent ([.get(key, [])]). *)
Definition read_document (doc : document) : outcome mapdata :=
  roads <- match doc_roads doc with
           | Some l => rs <- read_all read_road l ;; Ok (Some rs)
           | None => Ok None
           end ;;
  hubs <- match doc_hubs doc with
          | Some l => hs <- read_all read_hub l ;; Ok (Some hs)
          | None => Ok None
          end ;;
  Ok {| md_roads := roads; md_hubs := hubs;
        md_lights := doc_lights doc; md_symbols := doc_symbols doc |}.

(** [load_map_data] is [json.load]: the document is returned as read, with
    no validation. *)
Definition load_map_data (doc : document) : document := doc.

Definition point : Type := (Q * Q)%type.

Record rect : Type := { ov_x : Q; ov_y : Q; ov_w : Q; ov_h : Q }.

Definition _rect_overlap (a b : road) : option rect :=
  let x1 := Qmax (r_x a) (r_x b) in
  let y1 := Qmax (r_y a) (r_y b) in
  let x2 := Qmin (r_x a + r_w a) (r_x b + r_w b) in
  let y2 := Qmin (r_y a + r_h a) (r_y b + r_h b) in
  if Qltb x1 x2 && Qltb y1 y2
  then Some {| ov_x := x1; ov_y := y1; ov_w := x2 - x1; ov_h := y2 - y1 |}
  else None.

Definition _mid (pt : point) : Q := (fst pt + snd pt) / 2.

Definition nodes_t : Type := dict node_id point.
Definition edges_t : Type := dict node_id (list (node_id * Q)).

(** [edges.get(k, [])], also the read of the [defaultdict] *)
Definition adj (k : node_id) (edges : edges_t) : list (node_id * Q) :=
  match dict_get k edges with Some l => l | None => [] end.

(** [edges[k].append(e)] *)
Definition edges_append (k : node_id) (e : node_id * Q) (edges : edges_t) : edges_t :=
  dict_set k (adj k edges ++ [e]) edges.

(** The two appends every connection is made of:
    [edges[u].append((v, d)); edges[v].append((u, d))]. *)
Definition connect (u v : node_id) (d : Q) (edges : edges_t) : edges_t :=
  edges_append v (u, d) (edges_append u (v, d) edges).

(** [f"r{rid}_{suffix}"] and [f"i{a}_{b}"] *)
Definition road_node (rid : Z) (suffix : string) : node_id :=
  NStr ("r" ++ str_of_int rid ++ "_" ++ suffix)%string.

Definition road_prefix (rid : Z) : string :=
  ("r" ++ str_of_int rid ++ "_")%string.

Definition inter_node (a b : Z) : node_id :=
  NStr ("i" ++ str_of_int a ++ "_" ++ str_of_int b)%string.

Section Graph.
Variable hypot : Q -> Q -> Q.

Definition _dist (a b : point) : Q := hypot (fst a - fst b) (snd a - snd b).

(** The scan for the closest candidate: [best] and its distance start as
    [None] and [float('inf')], here one [None]; a candidate wins only when
    strictly closer, so the first of equally close ones is kept. *)
Definition closer (best : option (node_id * Q)) (nid : node_id) (d : Q)
  : option (node_id * Q) :=
  match best with
  | None => Some (nid, d)
  | Some (_, bd) => if Qltb d bd then Some (nid, d) else best
  end.

Definition closest (cands : list (node_id * point)) (p : point) : option (node_id * Q) :=
  fold_left (fun best cand => closer best (fst cand) (_dist (snd cand) p)) cands None.

(** Step 1, one road: three nodes on the centre line, chained. *)
Definition add_road (st : nodes_t * edges_t) (r : road) : nodes_t * edges_t :=
  let '(nodes, edges) := st in
  let rid := r_id r in
  let x := r_x r in let y := r_y r in let w := r_w r in let h := r_h r in
  let cx := x + w / 2 in
  let cy := y + h / 2 in
  if Qle_bool h w then
    let left := (x, cy) in let mid := (cx, cy) in let right := (x + w, cy) in
    let nodes := dict_set (road_node rid "L") left nodes in
    let nodes := dict_set (road_node rid "M") mid nodes in
    let nodes := dict_set (road_node rid "R") right nodes in
    let dLM := _dist left mid in
    let dMR := _dist mid right in
    let edges := connect (road_node rid "L") (road_node rid "M") dLM edges in
    let edges := connect (road_node rid "M") (road_node rid "R") dMR edges in
    (nodes, edges)
  else
    let top := (cx, y) in let mid := (cx, cy) in let bottom := (cx, y + h) in
    let nodes := dict_set (road_node rid "T") top nodes in
    let nodes := dict_set (road_node rid "M") mid nodes in
    let nodes := dict_set (road_node rid "B") bottom nodes in
    let dTM := _dist top mid in
    let dMB := _dist mid bottom in
    let edges := connect (road_node rid "T") (road_node rid "M") dTM edges in
    let edges := connect (road_node rid "M") (road_node rid "B") dMB edges in
    (nodes, edges).

(** Step 2, one pair of roads [a], [b] (with [a] before [b] in the list):
    an intersection node at the centre of the overlap, linked to the
    closest [r<id>_] node of each road. *)
Definition link_best (inter_id : node_id) (best : option (node_id * Q))
  (edges : edges_t) : edges_t :=
  match best with
  | Some (n, d) => if truthy n then connect inter_id n d edges else edges
  | None => edges
  end.

Definition add_intersection (a : road) (st : nodes_t * edges_t) (b : road)
  : nodes_t * edges_t :=
  let '(nodes, edges) := st in
  match _rect_overlap a b with
  | Some ov =>
      let ix := ov_x ov + ov_w ov / 2 in
      let iy := ov_y ov + ov_h ov / 2 in
      let inter_id := inter_node (r_id a) (r_id b) in
      let nodes := dict_set inter_id (ix, iy) nodes in
      let road_a_nodes :=
        filter (fun kv => startswith (fst kv) (road_prefix (r_id a))) nodes in
      let road_b_nodes :=
        filter (fun kv => startswith (fst kv) (road_prefix (r_id b))) nodes in
      let best_a := closest road_a_nodes (ix, iy) in
      let best_b := closest road_b_nodes (ix, iy) in
      let edges := link_best inter_id best_a edges in
      let edges := link_best inter_id best_b edges in
      (nodes, edges)
  | None => (nodes, edges)
  end.

(** [for i in range(len(roads)): for j in range(i + 1, len(roads))] *)
Fixpoint intersections (roads : list road) (st : nodes_t * edges_t)
  : nodes_t * edges_t :=
  match roads with
  | [] => st
  | a :: rest => intersections rest (fold_left (add_intersection a) rest st)
  end.

(** Step 3, one pair of nodes: joined when not yet neighbours and closer
    than 40. *)
Definition already (n1 n2 : node_id) (edges : edges_t) : bool :=
  existsb (fun e => eqb (fst e) n2) (adj n1 edges).

Definition stitch (n1 : node_id * point) (edges : edges_t) (n2 : node_id * point)
  : edges_t :=
  if already (fst n1) (fst n2) edges then edges
  else
    let d := _dist (snd n1) (snd n2) in
    if Qltb d 40 then connect (fst n1) (fst n2) d edges else edges.

Fixpoint stitch_all (items : list (node_id * point)) (edges : edges_t) : edges_t :=
  match items with
  | [] => edges
  | n1 :: rest => stitch_all rest (fold_left (stitch n1) rest edges)
  end.

(** Step 4, one hub: the scan runs over every node already in [nodes],
    earlier hubs included, and skips only the hub itself. *)
Definition hub_candidate (hid : node_id) (p : point) (best : option (node_id * Q))
  (cand : node_id * point) : option (node_id * Q) :=
  if eqb (fst cand) hid then best
  else closer best (fst cand) (_dist p (snd cand)).

Definition add_hub (hub_snap_dist : Q) (st : nodes_t * edges_t) (h : hub)
  : nodes_t * edges_t :=
  let '(nodes, edges) := st in
  let hid := NInt (h_id h) in
  let nodes := dict_set hid (h_x h, h_y h) nodes in
  let edges := dict_set hid [] edges in
  let best := fold_left (hub_candidate hid (h_x h, h_y h)) nodes None in
  match best with
  | Some (n, bd) =>
      if Qle_bool bd hub_snap_dist then (nodes, connect hid n bd edges)
      else (nodes, edges)
  | None => (nodes, edges)
  end.

Definition build_graph (md : mapdata) (hub_snap_dist : Q) : nodes_t * edges_t :=
  let roads := get_list (md_roads md) in
  let hubs := get_list (md_hubs md) in
  let st := fold_left add_road roads ([], []) in
  let '(nodes, edges) := intersections roads st in
  let edges := stitch_all nodes edges in
  fold_left (add_hub hub_snap_dist) hubs (nodes, edges).

End Graph.

(** [build_graph(mapdata, hub_snap_dist)] on the document as loaded: its
    subscripts first, then the four steps. *)
Definition build_graph_document (hypot : Q -> Q -> Q) (doc : document)
  (hub_snap_dist : Q) : outcome (nodes_t * edges_t) :=
  md <- read_document doc ;;
  Ok (build_graph hypot md hub_snap_dist).

(** The default of the parameter [hub_snap_dist]. *)
Definition hub_snap_dist_default : Q := 80.

(** *** The priority queue of [find_path]: [heapq] over tuples
    [(cost, node, path)] *)
Definition entry : Type := (Q * node_id * list node_id)%type.

Definition e_cost (e : entry) : Q := fst (fst e).
Definition e_node (e : entry) : node_id := snd (fst e).
Definition e_path (e : entry) : list node_id := snd e.

(** [a < b] on node ids: strings by code points, ints by value, and a
    string against an int raises [TypeError]. *)
Definition node_lt (a b : node_id) : outcome bool :=
  match a, b with
  | NStr s, NStr s' => Ok (String.ltb s s')
  | NInt z, NInt z' => Ok (Z.ltb z z')
  | _, _ => Raise TypeError
  end.

(** [p < q] on lists: the first position where they differ decides; a
    proper prefix is smaller. *)
Fixpoint path_lt (p q : list node_id) : outcome bool :=
  match p, q with
  | [], [] => Ok false
  | [], _ :: _ => Ok true
  | _ :: _, [] => Ok false
  | a :: p', b :: q' => if eqb a b then path_lt p' q' else node_lt a b
  end.

(** [a < b] on the tuples: the first component where they differ decides. *)
Definition entry_lt (a b : entry) : outcome bool :=
  if negb (Qeq_bool (e_cost a) (e_cost b)) then Ok (Qltb (e_cost a) (e_cost b))
  else if negb (eqb (e_node a) (e_node b)) then node_lt (e_node a) (e_node b)
  else path_lt (e_path a) (e_path b).

(** [heapq._siftdown(heap, startpos, pos)], [newitem] being [heap[pos]]:
    the loop moves parents down while [newitem] is smaller. *)
Fixpoint _siftdown_loop (fuel : nat) (heap : list entry) (newitem : entry)
  (startpos pos : nat) : outcome (list entry) :=
  if (startpos <? pos)%nat then
    match fuel with
    | O => Diverge
    | S fuel' =>
        let parentpos := ((pos - 1) / 2)%nat in
        parent <- list_item heap parentpos ;;
        lt <- entry_lt newitem parent ;;
        if lt then _siftdown_loop fuel' (list_set heap pos parent) newitem startpos parentpos
        else Ok (list_set heap pos newitem)
    end
  else Ok (list_set heap pos newitem).

Definition _siftdown (heap : list entry) (startpos pos : nat) : outcome (list entry) :=
  newitem <- list_item heap pos ;;
  _siftdown_loop pos heap newitem startpos pos.

(** [heapq.heappush(heap, item)] *)
Definition heappush (heap : list entry) (item : entry) : outcome (list entry) :=
  let heap := heap ++ [item] in
  _siftdown heap 0 (List.length heap - 1).

(** [heapq._siftup(heap, pos)]: the smaller child moves up until a leaf
    is reached, [newitem] is put there and sifted back towards [pos]. *)
Fixpoint _siftup_loop (fuel : nat) (heap : list entry) (endpos pos : nat)
  : outcome (list entry * nat) :=
  let childpos := (2 * pos + 1)%nat in
  if (childpos <? endpos)%nat then
    match fuel with
    | O => Diverge
    | S fuel' =>
        let rightpos := (childpos + 1)%nat in
        c <- (if (rightpos <? endpos)%nat then
                l <- list_item heap childpos ;;
                r <- list_item heap rightpos ;;
                lt <- entry_lt l r ;;
                Ok (if negb lt then rightpos else childpos)
              else Ok childpos) ;;
        child <- list_item heap c ;;
        _siftup_loop fuel' (list_set heap pos child) endpos c
    end
  else Ok (heap, pos).

Definition _siftup (heap : list entry) (pos : nat) : outcome (list entry) :=
  let endpos := List.length heap in
  let startpos := pos in
  newitem <- list_item heap pos ;;
  '(heap, pos) <- _siftup_loop endpos heap endpos pos ;;
  _siftdown (list_set heap pos newitem) startpos pos.

(** [heapq.heappop(heap)]: the popped item and the heap left. *)
Definition heappop (heap : list entry) : outcome (entry * list entry) :=
  match rev heap with
  | [] => Raise IndexError
  | lastelt :: rest_rev =>
      let heap := rev rest_rev in
      match heap with
      | [] => Ok (lastelt, heap)
      | returnitem :: _ =>
          heap <- _siftup (list_set heap 0 lastelt) 0 ;;
          Ok (returnitem, heap)
      end
  end.

(** *** [find_path] *)
Definition traffic_t : Type := dict (string * string) Q.

#[global] Instance key_PyEq : PyEq (string * string).
Proof.
  refine {| eqb := fun a b => String.eqb (fst a) (fst b) && String.eqb (snd a) (snd b) |}.
  intros [a1 a2] [b1 b2]; simpl.
  destruct (String.eqb_spec a1 b1), (String.eqb_spec a2 b2); simpl;
    constructor; congruence.
Defined.

(** [tuple(sorted((str(node), str(nbr))))] *)
Definition edge_key (node nbr : node_id) : string * string :=
  if String.ltb (str nbr) (str node) then (str nbr, str node)
  else (str node, str nbr).

(** [traffic_counts.get(key, 0)], [traffic_counts] being [{}] when [None] *)
Definition traffic (traffic_counts : option traffic_t) (node nbr : node_id) : Q :=
  match traffic_counts with
  | None => 0
  | Some tc => match dict_get (edge_key node nbr) tc with Some t => t | None => 0 end
  end.

(** The cost the loop adds for the edge [(nbr, w)] out of [node]. *)
Definition edge_cost (traffic_counts : option traffic_t) (node nbr : node_id) (w : Q)
  : Q := w + traffic traffic_counts node nbr * 10.

Section FindPath.
Variable edges : edges_t.
Variable goal_id : node_id.
Variable traffic_counts : option traffic_t.

(** One pass of [for nbr, w in edges.get(node, [])]. *)
Definition relax (cost : Q) (node : node_id) (path : list node_id)
  (seen : dict node_id Q) (pq : list entry) (e : node_id * Q)
  : outcome (list entry) :=
  let '(nbr, w) := e in
  let t := traffic traffic_counts node nbr in
  let nc := cost + w + t * 10 in
  if match dict_get nbr seen with
     | None => true
     | Some s => Qltb nc s
     end
  then heappush pq (nc, nbr, path ++ [nbr])
  else Ok pq.

Fixpoint relax_all (cost : Q) (node : node_id) (path : list node_id)
  (seen : dict node_id Q) (pq : list entry) (es : list (node_id * Q))
  : outcome (list entry) :=
  match es with
  | [] => Ok pq
  | e :: es' =>
      pq' <- relax cost node path seen pq e ;;
      relax_all cost node path seen pq' es'
  end.

(** [while pq: ...]; one unit of fuel per pass of the loop. *)
Fixpoint find_path_loop (fuel : nat) (pq : list entry) (seen : dict node_id Q)
  : outcome (option (list node_id)) :=
  match pq with
  | [] => Ok None
  | _ :: _ =>
      match fuel with
      | O => Diverge
      | S fuel' =>
          '(cost, node, path, pq) <- heappop pq ;;
          if eqb node goal_id then Ok (Some path)
          else if match dict_get node seen with
                  | Some s => Qle_bool s cost
                  | None => false
                  end
          then find_path_loop fuel' pq seen
          else
            let seen := dict_set node cost seen in
            pq <- relax_all cost node path seen pq (adj node edges) ;;
            find_path_loop fuel' pq seen
      end
  end.

End FindPath.

(** [find_path(edges, start_id, goal_id, traffic_counts)]; [None] is
    the "unreachable" result. *)
Definition find_path (fuel : nat) (edges : edges_t) (start_id goal_id : node_id)
  (traffic_counts : option traffic_t) : outcome (option (list node_id)) :=
  if negb (dict_mem start_id edges) || negb (dict_mem goal_id edges) then Ok None
  else find_path_loop edges goal_id traffic_counts fuel [(0, start_id, [start_id])] [].

End map_utils.

(* ------------------------------------------------------------------ *)
(** ** simulator.py *)
Module simulator.
Import Py map_utils.
Local Open Scope Q_scope.

(** [pygame.math.Vector2] *)
Record Vector2 : Type := { vx : Q; vy : Q }.

Definition vec (p : point) : Vector2 := {| vx := fst p; vy := snd p |}.
Definition vadd (a b : Vector2) : Vector2 := {| vx := vx a + vx b; vy := vy a + vy b |}.
Definition vsub (a b : Vector2) : Vector2 := {| vx := vx a - vx b; vy := vy a - vy b |}.
Definition vscale (a : Vector2) (k : Q) : Vector2 := {| vx := vx a * k; vy := vy a * k |}.
Definition vdot (a b : Vector2) : Q := vx a * vx b + vy a * vy b.

(** *** class TrafficLight *)
Record TrafficLight : Type := {
  tl_x : Q; tl_y : Q; tl_green : Q; tl_red : Q; tl_offset : Q; tl_t : Q
}.

(** [data.get(key, default)] *)
Definition get_default (o : option Q) (default : Q) : Q :=
  match o with Some v => v | None => default end.

(** [data[key]] *)
Definition subscript (o : option Q) : outcome Q :=
  match o with Some v => Ok v | None => Raise KeyError end.

Definition TrafficLight_init (data : light_entry) : outcome TrafficLight :=
  x <- subscript (l_x data) ;;
  y <- subscript (l_y data) ;;
  let green := get_default (l_green data) 6 in
  let red := get_default (l_red data) 6 in
  let offset := get_default (l_offset data) 0 in
  Ok {| tl_x := x; tl_y := y; tl_green := green; tl_red := red;
        tl_offset := offset; tl_t := offset |}.

Definition TrafficLight_update (self : TrafficLight) (dt : Q) : TrafficLight :=
  {| tl_x := tl_x self; tl_y := tl_y self; tl_green := tl_green self;
     tl_red := tl_red self; tl_offset := tl_offset self; tl_t := tl_t self + dt |}.

(** [abs(dir_vec.x) > abs(dir_vec.y)] *)
Definition horizontal (dir_vec : Vector2) : bool :=
  Qltb (Qabs (vy dir_vec)) (Qabs (vx dir_vec)).

Definition TrafficLight_is_green_for (self : TrafficLight) (dir_vec : Vector2)
  : outcome bool :=
  let cycle := tl_green self + tl_red self in
  phase <- pymod (tl_t self) cycle ;;
  if horizontal dir_vec then Ok (Qltb phase (tl_green self))
  else Ok (Qle_bool (tl_green self) phase).

(** *** class Car.  The fields [nodes] and [sim] are references to the
    simulator's node map and to the simulator: the functions below take
    them as arguments.  [intersection_target] is the index of the light. *)
Record Car : Type := {
  car_path : list node_id;
  car_id : Z;
  car_edge_idx : nat;
  car_progress : Q;
  car_speed : Q;
  car_radius : Q;
  car_finished : bool;
  car_intersection_target : option nat;
  car_pos : Vector2
}.

(** [Car(path_nodes, nodes, sim, cid)]; [jitter] is the draw
    [random.uniform(-15, 15)]. *)
Definition Car_init (path_nodes : list node_id) (nodes : nodes_t) (cid : Z)
  (jitter : Q) : outcome Car :=
  pos <- match path_nodes with
         | [] => Ok {| vx := 0; vy := 0 |}
         | first :: _ => p <- dict_item first nodes ;; Ok (vec p)
         end ;;
  Ok {| car_path := path_nodes; car_id := cid; car_edge_idx := 0;
        car_progress := 0; car_speed := 80 + jitter; car_radius := 6;
        car_finished := false; car_intersection_target := None;
        car_pos := pos |}.

Definition Car_current_edge (self : Car) : option (node_id * node_id) :=
  match nth_error (car_path self) (car_edge_idx self),
        nth_error (car_path self) (car_edge_idx self + 1) with
  | Some a, Some b => Some (a, b)
  | _, _ => None
  end.

(** *** class Simulator (the state the simulation core uses; the window,
    clock and spawn-click fields belong to the user interface). *)
Definition occupied_t : Type := dict nat Z.

Record Simulator : Type := {
  sim_map : mapdata;
  sim_nodes : nodes_t;
  sim_edges : edges_t;
  sim_lights : list TrafficLight;
  sim_symbols : list symbol;
  sim_cars : list Car;
  sim_next_car_id : Z;
  sim_occupied : occupied_t
}.

Definition get_type (o : option string) (default : string) : string :=
  match o with Some v => v | None => default end.

Fixpoint get_edge_type_loop (roads : list road) (edge : node_id * node_id) : string :=
  match roads with
  | [] => "small"%string
  | r :: rest =>
      if str_contains (road_prefix (r_id r)) (str (fst edge))
         || str_contains (road_prefix (r_id r)) (str (snd edge))
      then get_type (r_type r) "small"%string
      else get_edge_type_loop rest edge
  end.

Definition Simulator_get_edge_type (self : Simulator) (edge : node_id * node_id)
  : string := get_edge_type_loop (get_list (md_roads (sim_map self))) edge.

(** [[TrafficLight(l) for l in lights]] *)
Fixpoint make_lights (ls : list light_entry) : outcome (list TrafficLight) :=
  match ls with
  | [] => Ok []
  | l :: rest =>
      lt <- TrafficLight_init l ;;
      lts <- make_lights rest ;;
      Ok (lt :: lts)
  end.

(** [Simulator.spawn_car(start_id, end_id)]: the returned flag and the
    simulator after the call.  [fuel] bounds the loop of [find_path] and
    [jitter] is the random draw of the new car's speed. *)
Definition Simulator_spawn_car (fuel : nat) (jitter : Q) (self : Simulator)
  (start_id end_id : node_id) : outcome (bool * Simulator) :=
  path <- find_path fuel (sim_edges self) start_id end_id None ;;
  match path with
  | None => Ok (false, self)
  | Some p =>
      if (List.length p <? 2)%nat then Ok (false, self)
      else
        car <- Car_init p (sim_nodes self) (sim_next_car_id self) jitter ;;
        Ok (true,
            {| sim_map := sim_map self; sim_nodes := sim_nodes self;
               sim_edges := sim_edges self; sim_lights := sim_lights self;
               sim_symbols := sim_symbols self;
               sim_cars := sim_cars self ++ [car];
               sim_next_car_id := (sim_next_car_id self + 1)%Z;
               sim_occupied := sim_occupied self |})
  end.

(** Field updates of a car. *)
Definition set_finished (c : Car) (b : bool) : Car :=
  {| car_path := car_path c; car_id := car_id c; car_edge_idx := car_edge_idx c;
     car_progress := car_progress c; car_speed := car_speed c;
     car_radius := car_radius c; car_finished := b;
     car_intersection_target := car_intersection_target c; car_pos := car_pos c |}.

Definition set_target (c : Car) (t : option nat) : Car :=
  {| car_path := car_path c; car_id := car_id c; car_edge_idx := car_edge_idx c;
     car_progress := car_progress c; car_speed := car_speed c;
     car_radius := car_radius c; car_finished := car_finished c;
     car_intersection_target := t; car_pos := car_pos c |}.

Definition set_progress (c : Car) (p : Q) : Car :=
  {| car_path := car_path c; car_id := car_id c; car_edge_idx := car_edge_idx c;
     car_progress := p; car_speed := car_speed c;
     car_radius := car_radius c; car_finished := car_finished c;
     car_intersection_target := car_intersection_target c; car_pos := car_pos c |}.

Definition set_edge_idx (c : Car) (i : nat) : Car :=
  {| car_path := car_path c; car_id := car_id c; car_edge_idx := i;
     car_progress := car_progress c; car_speed := car_speed c;
     car_radius := car_radius c; car_finished := car_finished c;
     car_intersection_target := car_intersection_target c; car_pos := car_pos c |}.

Definition set_pos (c : Car) (p : Vector2) : Car :=
  {| car_path := car_path c; car_id := car_id c; car_edge_idx := car_edge_idx c;
     car_progress := car_progress c; car_speed := car_speed c;
     car_radius := car_radius c; car_finished := car_finished c;
     car_intersection_target := car_intersection_target c; car_pos := p |}.

(** [s.get('type') == name] *)
Definition type_is (s : symbol) (name : string) : bool :=
  match s_type s with Some t => String.eqb t name | None => false end.

(** What the loop over the lights may change: the local [max_speed], the
    registry [sim.occupied] and [self.intersection_target]. *)
Record light_vars : Type := {
  lv_max_speed : Q;
  lv_occupied : occupied_t;
  lv_target : option nat
}.

Section Motion.
Variable hypot : Q -> Q -> Q.

(** [v.length()] *)
Definition vlength (v : Vector2) : Q := hypot (vx v) (vy v).

(** [v.normalize()]: a vector of length zero raises [ValueError]. *)
Definition normalize (v : Vector2) : outcome Vector2 :=
  let l := vlength v in
  if Qeq_bool l 0 then Raise ValueError
  else Ok {| vx := vx v / l; vy := vy v / l |}.

(** [Simulator(mapfile)], from the document read from [mapfile].
    [self.map] is kept with the fields [build_graph] has read. *)
Definition Simulator_init (doc : document) : outcome Simulator :=
  map <- read_document (load_map_data doc) ;;
  let '(nodes, edges) := build_graph hypot map hub_snap_dist_default in
  lights <- make_lights (get_list (md_lights map)) ;;
  Ok {| sim_map := map; sim_nodes := nodes; sim_edges := edges;
        sim_lights := lights; sim_symbols := get_list (md_symbols map);
        sim_cars := []; sim_next_car_id := 1; sim_occupied := [] |}.

(** "Maintain spacing": the closest car ahead within 25, as
    [(leader, min_gap)]. *)
Definition follow_step (self : Car) (dir_vec : Vector2) (st : option Z * Q)
  (other : Car) : option Z * Q :=
  if Z.eqb (car_id other) (car_id self) || car_finished other then st
  else
    let rel := vsub (car_pos other) (car_pos self) in
    let dist := vlength rel in
    if Qltb dist 25 && Qltb 0 (vdot rel dir_vec) then
      if Qltb dist (snd st) then (Some (car_id other), dist) else st
    else st.

Definition following (cars : list Car) (self : Car) (dir_vec : Vector2) : Q :=
  let '(leader, min_gap) := fold_left (follow_step self dir_vec) cars (None, 1000000000) in
  let max_speed := car_speed self in
  match leader with
  | Some _ =>
      if Qltb min_gap 18 then 0
      else if Qltb min_gap 40 then Qmin max_speed (car_speed self * (1 # 2))
      else max_speed
  | None => max_speed
  end.

(** "Traffic light + intersection reservation": the loop over
    [self.sim.lights], the light of index [i] first.  An exception of
    [is_green_for] leaves the loop with what was changed so far. *)
Fixpoint lights_loop (self : Car) (dir_vec : Vector2) (i : nat)
  (lights : list TrafficLight) (v : light_vars) : light_vars * outcome unit :=
  match lights with
  | [] => (v, Ok tt)
  | lt :: rest =>
      let light_pos := {| vx := tl_x lt; vy := tl_y lt |} in
      let to_light := vsub light_pos (car_pos self) in
      let dist := vlength to_light in
      if Qltb dist 80 && Qltb 0 (vdot to_light dir_vec) then
        let stop_point := vsub light_pos (vscale dir_vec 25) in
        match TrafficLight_is_green_for lt dir_vec with
        | Ok green1 =>
            let max_speed :=
              if negb green1 && Qltb (vlength (vsub stop_point (car_pos self))) 35
              then 0 else lv_max_speed v in
            let max_speed :=
              match dict_get i (lv_occupied v) with
              | Some owner =>
                  if negb (Z.eqb owner (car_id self))
                     && Qltb (vlength (vsub light_pos (car_pos self))) 60
                  then 0 else max_speed
              | None => max_speed
              end in
            match TrafficLight_is_green_for lt dir_vec with
            | Ok green2 =>
                if green2 && Qltb (vlength (vsub light_pos (car_pos self))) 40
                then lights_loop self dir_vec (S i) rest
                       {| lv_max_speed := max_speed;
                          lv_occupied := dict_set i (car_id self) (lv_occupied v);
                          lv_target := Some i |}
                else lights_loop self dir_vec (S i) rest
                       {| lv_max_speed := max_speed;
                          lv_occupied := lv_occupied v;
                          lv_target := lv_target v |}
            | Raise e => (v, Raise e)
            | Diverge => (v, Diverge)
            end
        | Raise e => (v, Raise e)
        | Diverge => (v, Diverge)
        end
      else lights_loop self dir_vec (S i) rest v
  end.

(** "Release intersection after passing": the registry and the target
    after it.  The target always names a light of [lights]. *)
Definition release (self : Car) (lights : list TrafficLight) (occupied : occupied_t)
  (target : option nat) : occupied_t * option nat :=
  match target with
  | Some i =>
      match nth_error lights i with
      | Some lt =>
          let light_pos := {| vx := tl_x lt; vy := tl_y lt |} in
          if Qltb 60 (vlength (vsub (car_pos self) light_pos)) then
            (match dict_get i occupied with
             | Some owner => if Z.eqb owner (car_id self) then dict_pop i occupied
                             else occupied
             | None => occupied
             end, None)
          else (occupied, target)
      | None => (occupied, target)
      end
  | None => (occupied, target)
  end.

(** "Symbol handling": [Ok None] when a [no_entry] symbol made [update]
    return, otherwise the speed after the [slow] symbols; [KeyError] at a
    symbol without [x] or [y]. *)
Fixpoint symbols_loop (self : Car) (dir_vec : Vector2) (symbols : list symbol)
  (max_speed : Q) : outcome (option Q) :=
  match symbols with
  | [] => Ok (Some max_speed)
  | s :: rest =>
      x <- subscript (s_x s) ;;
      y <- subscript (s_y s) ;;
      let sym_vec := vsub {| vx := x; vy := y |} (car_pos self) in
      let dist := vlength sym_vec in
      if type_is s "slow" && Qltb dist 50
      then symbols_loop self dir_vec rest (Qmin max_speed 40)
      else if type_is s "no_entry" && Qltb 0 (vdot sym_vec dir_vec) && Qltb dist 50
      then Ok None
      else symbols_loop self dir_vec rest max_speed
  end.

(** "Move": the car after the integration step, and how the step ended. *)
Definition move (nodes : nodes_t) (self : Car) (a dir_vec : Vector2) (edge_len : Q)
  (road_type : string) (max_speed dt : Q) : Car * outcome unit :=
  let move := max_speed * dt in
  let delta_progress := move / edge_len in
  let self := set_progress self (car_progress self + delta_progress) in
  if Qle_bool 1 (car_progress self) then
    let self := set_edge_idx self (car_edge_idx self + 1) in
    if (List.length (car_path self) <=? car_edge_idx self + 1)%nat then
      match p <- list_item (car_path self) (List.length (car_path self) - 1) ;;
            dict_item p nodes with
      | Ok p => (set_finished (set_pos self (vec p)) true, Ok tt)
      | Raise e => (self, Raise e)
      | Diverge => (self, Diverge)
      end
    else
      let self := set_progress self 0 in
      match p <- list_item (car_path self) (car_edge_idx self) ;;
            dict_item p nodes with
      | Ok p => (set_pos self (vec p), Ok tt)
      | Raise e => (self, Raise e)
      | Diverge => (self, Diverge)
      end
  else
    let lane_offset :=
      if String.eqb road_type "big" then
        let perp := {| vx := - vy dir_vec; vy := vx dir_vec |} in
        if Qle_bool (Qabs (vy dir_vec)) (Qabs (vx dir_vec))
        then vscale perp (if Qltb 0 (vx dir_vec) then 5 else -5)
        else vscale perp (if Qltb 0 (vy dir_vec) then 5 else -5)
      else {| vx := 0; vy := 0 |} in
    (set_pos self
       (vadd (vadd a (vscale dir_vec (car_progress self * edge_len))) lane_offset),
     Ok tt).

(** The geometry of the current edge, lines 73 to 77 of [Car.update]:
    its start [a], its length and its direction. *)
Definition edge_geometry (nodes : nodes_t) (self : Car)
  : outcome (Vector2 * Q * Vector2) :=
  na <- list_item (car_path self) (car_edge_idx self) ;;
  pa <- dict_item na nodes ;;
  nb <- list_item (car_path self) (car_edge_idx self + 1) ;;
  pb <- dict_item nb nodes ;;
  let a := vec pa in
  let b := vec pb in
  let edge_vec := vsub b a in
  let edge_len := if negb (Qeq_bool (vlength edge_vec) 0) then vlength edge_vec else 1 in
  dir_vec <- normalize edge_vec ;;
  Ok (a, edge_len, dir_vec).

(** [Car.update(dt)]: the car and the registry after the call, and how
    the call ended ([Ok tt] when it returned). *)
Definition Car_update (sim : Simulator) (self : Car) (dt : Q)
  : Car * occupied_t * outcome unit :=
  if car_finished self then (self, sim_occupied sim, Ok tt)
  else if (List.length (car_path self) <=? car_edge_idx self + 1)%nat
  then (set_finished self true, sim_occupied sim, Ok tt)
  else
    match edge_geometry (sim_nodes sim) self with
    | Raise e => (self, sim_occupied sim, Raise e)
    | Diverge => (self, sim_occupied sim, Diverge)
    | Ok (a, edge_len, dir_vec) =>
        let road_type :=
          match Car_current_edge self with
          | Some edge => Simulator_get_edge_type sim edge
          | None => "small"%string
          end in
        let max_speed := following (sim_cars sim) self dir_vec in
        let '(v, res) :=
          lights_loop self dir_vec 0 (sim_lights sim)
            {| lv_max_speed := max_speed; lv_occupied := sim_occupied sim;
               lv_target := car_intersection_target self |} in
        match res with
        | Raise e => (set_target self (lv_target v), lv_occupied v, Raise e)
        | Diverge => (set_target self (lv_target v), lv_occupied v, Diverge)
        | Ok _ =>
            let '(occupied, target) :=
              release self (sim_lights sim) (lv_occupied v) (lv_target v) in
            let self := set_target self target in
            match symbols_loop self dir_vec (sim_symbols sim) (lv_max_speed v) with
            | Ok None => (self, occupied, Ok tt)
            | Ok (Some max_speed) =>
                let '(self, res) :=
                  move (sim_nodes sim) self a dir_vec edge_len road_type max_speed dt in
                (self, occupied, res)
            | Raise e => (self, occupied, Raise e)
            | Diverge => (self, occupied, Diverge)
            end
        end
    end.


(** *** [Simulator.update(dt)].  The loop runs over [list(self.cars)], a
    copy of the list holding the same car objects; a car is changed by its
    own update only, so at its turn it is still as the copy has it.  The
    list [self.cars] the updates read is the live one: the cars updated
    before are in their new state and the finished ones are gone. *)

Definition set_lights (sim : Simulator) (lights : list TrafficLight) : Simulator :=
  {| sim_map := sim_map sim; sim_nodes := sim_nodes sim; sim_edges := sim_edges sim;
     sim_lights := lights; sim_symbols := sim_symbols sim; sim_cars := sim_cars sim;
     sim_next_car_id := sim_next_car_id sim; sim_occupied := sim_occupied sim |}.

Definition set_cars (sim : Simulator) (cars : list Car) (occupied : occupied_t)
  : Simulator :=
  {| sim_map := sim_map sim; sim_nodes := sim_nodes sim; sim_edges := sim_edges sim;
     sim_lights := sim_lights sim; sim_symbols := sim_symbols sim; sim_cars := cars;
     sim_next_car_id := sim_next_car_id sim; sim_occupied := occupied |}.

(** The car object [c] of the list, in the state its update left it.
    Objects are told apart by their id: [spawn_car] gives every car an id
    of its own. *)
Fixpoint replace_car (c : Car) (cars : list Car) : list Car :=
  match cars with
  | [] => []
  | x :: rest => if Z.eqb (car_id x) (car_id c) then c :: rest
                 else x :: replace_car c rest
  end.

(** [self.cars.remove(car)]: the first occurrence goes; [ValueError] when
    the car is not in the list. *)
Fixpoint remove_car (c : Car) (cars : list Car) : outcome (list Car) :=
  match cars with
  | [] => Raise ValueError
  | x :: rest => if Z.eqb (car_id x) (car_id c) then Ok rest
                 else rest' <- remove_car c rest ;; Ok (x :: rest')
  end.

(** [for car in list(self.cars): car.update(dt); if car.finished: ...] *)
Fixpoint update_cars (snapshot : list Car) (sim : Simulator) (dt : Q)
  : Simulator * outcome unit :=
  match snapshot with
  | [] => (sim, Ok tt)
  | car :: rest =>
      let '(car', occupied, res) := Car_update sim car dt in
      let sim := set_cars sim (replace_car car' (sim_cars sim)) occupied in
      match res with
      | Ok _ =>
          if car_finished car' then
            match remove_car car' (sim_cars sim) with
            | Ok cars => update_cars rest (set_cars sim cars (sim_occupied sim)) dt
            | Raise e => (sim, Raise e)
            | Diverge => (sim, Diverge)
            end
          else update_cars rest sim dt
      | Raise e => (sim, Raise e)
      | Diverge => (sim, Diverge)
      end
  end.

Definition Simulator_update (self : Simulator) (dt : Q) : Simulator * outcome unit :=
  let self := set_lights self (map (fun lt => TrafficLight_update lt dt) (sim_lights self)) in
  update_cars (sim_cars self) self dt.

End Motion.

End simulator.

(* ------------------------------------------------------------------ *)
(** ** Concrete maps and states the properties are run on *)
Module Examples.
Import Py map_utils simulator.
Local Open Scope Q_scope.

Definition A : node_id := NStr "A".
Definition B : node_id := NStr "B".
Definition C : node_id := NStr "C".

(** The line graph A - B - C with both weights 5. *)
Definition line_graph : edges_t :=
  [(A, [(B, 5)]); (B, [(A, 5); (C, 5)]); (C, [(B, 5)])].

Definition mk_hub (id : Z) (x y : Q) : hub :=
  {| h_id := id; h_x := x; h_y := y; h_name := None; h_rate := None |}.

(** The document whose road and hub entries have every field of [md]. *)
Definition entry_of_road (r : road) : road_entry :=
  {| re_id := Some (r_id r); re_x := Some (r_x r); re_y := Some (r_y r);
     re_w := Some (r_w r); re_h := Some (r_h r); re_type := r_type r |}.

Definition entry_of_hub (h : hub) : hub_entry :=
  {| he_id := Some (h_id h); he_x := Some (h_x h); he_y := Some (h_y h);
     he_name := h_name h; he_rate := h_rate h |}.

Definition document_of (md : mapdata) : document :=
  {| doc_roads := option_map (map entry_of_road) (md_roads md);
     doc_hubs := option_map (map entry_of_hub) (md_hubs md);
     doc_lights := md_lights md; doc_symbols := md_symbols md |}.

(** Two hubs at the same place and no road. *)
Definition twin_hubs : mapdata :=
  {| md_roads := None;
     md_hubs := Some [mk_hub 1 500 500; mk_hub 2 500 500];
     md_lights := None; md_symbols := None |}.

(** One horizontal road from (0,0), 100 wide and 20 high; hub 2 on its
    midpoint, hub 3 at distance 50 below the midpoint, hub 9 far away. *)
Definition tie_map : mapdata :=
  {| md_roads := Some [{| r_id := 1; r_x := 0; r_y := 0; r_w := 100; r_h := 20;
                          r_type := None |}];
     md_hubs := Some [mk_hub 2 50 10; mk_hub 3 50 60; mk_hub 9 1000 1000];
     md_lights := None; md_symbols := None |}.

(** A light entry with no [green] and no [offset]. *)
Definition light_without_green : light_entry :=
  {| l_x := Some 100; l_y := Some 200; l_green := None; l_red := Some 4;
     l_offset := None |}.

Definition one_light_map : mapdata :=
  {| md_roads := None; md_hubs := None;
     md_lights := Some [light_without_green]; md_symbols := None |}.

(** A light at (120,100) with green 6 and red 4, at elapsed time [t]. *)
Definition light_6_4 (t : Q) : TrafficLight :=
  {| tl_x := 120; tl_y := 100; tl_green := 6; tl_red := 4; tl_offset := 0; tl_t := t |}.

Definition east : Vector2 := {| vx := 1; vy := 0 |}.
Definition south : Vector2 := {| vx := 0; vy := 1 |}.

(** A horizontal and a vertical road crossing at (120,100), a hub at each
    of the four ends and a light on the crossing. *)
Definition cross_map : mapdata :=
  {| md_roads := Some [{| r_id := 1; r_x := 0; r_y := 90; r_w := 200; r_h := 20;
                          r_type := None |};
                       {| r_id := 2; r_x := 110; r_y := 0; r_w := 20; r_h := 200;
                          r_type := None |}];
     md_hubs := Some [mk_hub 3 0 100; mk_hub 4 200 100; mk_hub 5 120 0; mk_hub 6 120 200];
     md_lights := Some [{| l_x := Some 120; l_y := Some 100; l_green := Some 6;
                           l_red := Some 4; l_offset := Some 0 |}];
     md_symbols := None |}.

Definition mk_car (id : Z) (path : list node_id) (edge_idx : nat) (progress : Q)
  (target : option nat) (pos : Vector2) : Car :=
  {| car_path := path; car_id := id; car_edge_idx := edge_idx;
     car_progress := progress; car_speed := 80; car_radius := 6;
     car_finished := false; car_intersection_target := target; car_pos := pos |}.

(** Car 1 comes from the north, is 10 before the crossing and holds the
    reservation of the light. *)
Definition car1 : Car :=
  mk_car 1 [NInt 5; NStr "r2_T"; NStr "r2_M"; NStr "r2_B"; NInt 6] 1 (9 # 10)
    (Some 0%nat) {| vx := 120; vy := 90 |}.

(** Car 2 comes from the west and is 30 before the crossing. *)
Definition car2 : Car :=
  mk_car 2 [NInt 3; NStr "r1_L"; NStr "r1_M"; NStr "r1_R"; NInt 4] 1 (9 # 10)
    None {| vx := 90; vy := 100 |}.

(** The simulator of [cross_map] with the two cars, once car 1 has
    reserved the light (index 0), at a time the light is green for
    horizontal travel. *)
Definition crossing : Simulator :=
  {| sim_map := cross_map;
     sim_nodes := fst (build_graph hypot6 cross_map hub_snap_dist_default);
     sim_edges := snd (build_graph hypot6 cross_map hub_snap_dist_default);
     sim_lights := [light_6_4 0];
     sim_symbols := [];
     sim_cars := [car1; car2];
     sim_next_car_id := 3;
     sim_occupied := [(0%nat, 1%Z)] |}.

(** The same crossing without the light and with a [no_entry] symbol 20
    ahead of car 2. *)
Definition closed_road : Simulator :=
  {| sim_map := cross_map;
     sim_nodes := fst (build_graph hypot6 cross_map hub_snap_dist_default);
     sim_edges := snd (build_graph hypot6 cross_map hub_snap_dist_default);
     sim_lights := [];
     sim_symbols := [{| s_x := Some 110; s_y := Some 100;
                       s_type := Some "no_entry"%string |}];
     sim_cars := [car2];
     sim_next_car_id := 3;
     sim_occupied := [] |}.

(** One horizontal big road of length 200 with a hub at each end. *)
Definition big_road_map : mapdata :=
  {| md_roads := Some [{| r_id := 1; r_x := 0; r_y := 0; r_w := 200; r_h := 20;
                          r_type := Some "big"%string |}];
     md_hubs := Some [mk_hub 2 0 10; mk_hub 3 200 10];
     md_lights := None; md_symbols := None |}.

(** The simulator loaded from [big_road_map]. *)
Definition big_road_sim : Simulator :=
  {| sim_map := big_road_map;
     sim_nodes := fst (build_graph hypot6 big_road_map hub_snap_dist_default);
     sim_edges := snd (build_graph hypot6 big_road_map hub_snap_dist_default);
     sim_lights := []; sim_symbols := []; sim_cars := []; sim_next_car_id := 1;
     sim_occupied := [] |}.

(** An edge map with one isolated hub. *)
Definition lone_hub : edges_t := [(NInt 9, [])].

(** The simulator loaded from [tie_map]. *)
Definition tie_sim : Simulator :=
  {| sim_map := tie_map;
     sim_nodes := fst (build_graph hypot6 tie_map hub_snap_dist_default);
     sim_edges := snd (build_graph hypot6 tie_map hub_snap_dist_default);
     sim_lights := []; sim_symbols := []; sim_cars := []; sim_next_car_id := 1;
     sim_occupied := [] |}.

(** The two roads of [cross_map]. *)
Definition cross_road1 : road :=
  {| r_id := 1; r_x := 0; r_y := 90; r_w := 200; r_h := 20; r_type := None |}.
Definition cross_road2 : road :=
  {| r_id := 2; r_x := 110; r_y := 0; r_w := 20; r_h := 200; r_type := None |}.

(** Cars on the road of [tie_map], on their way from its left end over
    the midpoint to hub 3. *)
Definition tie_car (id : Z) (edge_idx : nat) (progress : Q) (pos : Vector2) : Car :=
  mk_car id [NStr "r1_L"; NStr "r1_M"; NInt 3] edge_idx progress None pos.

(** Car 7 is 10 behind car 8 on the first edge. *)
Definition car7 : Car := tie_car 7 0 (1 # 5) {| vx := 10; vy := 10 |}.
Definition car8 : Car := tie_car 8 0 (2 # 5) {| vx := 20; vy := 10 |}.

(** Car 9 is about to reach hub 3 at the end of its last edge. *)
Definition car9 : Car := tie_car 9 1 (99 # 100) {| vx := 50; vy := 59 |}.

Definition jam : Simulator :=
  {| sim_map := tie_map;
     sim_nodes := fst (build_graph hypot6 tie_map hub_snap_dist_default);
     sim_edges := snd (build_graph hypot6 tie_map hub_snap_dist_default);
     sim_lights := []; sim_symbols := [];
     sim_cars := [car7; car8; car9];
     sim_next_car_id := 10;
     sim_occupied := [] |}.

(** A car at hub 2 of [big_road_map], which lies on the left end of the
    road, bound for hub 3. *)
Definition car_at_hub : Car :=
  mk_car 1 [NInt 2; NStr "r1_L"; NStr "r1_M"; NStr "r1_R"; NInt 3] 0 0 None
    {| vx := 0; vy := 10 |}.

(** [big_road_sim] after that car was spawned. *)
Definition big_road_spawned : Simulator :=
  {| sim_map := big_road_map;
     sim_nodes := fst (build_graph hypot6 big_road_map hub_snap_dist_default);
     sim_edges := snd (build_graph hypot6 big_road_map hub_snap_dist_default);
     sim_lights := []; sim_symbols := []; sim_cars := [car_at_hub];
     sim_next_car_id := 2; sim_occupied := [] |}.

(** One horizontal road with a hub 10 below each end, and a light 30
    along the road that starts green for vertical travel. *)
Definition signal_map : mapdata :=
  {| md_roads := Some [{| r_id := 1; r_x := 0; r_y := 90; r_w := 200; r_h := 20;
                          r_type := None |}];
     md_hubs := Some [mk_hub 3 0 110; mk_hub 4 200 110];
     md_lights := Some [{| l_x := Some 30; l_y := Some 100; l_green := Some 6;
                           l_red := Some 4; l_offset := Some 6 |}];
     md_symbols := None |}.

(** The simulator loaded from [signal_map], the one after a car was
    spawned from hub 3 to hub 4, and the one after a first update of a
    tenth of a second. *)
Definition signal_sim : Simulator :=
  {| sim_map := signal_map;
     sim_nodes := fst (build_graph hypot6 signal_map hub_snap_dist_default);
     sim_edges := snd (build_graph hypot6 signal_map hub_snap_dist_default);
     sim_lights := [{| tl_x := 30; tl_y := 100; tl_green := 6; tl_red := 4;
                       tl_offset := 6; tl_t := 6 |}];
     sim_symbols := []; sim_cars := []; sim_next_car_id := 1; sim_occupied := [] |}.

Definition signal_car : Car :=
  mk_car 1 [NInt 3; NStr "r1_L"; NStr "r1_M"; NStr "r1_R"; NInt 4] 0 0 None
    {| vx := 0; vy := 110 |}.

Definition signal_spawned : Simulator :=
  {| sim_map := signal_map;
     sim_nodes := fst (build_graph hypot6 signal_map hub_snap_dist_default);
     sim_edges := snd (build_graph hypot6 signal_map hub_snap_dist_default);
     sim_lights := [{| tl_x := 30; tl_y := 100; tl_green := 6; tl_red := 4;
                       tl_offset := 6; tl_t := 6 |}];
     sim_symbols := []; sim_cars := [signal_car]; sim_next_car_id := 2;
     sim_occupied := [] |}.

Definition signal_moved : Simulator :=
  fst (Simulator_update hypot6 signal_spawned (1 # 10)).

(** Car 8 alone on the road of [tie_map], 10 before a [slow] symbol. *)
Definition slow_zone : Simulator :=
  {| sim_map := tie_map;
     sim_nodes := fst (build_graph hypot6 tie_map hub_snap_dist_default);
     sim_edges := snd (build_graph hypot6 tie_map hub_snap_dist_default);
     sim_lights := [];
     sim_symbols := [{| s_x := Some 30; s_y := Some 10; s_type := Some "slow"%string |}];
     sim_cars := [car8];
     sim_next_car_id := 9;
     sim_occupied := [] |}.

(** Documents with a missing field: a road without [w], and a symbol
    without [x] beside a light without [green]. *)
Definition road_without_w : document :=
  {| doc_roads := Some [{| re_id := Some 1%Z; re_x := Some 0; re_y := Some 0;
                           re_w := None; re_h := Some 20; re_type := None |}];
     doc_hubs := None; doc_lights := None; doc_symbols := None |}.

Definition symbol_without_x : symbol :=
  {| s_x := None; s_y := Some 10; s_type := Some "slow"%string |}.

Definition sparse_document : document :=
  {| doc_roads := None; doc_hubs := None;
     doc_lights := Some [light_without_green];
     doc_symbols := Some [symbol_without_x] |}.

(** [signal_map] with the symbol without [x]: the simulator loaded from
    it, and the one after a car was spawned from hub 3 to hub 4. *)
Definition unplaced_map : mapdata :=
  {| md_roads := md_roads signal_map; md_hubs := md_hubs signal_map;
     md_lights := md_lights signal_map; md_symbols := Some [symbol_without_x] |}.

Definition unplaced_sim : Simulator :=
  {| sim_map := unplaced_map;
     sim_nodes := fst (build_graph hypot6 unplaced_map hub_snap_dist_default);
     sim_edges := snd (build_graph hypot6 unplaced_map hub_snap_dist_default);
     sim_lights := [{| tl_x := 30; tl_y := 100; tl_green := 6; tl_red := 4;
                       tl_offset := 6; tl_t := 6 |}];
     sim_symbols := [symbol_without_x]; sim_cars := []; sim_next_car_id := 1;
     sim_occupied := [] |}.

Definition unplaced_spawned : Simulator :=
  {| sim_map := unplaced_map;
     sim_nodes := fst (build_graph hypot6 unplaced_map hub_snap_dist_default);
     sim_edges := snd (build_graph hypot6 unplaced_map hub_snap_dist_default);
     sim_lights := [{| tl_x := 30; tl_y := 100; tl_green := 6; tl_red := 4;
                       tl_offset := 6; tl_t := 6 |}];
     sim_symbols := [symbol_without_x]; sim_cars := [signal_car];
     sim_next_car_id := 2; sim_occupied := [] |}.

End Examples.

(* ------------------------------------------------------------------ *)
(** ** Notions the properties are stated and proved with *)
Module Notions.
Import Py map_utils simulator.
Local Open Scope Q_scope.

(** *** Loading *)

(** How a light entry with [x] and [y] is loaded: the missing durations
    and offset replaced by 6, 6 and 0. *)
Definition loaded_as (l : light_entry) (lt : TrafficLight) : Prop :=
  l_x l = Some (tl_x lt) /\ l_y l = Some (tl_y lt) /\
  tl_green lt = get_default (l_green l) 6 /\
  tl_red lt = get_default (l_red l) 6 /\
  tl_offset lt = get_default (l_offset l) 0 /\
  tl_t lt = tl_offset lt.

(** Entries that lack a field the load subscripts. *)
Definition road_incomplete (r : road_entry) : Prop :=
  re_id r = None \/ re_x r = None \/ re_y r = None \/ re_w r = None \/ re_h r = None.

Definition hub_incomplete (h : hub_entry) : Prop :=
  he_id h = None \/ he_x h = None \/ he_y h = None.

Definition light_incomplete (l : light_entry) : Prop :=
  l_x l = None \/ l_y l = None.

(** How a road entry and a hub entry are read. *)
Definition road_read_as (e : road_entry) (r : road) : Prop :=
  re_id e = Some (r_id r) /\ re_x e = Some (r_x r) /\ re_y e = Some (r_y r) /\
  re_w e = Some (r_w r) /\ re_h e = Some (r_h r) /\ re_type e = r_type r.

Definition hub_read_as (e : hub_entry) (h : hub) : Prop :=
  he_id e = Some (h_id h) /\ he_x e = Some (h_x h) /\ he_y e = Some (h_y h) /\
  he_name e = h_name h /\ he_rate e = h_rate h.

(** *** The road graph *)

(** The edge map is symmetric: an entry [(v, w)] in the list of [u] has
    its mirror [(u, w)] in the list of [v]. *)
Definition symmetric (edges : edges_t) : Prop :=
  forall u v w, In (v, w) (adj u edges) -> In (u, w) (adj v edges).

(** Ids unique within each kind. *)
Definition unique_ids (md : mapdata) : Prop :=
  NoDup (map r_id (get_list (md_roads md))) /\
  NoDup (map h_id (get_list (md_hubs md))).

Definition is_str (n : node_id) : Prop :=
  match n with NStr _ => True | NInt _ => False end.

Definition is_int (n : node_id) : Prop :=
  match n with NStr _ => False | NInt _ => True end.

(** Every key and every neighbour of the edge map is a key of [nodes]. *)
Definition closed (nodes : nodes_t) (edges : edges_t) : Prop :=
  (forall k, dict_mem k edges = true -> In k (dict_keys nodes)) /\
  (forall u v w, In (v, w) (adj u edges) -> In v (dict_keys nodes)).

(** The keys of [nodes] are strings or the ids of the hubs [done]. *)
Definition hubs_done (done : list Z) (nodes : nodes_t) : Prop :=
  forall n, In n (dict_keys nodes) -> is_str n \/ exists z, n = NInt z /\ In z done.

(** The invariant of the four steps of [build_graph]. *)
Record graph_inv (done : list Z) (st : nodes_t * edges_t) : Prop := {
  gi_sym : symmetric (snd st);
  gi_closed : closed (fst st) (snd st);
  gi_keys : hubs_done done (fst st)
}.

(** *** The simulator *)

(** Every key of the edge map is a key of the node map, as in the maps
    [build_graph] returns. *)
Definition edges_in_nodes (sim : Simulator) : Prop :=
  forall n, dict_mem n (sim_edges sim) = true -> dict_mem n (sim_nodes sim) = true.

(** The simulator after a successful spawn of [car]. *)
Definition with_car (sim : Simulator) (car : Car) : Simulator :=
  {| sim_map := sim_map sim; sim_nodes := sim_nodes sim;
     sim_edges := sim_edges sim; sim_lights := sim_lights sim;
     sim_symbols := sim_symbols sim;
     sim_cars := sim_cars sim ++ [car];
     sim_next_car_id := (sim_next_car_id sim + 1)%Z;
     sim_occupied := sim_occupied sim |}.

(** A symbol that stops the car: [no_entry], ahead and closer than 50. *)
Definition blocks (hypot : Q -> Q -> Q) (self : Car) (dir_vec : Vector2) (s : symbol)
  : Prop :=
  exists x y,
    s_x s = Some x /\ s_y s = Some y /\
    s_type s = Some "no_entry"%string /\
    0 < vdot (vsub {| vx := x; vy := y |} (car_pos self)) dir_vec /\
    vlength hypot (vsub {| vx := x; vy := y |} (car_pos self)) < 50.

(** *** The binary heap of [heapq]: the parent of index [i], the cost at
    an index, the heap order on costs, and the order around a hole. *)
Definition parent (i : nat) : nat := ((i - 1) / 2)%nat.
Definition dflt : entry := (0, NInt 0, []).
Definition cst (h : list entry) (i : nat) : Q := e_cost (nth i h dflt).

Definition heap_inv (h : list entry) : Prop :=
  forall i, (0 < i < List.length h)%nat -> cst h (parent i) <= cst h i.

Definition up_inv (h : list entry) (pos : nat) : Prop :=
  (forall i, (0 < i < List.length h)%nat -> i <> pos -> parent i <> pos ->
             cst h (parent i) <= cst h i) /\
  (forall k, (0 < k < List.length h)%nat -> parent k = pos -> (0 < pos)%nat ->
             cst h (parent pos) <= cst h k).

Definition hole_inv (h : list entry) (pos : nat) (x : entry) : Prop :=
  up_inv h pos /\
  (forall k, (0 < k < List.length h)%nat -> parent k = pos -> e_cost x <= cst h k).

Definition ok_or_type {A : Type} (r : outcome A) (P : A -> Prop) : Prop :=
  match r with
  | Ok a => P a
  | Raise e => e = TypeError
  | Diverge => False
  end.

(** *** Routing *)
Section Router.
Variable edges : edges_t.
Variable tc : option traffic_t.
Variable start : node_id.

(** [walk p n c]: [p] lists the nodes of a walk from [start] to [n] along
    entries of the edge map, and [c] is its cost as [find_path] adds it up. *)
Inductive walk : list node_id -> node_id -> Q -> Prop :=
| walk_start : walk [start] start 0
| walk_step (p : list node_id) (u : node_id) (c : Q) (v : node_id) (w : Q) :
    walk p u c -> In (v, w) (adj u edges) ->
    walk (p ++ [v]) v (c + w + traffic tc u v * 10).

Definition nonneg_costs : Prop :=
  forall u v w, In (v, w) (adj u edges) -> 0 <= edge_cost tc u v w.

Variable goal : node_id.

Definition covered (pq : list entry) (seen : dict node_id Q) (n : node_id) (c : Q) : Prop :=
  (exists s, dict_get n seen = Some s /\ s <= c) \/
  (exists e, In e pq /\ e_node e = n /\ e_cost e <= c).

Record inv (pq : list entry) (seen : dict node_id Q) : Prop := {
  inv_walk : forall e, In e pq -> walk (e_path e) (e_node e) (e_cost e);
  inv_start : covered pq seen start 0;
  inv_edges : forall u cu v w,
      dict_get u seen = Some cu -> In (v, w) (adj u edges) ->
      covered pq seen v (cu + w + traffic tc u v * 10);
  inv_goal : dict_get goal seen = None;
  inv_heap : heap_inv pq
}.

(** Settled costs are below every queued cost. *)
Definition settled_below (pq : list entry) (seen : dict node_id Q) : Prop :=
  forall u s e, dict_get u seen = Some s -> In e pq -> s <= e_cost e.

(** Adjacency entries of the nodes not yet in [seen]. *)
Fixpoint pending (es : edges_t) (seen : dict node_id Q) : nat :=
  match es with
  | [] => 0
  | (u, l) :: r => (if dict_mem u seen then 0 else List.length l) + pending r seen
  end.

End Router.

(** Node ids of one kind only: all strings, or all ints. *)
Definition one_kind (K : node_id -> Prop) (edges : edges_t) (start : node_id) : Prop :=
  K start /\ forall u v w, In (v, w) (adj u edges) -> K v.

Definition kind_entry (K : node_id -> Prop) (e : entry) : Prop :=
  K (e_node e) /\ Forall K (e_path e).

Definition fuel_bound (edges : edges_t) : nat := S (pending edges []).

(** *** More on the road graph *)

(** The point [(px, py)] lies in the rectangle of a road, in an overlap
    rectangle, strictly inside the rectangle of a road. *)
Definition in_road (r : road) (px py : Q) : Prop :=
  (r_x r <= px <= r_x r + r_w r) /\ (r_y r <= py <= r_y r + r_h r).

Definition in_rect (ov : rect) (px py : Q) : Prop :=
  (ov_x ov <= px <= ov_x ov + ov_w ov) /\ (ov_y ov <= py <= ov_y ov + ov_h ov).

Definition inside_road (r : road) (px py : Q) : Prop :=
  (r_x r < px < r_x r + r_w r) /\ (r_y r < py < r_y r + r_h r).

(** [u] and [v] are nodes and neighbours of each other at distance [d]. *)
Definition joined (st : nodes_t * edges_t) (u v : node_id) (d : Q) : Prop :=
  In u (dict_keys (fst st)) /\ In v (dict_keys (fst st)) /\
  In (v, d) (adj u (snd st)) /\ In (u, d) (adj v (snd st)).

(** The chain of the three nodes of road [r]: end, midpoint, end, along
    the centre line of the longer side. *)
Definition road_chain (hypot : Q -> Q -> Q) (r : road) (st : nodes_t * edges_t) : Prop :=
  let cx := r_x r + r_w r / 2 in
  let cy := r_y r + r_h r / 2 in
  if Qle_bool (r_h r) (r_w r) then
    joined st (road_node (r_id r) "L") (road_node (r_id r) "M")
      (_dist hypot (r_x r, cy) (cx, cy)) /\
    joined st (road_node (r_id r) "M") (road_node (r_id r) "R")
      (_dist hypot (cx, cy) (r_x r + r_w r, cy))
  else
    joined st (road_node (r_id r) "T") (road_node (r_id r) "M")
      (_dist hypot (cx, r_y r) (cx, cy)) /\
    joined st (road_node (r_id r) "M") (road_node (r_id r) "B")
      (_dist hypot (cx, cy) (cx, r_y r + r_h r)).

(** Consecutive nodes of a path are joined by an entry of the edge map. *)
Definition follows_edges (edges : edges_t) (p : list node_id) : Prop :=
  forall i u v, nth_error p i = Some u -> nth_error p (S i) = Some v ->
                exists w, In (v, w) (adj u edges).

(** *** The step of a car and of the simulator *)

(** The three results of [Car.update]: the car after the call, the
    registry after it, and how the call ended. *)
Definition updated_car (hypot : Q -> Q -> Q) (sim : Simulator) (self : Car) (dt : Q)
  : Car := fst (fst (Car_update hypot sim self dt)).

Definition updated_registry (hypot : Q -> Q -> Q) (sim : Simulator) (self : Car) (dt : Q)
  : occupied_t := snd (fst (Car_update hypot sim self dt)).

Definition update_result (hypot : Q -> Q -> Q) (sim : Simulator) (self : Car) (dt : Q)
  : outcome unit := snd (Car_update hypot sim self dt).

(** The light at [(tl_x, tl_y)] is one the loop of [Car.update] looks at:
    closer than 80 and ahead of the car. *)
Definition light_ahead (hypot : Q -> Q -> Q) (self : Car) (dir_vec : Vector2)
  (lt : TrafficLight) : Prop :=
  vlength hypot (vsub {| vx := tl_x lt; vy := tl_y lt |} (car_pos self)) < 80 /\
  0 < vdot (vsub {| vx := tl_x lt; vy := tl_y lt |} (car_pos self)) dir_vec.

(** The car did not advance: same edge, same progress, not finished. *)
Definition stays (self self' : Car) : Prop :=
  car_edge_idx self' = car_edge_idx self /\
  car_progress self' == car_progress self /\
  car_finished self' = false.

(** The states a run of the simulator goes through: the one loaded from
    a map document, then the one after each call of [spawn_car] or
    [update] that returned. *)
Inductive reachable (hypot : Q -> Q -> Q) : Simulator -> Prop :=
| reach_init (doc : document) (sim : Simulator) :
    Simulator_init hypot doc = Ok sim -> reachable hypot sim
| reach_spawn (fuel : nat) (jitter : Q) (sim : Simulator) (start_id end_id : node_id)
    (b : bool) (sim' : Simulator) :
    reachable hypot sim ->
    Simulator_spawn_car fuel jitter sim start_id end_id = Ok (b, sim') ->
    reachable hypot sim'
| reach_update (sim : Simulator) (dt : Q) (sim' : Simulator) :
    reachable hypot sim ->
    Simulator_update hypot sim dt = (sim', Ok tt) ->
    reachable hypot sim'.

(** Car ids are pairwise distinct and below the counter. *)
Definition ids_fresh (sim : Simulator) : Prop :=
  NoDup (map car_id (sim_cars sim)) /\
  forall c, In c (sim_cars sim) -> (car_id c < sim_next_car_id sim)%Z.

(** A car under way: not finished, with an edge left, on a path whose
    nodes are nodes of the map and whose steps are edges of the map. *)
Definition on_route (nodes : nodes_t) (edges : edges_t) (c : Car) : Prop :=
  car_finished c = false /\
  (car_edge_idx c + 1 < List.length (car_path c))%nat /\
  (forall n, In n (car_path c) -> dict_mem n nodes = true) /\
  follows_edges edges (car_path c).

(** The simulator after [Simulator.update(dt)]. *)
Definition after_update (hypot : Q -> Q -> Q) (sim : Simulator) (dt : Q) : Simulator :=
  fst (Simulator_update hypot sim dt).

(** What every state of a run satisfies: the graph is the one built from
    the map, the car ids are fresh, every car is under way, and the
    registry names lights of the map and cars that were spawned. *)
Record sim_inv (hypot : Q -> Q -> Q) (sim : Simulator) : Prop := {
  si_nodes : sim_nodes sim = fst (build_graph hypot (sim_map sim) hub_snap_dist_default);
  si_edges : sim_edges sim = snd (build_graph hypot (sim_map sim) hub_snap_dist_default);
  si_ids : ids_fresh sim;
  si_cars : forall c, In c (sim_cars sim) -> on_route (sim_nodes sim) (sim_edges sim) c;
  si_registry : forall i owner, In (i, owner) (sim_occupied sim) ->
      (i < List.length (sim_lights sim))%nat /\ (owner < sim_next_car_id sim)%Z
}.

(** *** Names of nodes *)

(** The character [c] does not occur in [s]. *)
Definition lacks (c : ascii) (s : string) : Prop := ~ In c (list_ascii_of_string s).

End Notions.

(* ================================================================== *)
(** * Part II. Properties *)
(* ================================================================== *)

(** ** Dictionaries and rational comparisons *)
Module PyFacts.
Import Py.

Section DictFacts.
Context {K V : Type} {HK : PyEq K}.

Lemma eqb_refl (k : K) : eqb k k = true.
Proof. destruct (eqb_spec k k); congruence. Qed.

Lemma eqb_neq (k k' : K) : k <> k' -> eqb k k' = false.
Proof. intros Hn. destruct (eqb_spec k k'); congruence. Qed.

Lemma dict_get_set_eq (k : K) (v : V) (d : dict K V) :
  dict_get k (dict_set k v d) = Some v.
Proof.
  induction d as [|[k' v'] r IH]; simpl.
  - now rewrite eqb_refl.
  - destruct (eqb_spec k' k) as [->|Hn]; simpl.
    + now rewrite eqb_refl.
    + now rewrite (eqb_neq _ _ Hn).
Qed.

Lemma dict_get_set_neq (k k' : K) (v : V) (d : dict K V) :
  k <> k' -> dict_get k' (dict_set k v d) = dict_get k' d.
Proof.
  intros Hn. induction d as [|[k0 v0] r IH]; simpl.
  - now rewrite (eqb_neq _ _ Hn).
  - destruct (eqb_spec k0 k) as [->|Hn0]; simpl.
    + now rewrite (eqb_neq _ _ Hn).
    + now rewrite IH.
Qed.

Lemma dict_get_set (k k' : K) (v : V) (d : dict K V) :
  dict_get k' (dict_set k v d) = if eqb k k' then Some v else dict_get k' d.
Proof.
  destruct (eqb_spec k k') as [->|Hn].
  - apply dict_get_set_eq.
  - now apply dict_get_set_neq.
Qed.

Lemma dict_mem_set (k k' : K) (v : V) (d : dict K V) :
  dict_mem k' (dict_set k v d) = eqb k k' || dict_mem k' d.
Proof.
  unfold dict_mem. rewrite dict_get_set. now destruct (eqb k k').
Qed.

Lemma dict_get_In (k : K) (v : V) (d : dict K V) :
  dict_get k d = Some v -> In (k, v) d.
Proof.
  induction d as [|[k' v'] r IH]; simpl; [discriminate|].
  destruct (eqb_spec k' k) as [->|Hn]; intros H.
  - injection H as ->. now left.
  - right. now apply IH.
Qed.

Lemma dict_keys_set (k : K) (v : V) (d : dict K V) :
  forall x, In x (dict_keys (dict_set k v d)) <-> x = k \/ In x (dict_keys d).
Proof.
  unfold dict_keys. induction d as [|[k' v'] r IH]; simpl; intros x.
  - intuition auto.
  - destruct (eqb_spec k' k) as [->|Hn]; simpl.
    + intuition auto.
    + rewrite IH. intuition auto.
Qed.

Lemma dict_mem_keys (k : K) (d : dict K V) :
  dict_mem k d = true <-> In k (dict_keys d).
Proof.
  unfold dict_mem, dict_keys. induction d as [|[k' v'] r IH]; simpl.
  - split; [discriminate|tauto].
  - destruct (eqb_spec k' k) as [->|Hn].
    + split; auto.
    + rewrite IH. split; [auto|]. intros [H|H]; [congruence|exact H].
Qed.

End DictFacts.

Lemma Qltb_lt (x y : Q) : Qltb x y = true <-> x < y.
Proof.
  unfold Qltb. rewrite negb_true_iff.
  destruct (Qle_bool y x) eqn:E.
  - apply Qle_bool_iff in E. split; [discriminate|]. intros H.
    exfalso. apply (Qlt_not_le _ _ H E).
  - split; [intros _|reflexivity]. apply Qnot_le_lt. intros H.
    apply Qle_bool_iff in H. congruence.
Qed.

Lemma Qltb_false (x y : Q) : Qltb x y = false <-> y <= x.
Proof.
  unfold Qltb. rewrite negb_false_iff. apply Qle_bool_iff.
Qed.

Lemma Qle_bool_false (x y : Q) : Qle_bool x y = false <-> y < x.
Proof.
  rewrite <- Qltb_lt. unfold Qltb. now destruct (Qle_bool x y).
Qed.

Lemma Qltb_negb_le (x y : Q) : Qltb x y = negb (Qle_bool y x).
Proof. reflexivity. Qed.

(** The remainder of [pymod]: congruent to [x] modulo [m] and, for a
    positive [m], in the interval from 0 to [m]. *)
Lemma pymod_spec (x m : Q) :
  ~ m == 0 ->
  exists r, pymod x m = Ok r /\
            (exists k : Z, r == x - m * inject_Z k) /\
            (0 < m -> 0 <= r /\ r < m).
Proof.
  intros Hm. unfold pymod.
  destruct (Qeq_bool m 0) eqn:E.
  - apply Qeq_bool_iff in E. contradiction.
  - eexists; split; [reflexivity|]. split.
    + exists (Qfloor (x / m)). reflexivity.
    + intros Hpos.
      pose proof (Qfloor_le (x / m)) as Hlo.
      pose proof (Qlt_floor (x / m)) as Hhi.
      assert (Hx : x == m * (x / m)) by (field; exact Hm).
      rewrite inject_Z_plus in Hhi. simpl inject_Z in Hhi.
      split.
      * assert (m * inject_Z (Qfloor (x / m)) <= m * (x / m)).
        { apply Qmult_le_l; assumption. }
        lra.
      * assert (m * (x / m) < m * (inject_Z (Qfloor (x / m)) + 1)).
        { apply Qmult_lt_l; assumption. }
        lra.
Qed.

End PyFacts.
(** ** Traffic lights *)
Module LightFacts.
Import Py PyFacts map_utils simulator Examples Notions.
Local Open Scope Q_scope.

(** A light whose cycle is not zero answers, with the phase of [pymod]. *)
Lemma is_green_for_phase (lt : TrafficLight) (d : Vector2) (phase : Q) :
  pymod (tl_t lt) (tl_green lt + tl_red lt) = Ok phase ->
  TrafficLight_is_green_for lt d =
  Ok (if horizontal d then Qltb phase (tl_green lt) else Qle_bool (tl_green lt) phase).
Proof.
  intros H. unfold TrafficLight_is_green_for. rewrite H. simpl.
  now destruct (horizontal d).
Qed.

(** C5.  For a light with [green + red] not zero and any elapsed time,
    the phase is the remainder of the elapsed time modulo [green + red];
    [is_green_for] answers [phase < green] for a horizontal direction and
    [phase >= green] for a vertical one, so the two answers are always
    opposite.  With green 6 and red 4: at time 3 horizontal is green and
    vertical red, at time 7 horizontal is red and vertical green. *)
Theorem is_green_for_alternates :
  (forall (lt : TrafficLight) (dh dv : Vector2),
      ~ tl_green lt + tl_red lt == 0 ->
      horizontal dh = true -> horizontal dv = false ->
      exists phase : Q,
        pymod (tl_t lt) (tl_green lt + tl_red lt) = Ok phase /\
        (exists k : Z, phase == tl_t lt - (tl_green lt + tl_red lt) * inject_Z k) /\
        (0 < tl_green lt + tl_red lt -> 0 <= phase /\ phase < tl_green lt + tl_red lt) /\
        (exists gh gv : bool,
            TrafficLight_is_green_for lt dh = Ok gh /\
            TrafficLight_is_green_for lt dv = Ok gv /\
            (gh = true <-> phase < tl_green lt) /\
            (gv = true <-> tl_green lt <= phase) /\
            gv = negb gh)) /\
  TrafficLight_is_green_for (light_6_4 3) east = Ok true /\
  TrafficLight_is_green_for (light_6_4 3) south = Ok false /\
  TrafficLight_is_green_for (light_6_4 7) east = Ok false /\
  TrafficLight_is_green_for (light_6_4 7) south = Ok true.
Proof.
  split; [|repeat split; reflexivity].
  intros lt dh dv Hc Hh Hv.
  destruct (pymod_spec (tl_t lt) _ Hc) as (phase & Hp & Hk & Hr).
  exists phase. repeat split; try assumption; try (apply Hr; assumption).
  exists (Qltb phase (tl_green lt)), (Qle_bool (tl_green lt) phase).
  rewrite (is_green_for_phase lt dh _ Hp), (is_green_for_phase lt dv _ Hp), Hh, Hv.
  repeat split; try (apply Qltb_lt); try (apply Qle_bool_iff).
  unfold Qltb. now rewrite negb_involutive.
Qed.

(** The alternation at the light with green 6 and red 4, at time 3. *)
Lemma is_green_for_alternates_witness :
  exists phase : Q,
    pymod 3 10 = Ok phase /\ 0 <= phase /\ phase < 10 /\
    TrafficLight_is_green_for (light_6_4 3) east = Ok true /\
    TrafficLight_is_green_for (light_6_4 3) south = Ok false.
Proof.
  destruct (proj1 is_green_for_alternates (light_6_4 3) east south)
    as (phase & Hp & _ & Hr & _); [simpl; lra | reflexivity | reflexivity |].
  exists phase. split; [exact Hp|].
  split; [apply Hr; simpl; lra|].
  split; [apply Hr; simpl; lra|].
  split; reflexivity.
Defined.

Lemma TrafficLight_init_raises (l : light_entry) :
  l_x l = None \/ l_y l = None -> TrafficLight_init l = Raise KeyError.
Proof.
  unfold TrafficLight_init. intros [H|H]; rewrite H; simpl; [reflexivity|].
  now destruct (l_x l).
Qed.

Lemma TrafficLight_init_defaults (l : light_entry) :
  l_x l <> None -> l_y l <> None ->
  exists lt, TrafficLight_init l = Ok lt /\ loaded_as l lt.
Proof.
  unfold TrafficLight_init, loaded_as. intros Hx Hy.
  destruct (l_x l) as [x|]; [|congruence].
  destruct (l_y l) as [y|]; [|congruence].
  simpl. eexists; split; [reflexivity|]. simpl. repeat split.
Qed.

Lemma make_lights_raises (ls : list light_entry) :
  (exists l, In l ls /\ (l_x l = None \/ l_y l = None)) ->
  make_lights ls = Raise KeyError.
Proof.
  induction ls as [|l0 ls IH]; intros (l & Hin & Hl); simpl in *; [contradiction|].
  destruct (TrafficLight_init l0) as [lt| |] eqn:E.
  - simpl. destruct Hin as [->|Hin].
    + rewrite (TrafficLight_init_raises _ Hl) in E. discriminate.
    + rewrite IH; [reflexivity|]. now exists l.
  - simpl. unfold TrafficLight_init in E.
    destruct (l_x l0); simpl in E; [|congruence].
    destruct (l_y l0); simpl in E; congruence.
  - unfold TrafficLight_init in E.
    destruct (l_x l0); simpl in E; [|congruence].
    destruct (l_y l0); simpl in E; congruence.
Qed.

Lemma make_lights_defaults (ls : list light_entry) :
  (forall l, In l ls -> l_x l <> None /\ l_y l <> None) ->
  exists lts, make_lights ls = Ok lts /\ Forall2 loaded_as ls lts.
Proof.
  induction ls as [|l0 ls IH]; intros H; simpl.
  - exists []. split; [reflexivity|constructor].
  - destruct (TrafficLight_init_defaults l0) as (lt & E & Hlt);
      try (apply (H l0); now left).
    destruct IH as (lts & E' & Hlts); [intros l Hl; apply H; now right|].
    exists (lt :: lts). rewrite E, E'. split; [reflexivity|now constructor].
Qed.

(** *** Reading the document *)

Lemma field_raises {A : Type} (o : option A) (e : exn) :
  field o = Raise e -> e = KeyError.
Proof. destruct o; cbn; congruence. Qed.

Lemma read_road_spec (r : road_entry) :
  match read_road r with
  | Ok rd => road_read_as r rd
  | Raise e => e = KeyError /\ road_incomplete r
  | Diverge => False
  end.
Proof.
  unfold read_road, road_read_as, road_incomplete, field.
  destruct (re_id r), (re_x r), (re_y r), (re_w r), (re_h r); cbn; tauto.
Qed.

Lemma read_hub_spec (h : hub_entry) :
  match read_hub h with
  | Ok hb => hub_read_as h hb
  | Raise e => e = KeyError /\ hub_incomplete h
  | Diverge => False
  end.
Proof.
  unfold read_hub, hub_read_as, hub_incomplete, field.
  destruct (he_id h), (he_x h), (he_y h); cbn; tauto.
Qed.

(** Reading a list of entries: every entry read, or [KeyError] at an
    incomplete one. *)
Lemma read_all_spec {A B : Type} (read : A -> outcome B) (read_as : A -> B -> Prop)
  (incomplete : A -> Prop) :
  (forall a, match read a with
             | Ok b => read_as a b /\ ~ incomplete a
             | Raise e => e = KeyError /\ incomplete a
             | Diverge => False
             end) ->
  forall l,
    match read_all read l with
    | Ok bs => Forall2 read_as l bs /\ forall a, In a l -> ~ incomplete a
    | Raise e => e = KeyError /\ exists a, In a l /\ incomplete a
    | Diverge => False
    end.
Proof.
  intros Hread. induction l as [|a l IH]; cbn [read_all].
  - split; [constructor|intros a []].
  - specialize (Hread a). destruct (read a) as [b|e|]; cbn [bind].
    + destruct (read_all read l) as [bs|e|]; cbn [bind].
      * destruct Hread as [Hb Hc]. destruct IH as [IH1 IH2].
        split; [now constructor|]. intros x [<-|Hx]; auto.
      * destruct IH as [-> (x & Hx & Hi)]. split; [reflexivity|].
        exists x. split; [now right|exact Hi].
      * exact IH.
    + destruct Hread as [-> Hi]. split; [reflexivity|]. exists a. split; [now left|exact Hi].
    + exact Hread.
Qed.

Lemma read_roads_spec (l : list road_entry) :
  match read_all read_road l with
  | Ok rs => Forall2 road_read_as l rs /\ forall r, In r l -> ~ road_incomplete r
  | Raise e => e = KeyError /\ exists r, In r l /\ road_incomplete r
  | Diverge => False
  end.
Proof.
  apply read_all_spec. intros r. pose proof (read_road_spec r) as H.
  destruct (read_road r) as [rd|e|]; [|exact H..]. split; [exact H|].
  destruct H as (H1 & H2 & H3 & H4 & H5 & _). unfold road_incomplete.
  intros [E|[E|[E|[E|E]]]]; congruence.
Qed.

Lemma read_hubs_spec (l : list hub_entry) :
  match read_all read_hub l with
  | Ok hs => Forall2 hub_read_as l hs /\ forall h, In h l -> ~ hub_incomplete h
  | Raise e => e = KeyError /\ exists h, In h l /\ hub_incomplete h
  | Diverge => False
  end.
Proof.
  apply read_all_spec. intros h. pose proof (read_hub_spec h) as H.
  destruct (read_hub h) as [hb|e|]; [|exact H..]. split; [exact H|].
  destruct H as (H1 & H2 & H3 & _). unfold hub_incomplete.
  intros [E|[E|E]]; congruence.
Qed.

(** [build_graph] reads the document, or raises [KeyError] at a road or
    hub that lacks a field. *)
Lemma read_document_spec (doc : document) :
  match read_document doc with
  | Ok md =>
      Forall2 road_read_as (get_list (doc_roads doc)) (get_list (md_roads md)) /\
      Forall2 hub_read_as (get_list (doc_hubs doc)) (get_list (md_hubs md)) /\
      md_lights md = doc_lights doc /\ md_symbols md = doc_symbols doc /\
      (forall r, In r (get_list (doc_roads doc)) -> ~ road_incomplete r) /\
      (forall h, In h (get_list (doc_hubs doc)) -> ~ hub_incomplete h)
  | Raise e =>
      e = KeyError /\
      ((exists r, In r (get_list (doc_roads doc)) /\ road_incomplete r) \/
       (exists h, In h (get_list (doc_hubs doc)) /\ hub_incomplete h))
  | Diverge => False
  end.
Proof.
  unfold read_document.
  assert (Hr : match (match doc_roads doc with
                      | Some l => rs <- read_all read_road l ;; Ok (Some rs)
                      | None => Ok None
                      end) with
               | Ok rs => Forall2 road_read_as (get_list (doc_roads doc)) (get_list rs) /\
                          forall r, In r (get_list (doc_roads doc)) -> ~ road_incomplete r
               | Raise e => e = KeyError /\
                            exists r, In r (get_list (doc_roads doc)) /\ road_incomplete r
               | Diverge => False
               end).
  { destruct (doc_roads doc) as [l|]; cbn [get_list].
    - pose proof (read_roads_spec l) as H. destruct (read_all read_road l); exact H.
    - cbn. split; [constructor|intros r []]. }
  assert (Hh : match (match doc_hubs doc with
                      | Some l => hs <- read_all read_hub l ;; Ok (Some hs)
                      | None => Ok None
                      end) with
               | Ok hs => Forall2 hub_read_as (get_list (doc_hubs doc)) (get_list hs) /\
                          forall h, In h (get_list (doc_hubs doc)) -> ~ hub_incomplete h
               | Raise e => e = KeyError /\
                            exists h, In h (get_list (doc_hubs doc)) /\ hub_incomplete h
               | Diverge => False
               end).
  { destruct (doc_hubs doc) as [l|]; cbn [get_list].
    - pose proof (read_hubs_spec l) as H. destruct (read_all read_hub l); exact H.
    - cbn. split; [constructor|intros h []]. }
  destruct (match doc_roads doc with Some l => _ | None => _ end) as [rs|e|]; cbn [bind];
    [|destruct Hr as [-> Hr]; split; [reflexivity|now left]|exact Hr].
  destruct (match doc_hubs doc with Some l => _ | None => _ end) as [hs|e|]; cbn [bind];
    [|destruct Hh as [-> Hh]; split; [reflexivity|now right]|exact Hh].
  cbn. tauto.
Qed.

(** C3, as the code has it.  Loading a document fails with [KeyError],
    and yields no simulator, when a road lacks [id], [x], [y], [w] or
    [h], a hub lacks [id], [x] or [y], or a light lacks [x] or [y].  In
    every other case the load succeeds: the roads and hubs are read as
    they are, a light entry lacking [green], [red] or [offset] is loaded
    with 6, 6 and 0 in their place, and the symbol entries are taken as
    they are, whatever fields they lack. *)
Theorem load_missing_required_fields (hypot : Q -> Q -> Q) (doc : document) :
  ((exists r, In r (get_list (doc_roads doc)) /\ road_incomplete r) \/
   (exists h, In h (get_list (doc_hubs doc)) /\ hub_incomplete h) \/
   (exists l, In l (get_list (doc_lights doc)) /\ light_incomplete l) ->
   Simulator_init hypot doc = Raise KeyError) /\
  ((forall r, In r (get_list (doc_roads doc)) -> ~ road_incomplete r) ->
   (forall h, In h (get_list (doc_hubs doc)) -> ~ hub_incomplete h) ->
   (forall l, In l (get_list (doc_lights doc)) -> ~ light_incomplete l) ->
   exists sim,
     Simulator_init hypot doc = Ok sim /\
     Forall2 road_read_as (get_list (doc_roads doc)) (get_list (md_roads (sim_map sim))) /\
     Forall2 hub_read_as (get_list (doc_hubs doc)) (get_list (md_hubs (sim_map sim))) /\
     Forall2 loaded_as (get_list (doc_lights doc)) (sim_lights sim) /\
     sim_symbols sim = get_list (doc_symbols doc) /\
     sim_cars sim = [] /\ sim_occupied sim = []).
Proof.
  unfold Simulator_init, load_map_data.
  pose proof (read_document_spec doc) as Hd.
  destruct (read_document doc) as [md|e|]; cbn [bind]; [|destruct Hd as [-> Hd]|destruct Hd].
  - destruct Hd as (Hroads & Hhubs & El & Es & Hcr & Hch).
    destruct (build_graph hypot md hub_snap_dist_default) as [nodes edges].
    rewrite El, Es. split.
    + intros [(r & Hr & Hi)|[(h & Hh & Hi)|Hl]].
      * destruct (Hcr r Hr Hi).
      * destruct (Hch h Hh Hi).
      * now rewrite (make_lights_raises _ Hl).
    + intros _ _ Hl.
      destruct (make_lights_defaults (get_list (doc_lights doc))) as (lts & E & Hlts).
      * intros l Hin. specialize (Hl l Hin). unfold light_incomplete in Hl.
        split; intros E; apply Hl; [now left|now right].
      * rewrite E. cbn [bind]. eexists. split; [reflexivity|]. cbn.
        split; [exact Hroads|]. split; [exact Hhubs|]. split; [exact Hlts|]. auto.
  - split; [reflexivity|].
    intros Hr Hh _. exfalso.
    destruct Hd as [(r & Hin & Hi)|(h & Hin & Hi)]; [exact (Hr r Hin Hi)|exact (Hh h Hin Hi)].
Qed.

(** The load of the document with a light that has no [green] and a
    symbol that has no [x] succeeds, and keeps the symbol. *)
Lemma load_missing_required_fields_witness :
  exists sim,
    Simulator_init hypot6 sparse_document = Ok sim /\
    Forall2 road_read_as [] (get_list (md_roads (sim_map sim))) /\
    Forall2 hub_read_as [] (get_list (md_hubs (sim_map sim))) /\
    Forall2 loaded_as [light_without_green] (sim_lights sim) /\
    sim_symbols sim = [symbol_without_x] /\
    sim_cars sim = [] /\ sim_occupied sim = [].
Proof.
  apply (proj2 (load_missing_required_fields hypot6 sparse_document)).
  - intros r [].
  - intros h [].
  - intros l [<-|[]]. unfold light_incomplete. cbn. intuition discriminate.
Defined.

(** C3 as stated fails: the light entry has no [green] (and no [offset]),
    yet the load succeeds and the light gets green 6 and offset 0. *)
Lemma load_substitutes_defaults :
  l_green light_without_green = None /\
  Simulator_init hypot6 (document_of one_light_map) =
  Ok {| sim_map := one_light_map; sim_nodes := []; sim_edges := [];
        sim_lights := [{| tl_x := 100; tl_y := 200; tl_green := 6; tl_red := 4;
                          tl_offset := 0; tl_t := 0 |}];
        sim_symbols := []; sim_cars := []; sim_next_car_id := 1;
        sim_occupied := [] |}.
Proof. split; reflexivity. Qed.

(** A road without [w] fails the load. *)
Lemma load_road_without_w_raises :
  Simulator_init hypot6 road_without_w = Raise KeyError.
Proof. reflexivity. Qed.

End LightFacts.

(** ** The heap operations of [heapq] *)
Module HeapFacts.
Import Py PyFacts map_utils Notions.
Local Open Scope Q_scope.

Lemma parent_spec (i : nat) :
  (0 < i)%nat -> i = (2 * parent i + 1)%nat \/ i = (2 * parent i + 2)%nat.
Proof.
  intros H. unfold parent.
  pose proof (Nat.div_mod_eq (i - 1) 2).
  pose proof (Nat.mod_upper_bound (i - 1) 2). lia.
Qed.

Lemma parent_unique (i p : nat) :
  i = (2 * p + 1)%nat \/ i = (2 * p + 2)%nat -> parent i = p.
Proof.
  intros H. assert (Hi : (0 < i)%nat) by lia.
  destruct (parent_spec i Hi); lia.
Qed.

Lemma length_list_set {A} (l : list A) (i : nat) (x : A) :
  List.length (list_set l i x) = List.length l.
Proof.
  revert i. induction l as [|a l IH]; intros [|i]; simpl; auto.
Qed.

Lemma nth_list_set_eq {A} (l : list A) (i : nat) (x d : A) :
  (i < List.length l)%nat -> nth i (list_set l i x) d = x.
Proof.
  revert i. induction l as [|a l IH]; intros [|i]; simpl; intros H; try lia; auto.
  apply IH. lia.
Qed.

Lemma nth_list_set_neq {A} (l : list A) (i j : nat) (x d : A) :
  i <> j -> nth j (list_set l i x) d = nth j l d.
Proof.
  revert i j. induction l as [|a l IH]; intros [|i] [|j]; simpl; intros H; try lia; auto.
Qed.

Lemma list_item_nth (l : list entry) (i : nat) :
  (i < List.length l)%nat -> list_item l i = Ok (nth i l dflt).
Proof.
  intros H. unfold list_item. now rewrite (nth_error_nth' l dflt H).
Qed.

Lemma In_nth_iff (l : list entry) (y : entry) :
  In y l <-> exists i, (i < List.length l)%nat /\ nth i l dflt = y.
Proof.
  split.
  - intros H. destruct (In_nth l y dflt H) as (i & Hi & E). now exists i.
  - intros (i & Hi & <-). now apply nth_In.
Qed.

(** Moving the hole from [i] to [j]: the items are the same. *)
Lemma hole_swap (l : list entry) (i j : nat) (x y : entry) :
  (i < List.length l)%nat -> (j < List.length l)%nat -> i <> j ->
  In y (list_set (list_set l i (nth j l dflt)) j x) <-> In y (list_set l i x).
Proof.
  intros Hi Hj Hn. rewrite !In_nth_iff, !length_list_set.
  split; intros (k & Hk & E).
  - destruct (Nat.eq_dec k j) as [->|Hkj].
    + rewrite nth_list_set_eq in E by now rewrite length_list_set.
      exists i. split; [exact Hi|]. now rewrite nth_list_set_eq.
    + rewrite nth_list_set_neq in E by auto.
      destruct (Nat.eq_dec k i) as [->|Hki].
      * rewrite nth_list_set_eq in E by auto.
        exists j. split; [exact Hj|]. now rewrite nth_list_set_neq.
      * rewrite nth_list_set_neq in E by auto.
        exists k. split; [exact Hk|]. now rewrite nth_list_set_neq.
  - destruct (Nat.eq_dec k i) as [->|Hki].
    + rewrite nth_list_set_eq in E by auto.
      exists j. split; [exact Hj|].
      now rewrite nth_list_set_eq by now rewrite length_list_set.
    + rewrite nth_list_set_neq in E by auto.
      destruct (Nat.eq_dec k j) as [->|Hkj].
      * exists i. split; [exact Hi|].
        rewrite nth_list_set_neq by auto. now rewrite nth_list_set_eq.
      * exists k. split; [exact Hk|]. now rewrite !nth_list_set_neq by auto.
Qed.

Lemma entry_lt_cost (a b : entry) (lt : bool) :
  entry_lt a b = Ok lt ->
  if lt then e_cost a <= e_cost b else e_cost b <= e_cost a.
Proof.
  unfold entry_lt. destruct (Qeq_bool (e_cost a) (e_cost b)) eqn:E; simpl.
  - apply Qeq_bool_iff in E. intros _. destruct lt; rewrite E; apply Qle_refl.
  - intros H. injection H as <-.
    destruct (Qltb (e_cost a) (e_cost b)) eqn:L.
    + apply Qltb_lt in L. now apply Qlt_le_weak.
    + now apply Qltb_false in L.
Qed.

Lemma node_lt_raises (a b : node_id) : 
  match node_lt a b with Ok _ => True | Raise e => e = TypeError | Diverge => False end.
Proof. destruct a, b; simpl; auto. Qed.

Lemma path_lt_raises (p q : list node_id) : 
  match path_lt p q with Ok _ => True | Raise e => e = TypeError | Diverge => False end.
Proof.
  revert q. induction p as [|a p IH]; intros [|b q]; simpl; auto.
  destruct (node_eqb a b); [apply IH|apply node_lt_raises].
Qed.

Lemma entry_lt_raises (a b : entry) :
  match entry_lt a b with Ok _ => True | Raise e => e = TypeError | Diverge => False end.
Proof.
  unfold entry_lt. destruct (negb _); simpl; auto.
  destruct (negb _); [apply node_lt_raises|apply path_lt_raises].
Qed.


Lemma ok_or_type_bind {A B : Type} (m : outcome A) (f : A -> outcome B)
  (P : A -> Prop) (R : B -> Prop) :
  ok_or_type m P -> (forall a, P a -> ok_or_type (f a) R) ->
  ok_or_type (bind m f) R.
Proof. destruct m; simpl; auto. Qed.

Lemma siftdown_loop_eq (fuel : nat) (h : list entry) (x : entry) (pos : nat) :
  _siftdown_loop (S fuel) h x 0 pos =
  if (0 <? pos)%nat then
    parent <- list_item h (parent pos) ;;
    lt <- entry_lt x parent ;;
    if lt then _siftdown_loop fuel (list_set h pos parent) x 0 (Notions.parent pos)
    else Ok (list_set h pos x)
  else Ok (list_set h pos x).
Proof. reflexivity. Qed.

Lemma cst_set_eq (h : list entry) (i : nat) (x : entry) :
  (i < List.length h)%nat -> cst (list_set h i x) i = e_cost x.
Proof. intros H. unfold cst. now rewrite nth_list_set_eq. Qed.

Lemma cst_set_neq (h : list entry) (i j : nat) (x : entry) :
  i <> j -> cst (list_set h i x) j = cst h j.
Proof. intros H. unfold cst. now rewrite nth_list_set_neq. Qed.

(** Closing the hole at [pos] with [x] when [x] is not below the parent. *)
Lemma hole_close (h : list entry) (pos : nat) (x : entry) :
  (pos < List.length h)%nat ->
  hole_inv h pos x ->
  ((0 < pos)%nat -> cst h (parent pos) <= e_cost x) ->
  heap_inv (list_set h pos x).
Proof.
  intros Hpos [[Ha Hc] Hb] Hp i Hi. rewrite length_list_set in Hi.
  pose proof (parent_spec i ltac:(lia)) as Hpi.
  destruct (Nat.eq_dec i pos) as [->|Hne].
  - rewrite cst_set_eq by assumption. rewrite cst_set_neq by lia. apply Hp. lia.
  - rewrite (cst_set_neq h pos i) by auto.
    destruct (Nat.eq_dec (parent i) pos) as [E|Hne'].
    + rewrite E, cst_set_eq by assumption. now apply Hb.
    + rewrite cst_set_neq by auto. now apply Ha.
Qed.

(** Moving the hole from [pos] up to its parent, when [x] is below it. *)
Lemma hole_up (h : list entry) (pos : nat) (x : entry) :
  (0 < pos < List.length h)%nat ->
  hole_inv h pos x ->
  e_cost x <= cst h (parent pos) ->
  hole_inv (list_set h pos (nth (parent pos) h dflt)) (parent pos) x.
Proof.
  intros Hpos [[Ha Hc] Hb] Hx.
  pose proof (parent_spec pos ltac:(lia)) as Hpp.
  assert (Hset : forall j, j <> pos ->
            cst (list_set h pos (nth (parent pos) h dflt)) j = cst h j).
  { intros j Hj. apply cst_set_neq. auto. }
  assert (Hat : cst (list_set h pos (nth (parent pos) h dflt)) pos = cst h (parent pos)).
  { rewrite cst_set_eq by lia. reflexivity. }
  repeat split; rewrite ?length_list_set.
  - intros i Hi Hne Hne'.
    pose proof (parent_spec i ltac:(lia)) as Hpi.
    assert (i <> pos) by (intros ->; auto).
    rewrite (Hset i) by auto.
    destruct (Nat.eq_dec (parent i) pos) as [E|Hn].
    + rewrite E, Hat. apply Hc; auto; lia.
    + rewrite Hset by auto. apply Ha; auto.
  - intros k Hk E Hp0.
    pose proof (parent_spec k ltac:(lia)) as Hpk.
    pose proof (parent_spec (parent pos) ltac:(lia)) as Hppp.
    rewrite (Hset (parent (parent pos))) by lia.
    assert (Hgp : cst h (parent (parent pos)) <= cst h (parent pos)).
    { apply Ha; lia. }
    destruct (Nat.eq_dec k pos) as [->|Hn].
    + now rewrite Hat.
    + rewrite Hset by auto. apply Qle_trans with (1 := Hgp).
      rewrite <- E. apply Ha; auto; lia.
  - intros k Hk E.
    pose proof (parent_spec k ltac:(lia)) as Hpk.
    destruct (Nat.eq_dec k pos) as [->|Hn].
    + now rewrite Hat.
    + rewrite Hset by auto. apply Qle_trans with (1 := Hx).
      rewrite <- E. apply Ha; auto; lia.
Qed.

Lemma siftdown_loop_spec (fuel : nat) :
  forall (h : list entry) (x : entry) (pos : nat),
    (pos <= fuel)%nat -> (pos < List.length h)%nat ->
    ok_or_type (_siftdown_loop fuel h x 0 pos)
      (fun h' => List.length h' = List.length h /\
                 (forall y, In y h' <-> In y (list_set h pos x)) /\
                 (hole_inv h pos x -> heap_inv h')).
Proof.
  induction fuel as [|fuel IH]; intros h x pos Hf Hpos.
  - assert (pos = 0%nat) as -> by lia. simpl.
    split; [apply length_list_set|]. split; [tauto|].
    intros Hh. apply hole_close; auto. lia.
  - rewrite siftdown_loop_eq. destruct (Nat.ltb_spec 0 pos) as [Hp|Hp].
    + pose proof (parent_spec pos Hp) as Hpp.
      rewrite list_item_nth by lia. simpl.
      pose proof (entry_lt_raises x (nth (parent pos) h dflt)) as Hr.
      pose proof (entry_lt_cost x (nth (parent pos) h dflt)) as Hc.
      destruct (entry_lt x (nth (parent pos) h dflt)) as [lt| |]; simpl; auto.
      specialize (Hc lt eq_refl). destruct lt.
      * specialize (IH (list_set h pos (nth (parent pos) h dflt)) x (parent pos)).
        rewrite length_list_set in IH.
        specialize (IH ltac:(lia) ltac:(lia)).
        destruct (_siftdown_loop fuel _ x 0 (parent pos)); simpl in *; auto.
        destruct IH as (Hl & Hin & Hinv).
        split; [exact Hl|]. split.
        -- intros y. rewrite Hin. apply hole_swap; lia.
        -- intros Hh. apply Hinv. apply hole_up; auto.
      * split; [apply length_list_set|]. split; [tauto|].
        intros Hh. apply hole_close; auto.
    + assert (pos = 0%nat) as -> by lia. simpl.
      split; [apply length_list_set|]. split; [tauto|].
      intros Hh. apply hole_close; auto. lia.
Qed.


Lemma list_set_same {A : Type} (l : list A) (i : nat) (d : A) :
  list_set l i (nth i l d) = l.
Proof.
  revert i. induction l as [|a l IH]; intros [|i]; simpl; auto.
  now rewrite IH.
Qed.

Lemma list_set_twice {A : Type} (l : list A) (i : nat) (x y : A) :
  list_set (list_set l i x) i y = list_set l i y.
Proof.
  revert i. induction l as [|a l IH]; intros [|i]; simpl; auto.
  now rewrite IH.
Qed.

Lemma cst_app (h : list entry) (x : entry) (i : nat) :
  (i < List.length h)%nat -> cst (h ++ [x]) i = cst h i.
Proof. intros H. unfold cst. now rewrite app_nth1. Qed.

Lemma heap_inv_prefix (h : list entry) (x : entry) :
  heap_inv (h ++ [x]) -> heap_inv h.
Proof.
  intros H i Hi. pose proof (parent_spec i ltac:(lia)).
  rewrite <- (cst_app h x i), <- (cst_app h x (parent i)) by lia.
  apply H. rewrite length_app. simpl. lia.
Qed.

Lemma heappush_spec (h : list entry) (item : entry) :
  ok_or_type (heappush h item)
    (fun h' => List.length h' = S (List.length h) /\
               (forall y, In y h' <-> y = item \/ In y h) /\
               (heap_inv h -> heap_inv h')).
Proof.
  unfold heappush, _siftdown.
  assert (Hlen : List.length (h ++ [item]) = S (List.length h)).
  { rewrite length_app. simpl. lia. }
  rewrite Hlen. replace (S (List.length h) - 1)%nat with (List.length h) by lia.
  assert (Hnth : nth (List.length h) (h ++ [item]) dflt = item).
  { rewrite app_nth2 by lia. now rewrite Nat.sub_diag. }
  rewrite list_item_nth by lia. rewrite Hnth. simpl.
  pose proof (siftdown_loop_spec (List.length h) (h ++ [item]) item (List.length h)
                ltac:(lia) ltac:(lia)) as H.
  destruct (_siftdown_loop _ _ _ _ _); simpl in *; auto.
  destruct H as (Hl & Hin & Hinv).
  split; [lia|]. split.
  - intros y. rewrite Hin.
    pose proof (list_set_same (h ++ [item]) (List.length h) dflt) as E.
    rewrite Hnth in E. rewrite E, in_app_iff. simpl.
    intuition congruence.
  - intros Hh. apply Hinv. repeat split; rewrite ?Hlen.
    + intros i Hi Hne _. pose proof (parent_spec i ltac:(lia)).
      rewrite !cst_app by lia. apply Hh. lia.
    + intros k Hk E _. pose proof (parent_spec k ltac:(lia)). lia.
    + intros k Hk E. pose proof (parent_spec k ltac:(lia)). lia.
Qed.

Lemma siftup_loop_eq (fuel : nat) (h : list entry) (endpos pos : nat) :
  _siftup_loop (S fuel) h endpos pos =
  if (2 * pos + 1 <? endpos)%nat then
    c <- (if (2 * pos + 1 + 1 <? endpos)%nat then
            l <- list_item h (2 * pos + 1) ;;
            r <- list_item h (2 * pos + 1 + 1) ;;
            lt <- entry_lt l r ;;
            Ok (if negb lt then (2 * pos + 1 + 1)%nat else (2 * pos + 1)%nat)
          else Ok (2 * pos + 1)%nat) ;;
    child <- list_item h c ;;
    _siftup_loop fuel (list_set h pos child) endpos c
  else Ok (h, pos).
Proof. reflexivity. Qed.

(** Moving the hole from [pos] down to its child [c], the smaller one. *)
Lemma hole_down (h : list entry) (pos c : nat) :
  (c < List.length h)%nat ->
  (c = 2 * pos + 1 \/ c = 2 * pos + 2)%nat ->
  (forall s, (s < List.length h)%nat -> (s = 2 * pos + 1 \/ s = 2 * pos + 2)%nat ->
             cst h c <= cst h s) ->
  up_inv h pos ->
  up_inv (list_set h pos (nth c h dflt)) c.
Proof.
  intros Hc Hcp Hmin [Ha Hcc].
  assert (Hset : forall j, j <> pos -> cst (list_set h pos (nth c h dflt)) j = cst h j).
  { intros j Hj. apply cst_set_neq. auto. }
  assert (Hat : cst (list_set h pos (nth c h dflt)) pos = cst h c).
  { rewrite cst_set_eq by lia. reflexivity. }
  split; rewrite ?length_list_set.
  - intros i Hi Hne Hne'.
    pose proof (parent_spec i ltac:(lia)) as Hpi.
    destruct (Nat.eq_dec i pos) as [->|Hip].
    + rewrite Hat, Hset by lia. apply Hcc; try lia. apply parent_unique. lia.
    + rewrite (Hset i) by auto.
      destruct (Nat.eq_dec (parent i) pos) as [E|Hn].
      * rewrite E, Hat. apply Hmin; lia.
      * rewrite Hset by auto. apply Ha; auto.
  - intros k Hk E _.
    pose proof (parent_spec k ltac:(lia)) as Hpk.
    rewrite (parent_unique c pos) by lia.
    rewrite Hat, Hset by lia. rewrite <- E. apply Ha; lia.
Qed.

Lemma siftup_loop_spec (fuel : nat) :
  forall (h : list entry) (pos : nat),
    (List.length h <= fuel + pos)%nat -> (pos < List.length h)%nat ->
    ok_or_type (_siftup_loop fuel h (List.length h) pos)
      (fun r => List.length (fst r) = List.length h /\
                (snd r < List.length h)%nat /\
                (List.length h <= 2 * snd r + 1)%nat /\
                (forall x y, In y (list_set (fst r) (snd r) x) <-> In y (list_set h pos x)) /\
                (up_inv h pos -> up_inv (fst r) (snd r))).
Proof.
  induction fuel as [|fuel IH]; intros h pos Hf Hpos.
  - lia.
  - rewrite siftup_loop_eq. destruct (Nat.ltb_spec (2 * pos + 1) (List.length h)) as [Hl|Hl].
    + assert (Hstep : forall c,
                 (c < List.length h)%nat ->
                 (c = 2 * pos + 1 \/ c = 2 * pos + 2)%nat ->
                 (forall s, (s < List.length h)%nat ->
                            (s = 2 * pos + 1 \/ s = 2 * pos + 2)%nat ->
                            cst h c <= cst h s) ->
                 ok_or_type
                   (child <- list_item h c ;;
                    _siftup_loop fuel (list_set h pos child) (List.length h) c)
                   (fun r => List.length (fst r) = List.length h /\
                             (snd r < List.length h)%nat /\
                             (List.length h <= 2 * snd r + 1)%nat /\
                             (forall x y, In y (list_set (fst r) (snd r) x) <->
                                          In y (list_set h pos x)) /\
                             (up_inv h pos -> up_inv (fst r) (snd r)))).
      { intros c Hc Hcp Hmin. rewrite list_item_nth by lia. cbn [bind].
        specialize (IH (list_set h pos (nth c h dflt)) c).
        rewrite length_list_set in IH. specialize (IH ltac:(lia) ltac:(lia)).
        destruct (_siftup_loop fuel _ _ c) as [[h' pos']| |];
          cbn [ok_or_type fst snd] in *; auto.
        destruct IH as (H1 & H2 & H3 & H4 & H5).
        split; [exact H1|]. split; [exact H2|]. split; [exact H3|]. split.
        - intros x y. rewrite H4. apply hole_swap; lia.
        - intros Hu. apply H5. apply hole_down; auto. }
      destruct (Nat.ltb_spec (2 * pos + 1 + 1) (List.length h)) as [Hr|Hr].
      * rewrite !list_item_nth by lia. cbn [bind].
        pose proof (entry_lt_raises (nth (2 * pos + 1) h dflt) (nth (2 * pos + 1 + 1) h dflt)) as Hraise.
        pose proof (entry_lt_cost (nth (2 * pos + 1) h dflt) (nth (2 * pos + 1 + 1) h dflt)) as Hcost.
        destruct (entry_lt _ _) as [lt| |]; cbn [ok_or_type bind] in *; auto.
        specialize (Hcost lt eq_refl). destruct lt; cbn [bind negb].
        -- apply Hstep; try lia. intros s Hs [->| ->]; [apply Qle_refl|].
           replace (2 * pos + 2)%nat with (2 * pos + 1 + 1)%nat by lia. exact Hcost.
        -- apply Hstep; try lia. intros s Hs [->| ->]; [exact Hcost|].
           replace (2 * pos + 2)%nat with (2 * pos + 1 + 1)%nat by lia. apply Qle_refl.
      * cbn [bind]. apply Hstep; try lia. intros s Hs [->| ->]; [apply Qle_refl|lia].
    + cbn [ok_or_type fst snd].
      split; [reflexivity|]. split; [exact Hpos|]. split; [lia|].
      split; [intros x y; reflexivity|auto].
Qed.

Lemma root_min (h : list entry) :
  heap_inv h -> forall i, (i < List.length h)%nat -> cst h 0 <= cst h i.
Proof.
  intros Hh i. induction i as [i IH] using lt_wf_ind. intros Hi.
  destruct (Nat.eq_dec i 0) as [->|Hn]; [apply Qle_refl|].
  pose proof (parent_spec i ltac:(lia)) as Hp.
  apply Qle_trans with (cst h (parent i)).
  - apply IH; lia.
  - apply Hh. lia.
Qed.


Lemma siftup_spec (h0 : list entry) :
  (0 < List.length h0)%nat ->
  ok_or_type (_siftup h0 0)
    (fun h' => List.length h' = List.length h0 /\
               (forall y, In y h' <-> In y h0) /\
               (up_inv h0 0 -> heap_inv h')).
Proof.
  intros Hlen. unfold _siftup. rewrite list_item_nth by lia. cbn [bind].
  pose proof (siftup_loop_spec (List.length h0) h0 0 ltac:(lia) Hlen) as Hup.
  destruct (_siftup_loop _ h0 _ 0) as [[h1 p1]| |]; cbn [ok_or_type fst snd bind] in *; auto.
  destruct Hup as (H1 & H2 & H3 & H4 & H5).
  unfold _siftdown.
  rewrite list_item_nth by (rewrite length_list_set; lia).
  rewrite nth_list_set_eq by lia. cbn [bind].
  pose proof (siftdown_loop_spec p1 (list_set h1 p1 (nth 0 h0 dflt)) (nth 0 h0 dflt) p1
                ltac:(lia) ltac:(rewrite length_list_set; lia)) as Hdown.
  destruct (_siftdown_loop _ _ _ _ _); cbn [ok_or_type] in *; auto.
  rewrite length_list_set in Hdown. destruct Hdown as (G1 & G2 & G3).
  split; [lia|]. split.
  - intros y. rewrite G2, list_set_twice, H4, list_set_same. reflexivity.
  - intros Hu. apply G3. destruct (H5 Hu) as [Ha Hc].
    split; [split|]; rewrite ?length_list_set.
    + intros i Hi Hne Hne'. rewrite !cst_set_neq by auto. apply Ha; auto; lia.
    + intros k Hk E _. pose proof (parent_spec k ltac:(lia)). lia.
    + intros k Hk E. pose proof (parent_spec k ltac:(lia)). lia.
Qed.

Lemma heappop_spec (h : list entry) :
  h <> [] ->
  ok_or_type (heappop h)
    (fun r => List.length h = S (List.length (snd r)) /\
              (forall y, In y h <-> y = fst r \/ In y (snd r)) /\
              (heap_inv h ->
               heap_inv (snd r) /\ forall y, In y h -> e_cost (fst r) <= e_cost y)).
Proof.
  intros Hne. unfold heappop.
  destruct (rev h) as [|lastelt rest_rev] eqn:E.
  { apply (f_equal (@rev entry)) in E. rewrite rev_involutive in E. contradiction. }
  assert (Hh : h = rev rest_rev ++ [lastelt]).
  { rewrite <- (rev_involutive h), E. reflexivity. }
  destruct (rev rest_rev) as [|ret tl] eqn:E'.
  - cbn [ok_or_type fst snd]. subst h. cbn [app List.length In].
    split; [reflexivity|]. split; [intuition congruence|].
    intros _. split; [intros i Hi; simpl in Hi; lia|].
    intros y [<-|[]]. apply Qle_refl.
  - cbn [list_set].
    pose proof (siftup_spec (lastelt :: tl) ltac:(simpl; lia)) as Hs.
    destruct (_siftup (lastelt :: tl) 0) as [h'| |]; cbn [ok_or_type bind fst snd] in *; auto.
    destruct Hs as (H1 & H2 & H3).
    split; [|split].
    + rewrite Hh, length_app, H1. simpl. lia.
    + intros y. rewrite H2, Hh. cbn [app In]. rewrite in_app_iff. simpl.
      intuition congruence.
    + intros Hinv. split.
      * apply H3. split.
        -- intros i Hi Hn0 Hp0. pose proof (parent_spec i ltac:(lia)) as Hp.
           assert (Hhp : heap_inv (ret :: tl)).
           { apply heap_inv_prefix with lastelt. now rewrite <- Hh. }
           specialize (Hhp i). simpl in Hi. simpl in Hhp. specialize (Hhp ltac:(lia)).
           unfold cst in *.
           destruct i as [|i]; [lia|].
           destruct (parent (S i)) as [|p] eqn:Ep; [lia|]. exact Hhp.
        -- intros k Hk _ Hlt. lia.
      * intros y Hy. apply In_nth_iff in Hy. destruct Hy as (i & Hi & <-).
        pose proof (root_min h Hinv i Hi) as Hmin. unfold cst in Hmin.
        rewrite Hh in Hmin at 1. exact Hmin.
Qed.


(** *** When the comparisons of the items cannot raise, neither can the
    heap operations *)
Section NoRaise.
Variable P : entry -> Prop.
Hypothesis P_lt : forall a b, P a -> P b -> exists r, entry_lt a b = Ok r.

Lemma In_list_set (l : list entry) (i : nat) (x y : entry) :
  In y (list_set l i x) -> y = x \/ In y l.
Proof.
  revert i. induction l as [|a l IH]; intros [|i]; simpl; try tauto.
  - intros [<-|H]; auto.
  - intros [<-|H]; auto. destruct (IH i H); auto.
Qed.

Lemma siftdown_loop_ok (fuel : nat) :
  forall (h : list entry) (x : entry) (pos : nat),
    (pos <= fuel)%nat -> (pos < List.length h)%nat ->
    P x -> (forall y, In y h -> P y) ->
    exists h', _siftdown_loop fuel h x 0 pos = Ok h'.
Proof.
  induction fuel as [|fuel IH]; intros h x pos Hf Hpos Hx Hh.
  - assert (pos = 0%nat) as -> by lia. simpl. eauto.
  - rewrite siftdown_loop_eq. destruct (Nat.ltb_spec 0 pos) as [Hp|Hp]; [|eauto].
    pose proof (parent_spec pos Hp) as Hpp.
    rewrite list_item_nth by lia. cbn [bind].
    assert (Hpar : P (nth (parent pos) h dflt)) by (apply Hh, nth_In; lia).
    destruct (P_lt x _ Hx Hpar) as [lt ->]. cbn [bind].
    destruct lt; [|eauto].
    apply IH; try lia; auto.
    + rewrite length_list_set. lia.
    + intros y Hy. apply In_list_set in Hy. destruct Hy as [->|Hy]; auto.
Qed.

Lemma heappush_ok (h : list entry) (item : entry) :
  (forall y, In y h -> P y) -> P item -> exists h', heappush h item = Ok h'.
Proof.
  intros Hh Hi. unfold heappush, _siftdown.
  assert (Hlen : List.length (h ++ [item]) = S (List.length h)).
  { rewrite length_app. simpl. lia. }
  rewrite Hlen. replace (S (List.length h) - 1)%nat with (List.length h) by lia.
  rewrite list_item_nth by lia. cbn [bind].
  assert (Hall : forall y, In y (h ++ [item]) -> P y).
  { intros y Hy. apply in_app_iff in Hy. destruct Hy as [Hy|[<-|[]]]; auto. }
  apply siftdown_loop_ok; try lia; auto.
  apply Hall, nth_In. lia.
Qed.

Lemma siftup_loop_ok (fuel : nat) :
  forall (h : list entry) (pos : nat),
    (List.length h <= fuel + pos)%nat -> (pos < List.length h)%nat ->
    (forall y, In y h -> P y) ->
    exists r, _siftup_loop fuel h (List.length h) pos = Ok r.
Proof.
  induction fuel as [|fuel IH]; intros h pos Hf Hpos Hh; [lia|].
  rewrite siftup_loop_eq.
  destruct (Nat.ltb_spec (2 * pos + 1) (List.length h)) as [Hl|Hl]; [|eauto].
  assert (Hstep : forall c, (c = 2 * pos + 1 \/ c = 2 * pos + 2)%nat ->
                            (c < List.length h)%nat ->
            exists r, (child <- list_item h c ;;
                       _siftup_loop fuel (list_set h pos child) (List.length h) c) = Ok r).
  { intros c Hc Hcl. rewrite list_item_nth by lia. cbn [bind].
    specialize (IH (list_set h pos (nth c h dflt)) c).
    rewrite length_list_set in IH. apply IH; try lia.
    intros y Hy. apply In_list_set in Hy. destruct Hy as [->|Hy]; auto.
    apply Hh, nth_In. lia. }
  destruct (Nat.ltb_spec (2 * pos + 1 + 1) (List.length h)) as [Hr|Hr].
  - rewrite !list_item_nth by lia. cbn [bind].
    destruct (P_lt (nth (2 * pos + 1) h dflt) (nth (2 * pos + 1 + 1) h dflt)) as [lt ->];
      try (apply Hh, nth_In; lia).
    cbn [bind]. destruct lt; cbn [negb]; apply Hstep; lia.
  - cbn [bind]. apply Hstep; lia.
Qed.

Lemma heappop_ok (h : list entry) :
  h <> [] -> (forall y, In y h -> P y) -> exists r, heappop h = Ok r.
Proof.
  intros Hne Hh. unfold heappop.
  destruct (rev h) as [|lastelt rest_rev] eqn:E.
  { apply (f_equal (@rev entry)) in E. rewrite rev_involutive in E. contradiction. }
  assert (Hrev : h = rev rest_rev ++ [lastelt]).
  { rewrite <- (rev_involutive h), E. reflexivity. }
  destruct (rev rest_rev) as [|ret tl] eqn:E'; [eauto|].
  cbn [list_set].
  assert (H0 : forall y, In y (lastelt :: tl) -> P y).
  { intros y Hy. apply Hh. rewrite Hrev. cbn [app In]. rewrite in_app_iff.
    destruct Hy as [<-|Hy]; simpl; auto. }
  unfold _siftup. rewrite list_item_nth by (simpl; lia). cbn [bind nth].
  pose proof (siftup_loop_spec (List.length (lastelt :: tl)) (lastelt :: tl) 0
                ltac:(lia) ltac:(simpl; lia)) as Hspec.
  destruct (siftup_loop_ok (List.length (lastelt :: tl)) (lastelt :: tl) 0
              ltac:(lia) ltac:(simpl; lia) H0) as [[h1 p1] Eup].
  rewrite Eup in *. cbn [ok_or_type bind fst snd] in *.
  destruct Hspec as (H1 & H2 & _ & H4 & _).
  unfold _siftdown. rewrite list_item_nth by (rewrite length_list_set; lia).
  rewrite nth_list_set_eq by lia. cbn [bind].
  destruct (siftdown_loop_ok p1 (list_set h1 p1 lastelt) lastelt p1) as [h' ->];
    try lia; auto.
  - rewrite length_list_set. lia.
  - apply H0. now left.
  - intros y Hy. apply H4 in Hy. apply In_list_set in Hy.
    destruct Hy as [->|Hy]; apply H0; auto. now left.
  - cbn [bind]. eauto.
Qed.

End NoRaise.

End HeapFacts.

(** ** The router *)
Module RouterFacts.
Import Py PyFacts map_utils Notions HeapFacts Examples.
Local Open Scope Q_scope.

Section Router.
Variable edges : edges_t.
Variable tc : option traffic_t.
Variable start : node_id.
Variable goal : node_id.

#[local] Abbreviation walk := (Notions.walk edges tc start).
#[local] Abbreviation inv := (Notions.inv edges tc start goal).

Lemma walk_head (p : list node_id) (n : node_id) (c : Q) :
  walk p n c -> exists tl, p = start :: tl.
Proof.
  induction 1 as [|p u c v w _ [tl ->] _].
  - now exists [].
  - now exists (tl ++ [v]).
Qed.

Lemma walk_last (p : list node_id) (n : node_id) (c : Q) :
  walk p n c -> exists q, p = q ++ [n].
Proof.
  destruct 1 as [|p u c v w _ _].
  - now exists [].
  - now exists p.
Qed.

Lemma covered_mono (pq pq' : list entry) (seen : dict node_id Q) (n : node_id) (c : Q) :
  (forall e, In e pq -> In e pq') -> covered pq seen n c -> covered pq' seen n c.
Proof.
  intros Hsub [H|(e & He & Hn & Hc)]; [now left|].
  right. exists e. auto.
Qed.

Lemma covered_le (pq : list entry) (seen : dict node_id Q) (n : node_id) (c c' : Q) :
  c <= c' -> covered pq seen n c -> covered pq seen n c'.
Proof.
  intros Hle [(s & Hs & Hc)|(e & He & Hn & Hc)].
  - left. exists s. split; [exact Hs|]. now apply Qle_trans with c.
  - right. exists e. repeat split; auto. now apply Qle_trans with c.
Qed.

(** Every walk is covered: its end is settled at no more than its cost, or
    some queued entry costs no more. *)
Lemma walk_covered (pq : list entry) (seen : dict node_id Q) :
  nonneg_costs edges tc -> inv pq seen ->
  forall p n c, walk p n c ->
    (exists s, dict_get n seen = Some s /\ s <= c) \/
    (exists e, In e pq /\ e_cost e <= c).
Proof.
  intros Hnn Hinv p n c Hw. induction Hw as [|p u c v w Hw IH Hin].
  - destruct (inv_start _ _ _ _ _ _ Hinv) as [H|(e & He & _ & Hc)]; [now left|].
    right. now exists e.
  - pose proof (Hnn u v w Hin) as Hpos. unfold edge_cost in Hpos.
    destruct IH as [(s & Hs & Hc)|(e & He & Hc)].
    + destruct (inv_edges _ _ _ _ _ _ Hinv u s v w Hs Hin) as [(s' & Hs' & Hc')|(e & He & _ & Hc')].
      * left. exists s'. split; [exact Hs'|]. lra.
      * right. exists e. split; [exact He|]. lra.
    + right. exists e. split; [exact He|]. lra.
Qed.


Lemma relax_spec (cost : Q) (node : node_id) (path : list node_id)
  (seen : dict node_id Q) (pq : list entry) (nbr : node_id) (w : Q) :
  ok_or_type (relax tc cost node path seen pq (nbr, w))
    (fun pq' =>
       (forall y, In y pq -> In y pq') /\
       (forall y, In y pq' ->
                  In y pq \/ y = (cost + w + traffic tc node nbr * 10, nbr, path ++ [nbr])) /\
       (List.length pq' <= S (List.length pq))%nat /\
       (heap_inv pq -> heap_inv pq') /\
       covered pq' seen nbr (cost + w + traffic tc node nbr * 10)).
Proof.
  unfold relax.
  destruct (match dict_get nbr seen with
            | Some s => Qltb (cost + w + traffic tc node nbr * 10) s
            | None => true
            end) eqn:E.
  - pose proof (heappush_spec pq (cost + w + traffic tc node nbr * 10, nbr, path ++ [nbr])) as H.
    destruct (heappush pq _) as [pq'| |]; cbn [ok_or_type] in *; auto.
    destruct H as (Hl & Hin & Hh).
    split; [intros y Hy; apply Hin; now right|].
    split; [intros y Hy; apply Hin in Hy; tauto|].
    split; [lia|]. split; [exact Hh|].
    right. eexists. split; [apply Hin; left; reflexivity|].
    split; [reflexivity|apply Qle_refl].
  - cbn [ok_or_type]. split; [auto|]. split; [auto|]. split; [lia|]. split; [auto|].
    destruct (dict_get nbr seen) as [s|] eqn:Es; [|discriminate].
    left. exists s. split; [exact Es|]. now apply Qltb_false.
Qed.

Lemma relax_all_spec (cost : Q) (node : node_id) (path : list node_id)
  (seen : dict node_id Q) (es : list (node_id * Q)) :
  forall pq,
  ok_or_type (relax_all tc cost node path seen pq es)
    (fun pq' =>
       (forall y, In y pq -> In y pq') /\
       (forall y, In y pq' ->
                  In y pq \/
                  exists v w, In (v, w) es /\
                              y = (cost + w + traffic tc node v * 10, v, path ++ [v])) /\
       (List.length pq' <= List.length pq + List.length es)%nat /\
       (heap_inv pq -> heap_inv pq') /\
       (forall v w, In (v, w) es ->
                    covered pq' seen v (cost + w + traffic tc node v * 10))).
Proof.
  induction es as [|[nbr w] es IH]; intros pq; cbn [relax_all].
  - cbn [ok_or_type]. split; [auto|]. split; [auto|]. split; [simpl; lia|].
    split; [auto|]. intros v w [].
  - pose proof (relax_spec cost node path seen pq nbr w) as H.
    destruct (relax tc cost node path seen pq (nbr, w)) as [pq1| |];
      cbn [ok_or_type bind] in *; auto.
    destruct H as (H1 & H2 & H3 & H4 & H5).
    specialize (IH pq1).
    destruct (relax_all tc cost node path seen pq1 es) as [pq2| |];
      cbn [ok_or_type] in *; auto.
    destruct IH as (G1 & G2 & G3 & G4 & G5).
    split; [auto|]. split; [|split; [|split]].
    + intros y Hy. destruct (G2 y Hy) as [Hy1|(v & w' & Hv & ->)].
      * destruct (H2 y Hy1) as [Hy0| ->]; [now left|].
        right. exists nbr, w. split; [now left|reflexivity].
      * right. exists v, w'. split; [now right|reflexivity].
    + simpl. lia.
    + auto.
    + intros v w' [Hv|Hv].
      * injection Hv as -> ->. now apply covered_mono with pq1.
      * now apply G5.
Qed.

Lemma find_path_loop_eq (fuel : nat) (pq : list entry) (seen : dict node_id Q) :
  pq <> [] ->
  find_path_loop edges goal tc (S fuel) pq seen =
  r <- heappop pq ;;
  if eqb (e_node (fst r)) goal then Ok (Some (e_path (fst r)))
  else if match dict_get (e_node (fst r)) seen with
          | Some s => Qle_bool s (e_cost (fst r))
          | None => false
          end
  then find_path_loop edges goal tc fuel (snd r) seen
  else
    pq' <- relax_all tc (e_cost (fst r)) (e_node (fst r)) (e_path (fst r))
               (dict_set (e_node (fst r)) (e_cost (fst r)) seen) (snd r)
               (adj (e_node (fst r)) edges) ;;
    find_path_loop edges goal tc fuel pq' (dict_set (e_node (fst r)) (e_cost (fst r)) seen).
Proof.
  intros Hne. destruct pq as [|e0 pq0]; [contradiction|].
  cbn [find_path_loop]. destruct (heappop (e0 :: pq0)) as [[[[c n] p] q]| |]; reflexivity.
Qed.

Lemma pending_set_le (es : edges_t) (seen : dict node_id Q) (n : node_id) (c : Q) :
  (pending es (dict_set n c seen) <= pending es seen)%nat.
Proof.
  induction es as [|[u l] r IH]; cbn [pending]; [lia|].
  rewrite dict_mem_set. destruct (eqb n u), (dict_mem u seen); simpl; lia.
Qed.

Lemma pending_settle (es : edges_t) (seen : dict node_id Q) (n : node_id) (c : Q) :
  dict_get n seen = None ->
  (pending es (dict_set n c seen) + List.length (adj n es) <= pending es seen)%nat.
Proof.
  intros Hn. unfold adj. induction es as [|[u l] r IH]; cbn [pending dict_get]; [simpl; lia|].
  rewrite dict_mem_set. destruct (eqb_spec u n) as [->|Hne].
  - rewrite eqb_refl. cbn [orb]. unfold dict_mem. rewrite Hn.
    pose proof (pending_set_le r seen n c). unfold dict_mem in *. simpl. lia.
  - rewrite (eqb_neq n u) by congruence. cbn [orb].
    destruct (dict_mem u seen); lia.
Qed.


(** The popped entry was settled before at no more than its cost: the
    pass of the loop only drops it. *)
Lemma inv_continue (pq pq1 : list entry) (seen : dict node_id Q)
  (cost : Q) (node : node_id) (path : list node_id) (s : Q) :
  inv pq seen ->
  (forall y, In y pq <-> y = (cost, node, path) \/ In y pq1) ->
  heap_inv pq1 ->
  dict_get node seen = Some s -> s <= cost ->
  inv pq1 seen.
Proof.
  intros [Hw Hs He Hg Hh] Hin Hh1 Hseen Hle.
  assert (Hcov : forall n c, covered pq seen n c -> covered pq1 seen n c).
  { intros n c [H|(e & Hein & Hn & Hc)]; [now left|].
    apply Hin in Hein. destruct Hein as [->|Hein].
    - left. exists s. cbn in Hn, Hc. subst n. split; [exact Hseen|].
      now apply Qle_trans with cost.
    - right. now exists e. }
  constructor;
    [ intros e Hein; apply Hw, Hin; now right
    | now apply Hcov
    | intros u cu v w Hu Hvw; apply Hcov; now apply He
    | exact Hg
    | exact Hh1 ].
Qed.

(** The popped entry is settled at its cost and its edges are relaxed. *)
Lemma inv_expand (pq pq1 pq2 : list entry) (seen : dict node_id Q)
  (cost : Q) (node : node_id) (path : list node_id) :
  inv pq seen ->
  (forall y, In y pq <-> y = (cost, node, path) \/ In y pq1) ->
  node <> goal ->
  (forall s, dict_get node seen = Some s -> cost < s) ->
  (forall y, In y pq1 -> In y pq2) ->
  (forall y, In y pq2 ->
             In y pq1 \/
             exists v w, In (v, w) (adj node edges) /\
                         y = (cost + w + traffic tc node v * 10, v, path ++ [v])) ->
  heap_inv pq2 ->
  (forall v w, In (v, w) (adj node edges) ->
               covered pq2 (dict_set node cost seen) v
                 (cost + w + traffic tc node v * 10)) ->
  inv pq2 (dict_set node cost seen).
Proof.
  intros [Hw Hs He Hg Hh] Hin Hng Hexp Hsub Hnew Hh2 Hrel.
  assert (Hx : walk path node cost).
  { apply (Hw (cost, node, path)). apply Hin. now left. }
  assert (Hcov : forall n c, covered pq seen n c ->
                             covered pq2 (dict_set node cost seen) n c).
  { intros n c [(s & Hsn & Hc)|(e & Hein & Hn & Hc)].
    - left. rewrite dict_get_set. destruct (eqb_spec node n) as [<-|Hne].
      + exists cost. split; [reflexivity|].
        apply Qlt_le_weak. apply Qlt_le_trans with s; [now apply Hexp|exact Hc].
      + now exists s.
    - apply Hin in Hein. destruct Hein as [->|Hein].
      + cbn in Hn, Hc. subst n. left. exists cost.
        split; [apply dict_get_set_eq|exact Hc].
      + right. exists e. auto. }
  constructor; [| now apply Hcov | | now rewrite dict_get_set_neq | exact Hh2 ].
  - intros e Hein. destruct (Hnew e Hein) as [H1|(v & w & Hvw & ->)].
    + apply Hw, Hin. now right.
    + cbn. exact (walk_step edges tc start path node cost v w Hx Hvw).
  - intros u cu v w Hu Hvw. rewrite dict_get_set in Hu.
    destruct (eqb_spec node u) as [<-|Hne].
    + injection Hu as <-. now apply Hrel.
    + apply Hcov. now apply He.
Qed.

Lemma settled_expand (pq pq1 pq2 : list entry) (seen : dict node_id Q)
  (cost : Q) (node : node_id) (path : list node_id) :
  nonneg_costs edges tc ->
  settled_below pq seen ->
  (forall y, In y pq <-> y = (cost, node, path) \/ In y pq1) ->
  (forall y, In y pq -> cost <= e_cost y) ->
  (forall y, In y pq2 ->
             In y pq1 \/
             exists v w, In (v, w) (adj node edges) /\
                         y = (cost + w + traffic tc node v * 10, v, path ++ [v])) ->
  settled_below pq2 (dict_set node cost seen).
Proof.
  intros Hnn Hsb Hin Hmin Hnew u s e Hu He.
  assert (Hs : s <= cost).
  { rewrite dict_get_set in Hu. destruct (eqb_spec node u) as [<-|Hne].
    - injection Hu as <-. apply Qle_refl.
    - apply (Hsb u s (cost, node, path) Hu). apply Hin. now left. }
  destruct (Hnew e He) as [H1|(v & w & Hvw & ->)].
  - apply Qle_trans with cost; [exact Hs|]. apply Hmin, Hin. now right.
  - cbn. pose proof (Hnn node v w Hvw) as Hpos. unfold edge_cost in Hpos. lra.
Qed.

(** The loop of [find_path], from a state satisfying the invariant:
    what each result tells, and that it runs out of fuel only below the
    bound when the costs are not negative. *)
Lemma find_path_loop_spec (fuel : nat) :
  forall pq seen, inv pq seen ->
  match find_path_loop edges goal tc fuel pq seen with
  | Ok (Some p) =>
      exists pq' seen' c, inv pq' seen' /\ In (c, goal, p) pq' /\
                          (forall e, In e pq' -> c <= e_cost e)
  | Ok None => exists seen', inv [] seen'
  | Raise e => e = TypeError
  | Diverge => nonneg_costs edges tc -> settled_below pq seen ->
               (fuel < List.length pq + pending edges seen)%nat
  end.
Proof.
  induction fuel as [|fuel IH]; intros pq seen Hinv.
  - destruct pq; cbn [find_path_loop]; [now exists seen|].
    intros _ _. simpl. lia.
  - destruct pq as [|e0 pq0] eqn:Epq; [now exists seen|].
    rewrite <- Epq in *. assert (Hpq : pq <> []) by (subst pq; discriminate).
    clear e0 pq0 Epq.
    rewrite find_path_loop_eq by exact Hpq.
    pose proof (heappop_spec pq Hpq) as Hpop.
    destruct (heappop pq) as [[[[cost node] path] pq1]| |];
      cbn [ok_or_type bind fst snd e_node e_cost e_path] in *; auto; [|contradiction].
    destruct Hpop as (Hlen & Hin & Hheap).
    destruct (Hheap (inv_heap _ _ _ _ _ _ Hinv)) as [Hh1 Hmin].
    cbn [e_cost fst] in Hmin.
    destruct (eqb_spec node goal) as [->|Hng].
    { exists pq, seen, cost. split; [exact Hinv|]. split; [apply Hin; now left|exact Hmin]. }
    destruct (match dict_get node seen with
              | Some s => Qle_bool s cost
              | None => false
              end) eqn:Econt.
    + destruct (dict_get node seen) as [s|] eqn:Es; [|discriminate].
      apply Qle_bool_iff in Econt.
      pose proof (inv_continue pq pq1 seen cost node path s Hinv Hin Hh1 Es Econt) as Hinv1.
      specialize (IH pq1 seen Hinv1).
      destruct (find_path_loop edges goal tc fuel pq1 seen) as [[p|]| |]; auto.
      intros Hnn Hsb. rewrite Hlen.
      assert (fuel < List.length pq1 + pending edges seen)%nat; [|lia].
      apply IH; [exact Hnn|]. intros u s' e Hu He. apply (Hsb u s' e Hu).
      apply Hin. now right.
    + assert (Hexp : forall s, dict_get node seen = Some s -> cost < s).
      { intros s Hs. rewrite Hs in Econt. now apply Qle_bool_false. }
      pose proof (relax_all_spec cost node path (dict_set node cost seen)
                    (adj node edges) pq1) as Hrel.
      destruct (relax_all tc cost node path (dict_set node cost seen) pq1 (adj node edges))
        as [pq2| |]; cbn [ok_or_type bind] in *; auto; [|contradiction].
      destruct Hrel as (H1 & H2 & H3 & H4 & H5).
      pose proof (inv_expand pq pq1 pq2 seen cost node path Hinv Hin Hng Hexp
                    H1 H2 (H4 Hh1) H5) as Hinv2.
      specialize (IH pq2 (dict_set node cost seen) Hinv2).
      destruct (find_path_loop edges goal tc fuel pq2 (dict_set node cost seen))
        as [[p|]| |]; auto.
      intros Hnn Hsb.
      assert (Hnone : dict_get node seen = None).
      { destruct (dict_get node seen) as [s|] eqn:Es; [|reflexivity].
        exfalso. apply (Qlt_not_le _ _ (Hexp s eq_refl)).
        apply (Hsb node s (cost, node, path) Es). apply Hin. now left. }
      pose proof (pending_settle edges seen node cost Hnone) as Hpend.
      assert (fuel < List.length pq2 + pending edges (dict_set node cost seen))%nat; [|lia].
      apply IH; [exact Hnn|].
      now apply (settled_expand pq pq1 pq2 seen cost node path).
Qed.


Lemma inv_init : inv [(0, start, [start])] [].
Proof.
  constructor.
  - intros e [<-|[]]. apply walk_start.
  - right. exists (0, start, [start]). split; [now left|]. split; [reflexivity|apply Qle_refl].
  - intros u cu v w Hu. discriminate.
  - reflexivity.
  - intros i Hi. simpl in Hi. lia.
Qed.

(** What a result of [find_path] tells, for any fuel. *)
Lemma find_path_spec (fuel : nat) :
  match find_path fuel edges start goal tc with
  | Ok (Some p) =>
      dict_mem start edges = true /\ dict_mem goal edges = true /\
      exists c, walk p goal c /\
                (nonneg_costs edges tc -> forall p' c', walk p' goal c' -> c <= c')
  | Ok None =>
      dict_mem start edges = false \/ dict_mem goal edges = false \/
      (nonneg_costs edges tc -> forall p' c', ~ walk p' goal c')
  | Raise e => e = TypeError
  | Diverge => nonneg_costs edges tc -> (fuel < fuel_bound edges)%nat
  end.
Proof.
  unfold find_path.
  destruct (dict_mem start edges) eqn:Es; cbn [negb orb]; [|now left].
  destruct (dict_mem goal edges) eqn:Eg; cbn [negb orb]; [|right; now left].
  pose proof (find_path_loop_spec fuel _ _ inv_init) as H.
  destruct (find_path_loop edges goal tc fuel _ _) as [[p|]| |]; auto.
  - destruct H as (pq & seen & c & Hinv & Hin & Hmin).
    split; [reflexivity|]. split; [reflexivity|]. exists c. split.
    + apply (inv_walk _ _ _ _ _ _ Hinv _ Hin).
    + intros Hnn p' c' Hw.
      destruct (walk_covered pq seen Hnn Hinv p' goal c' Hw) as [(s & Hs & _)|(e & He & Hc)].
      * rewrite (inv_goal _ _ _ _ _ _ Hinv) in Hs. discriminate.
      * apply Qle_trans with (e_cost e); [now apply Hmin|exact Hc].
  - destruct H as (seen & Hinv). right. right. intros Hnn p' c' Hw.
    destruct (walk_covered [] seen Hnn Hinv p' goal c' Hw) as [(s & Hs & _)|(e & [] & _)].
    rewrite (inv_goal _ _ _ _ _ _ Hinv) in Hs. discriminate.
  - intros Hnn. unfold fuel_bound.
    assert (fuel < List.length [(0, start, [start])] + pending edges [])%nat; [|simpl in *; lia].
    apply H; [exact Hnn|]. intros u s e Hu. discriminate.
Qed.

(** More fuel does not change a result. *)
Lemma find_path_loop_fuel (fuel : nat) :
  forall fuel' pq seen, (fuel <= fuel')%nat ->
    find_path_loop edges goal tc fuel pq seen <> Diverge ->
    find_path_loop edges goal tc fuel' pq seen = find_path_loop edges goal tc fuel pq seen.
Proof.
  induction fuel as [|fuel IH]; intros fuel' pq seen Hle Hnd.
  - destruct pq; [now destruct fuel'|]. cbn in Hnd. congruence.
  - destruct fuel' as [|fuel']; [lia|].
    destruct pq as [|e0 pq0]; [reflexivity|].
    rewrite !find_path_loop_eq in * by discriminate.
    destruct (heappop (e0 :: pq0)) as [[x pq1]| |]; cbn [bind fst snd] in *; auto.
    destruct (eqb (e_node x) goal); [reflexivity|].
    destruct (match dict_get (e_node x) seen with
              | Some s => Qle_bool s (e_cost x)
              | None => false
              end).
    + apply IH; [lia|exact Hnd].
    + destruct (relax_all tc _ _ _ _ _ _); cbn [bind] in *; auto.
      apply IH; [lia|exact Hnd].
Qed.

Lemma find_path_fuel (fuel fuel' : nat) :
  (fuel <= fuel')%nat ->
  find_path fuel edges start goal tc <> Diverge ->
  find_path fuel' edges start goal tc = find_path fuel edges start goal tc.
Proof.
  unfold find_path. intros Hle Hnd.
  destruct (negb (dict_mem start edges) || negb (dict_mem goal edges)); [reflexivity|].
  now apply find_path_loop_fuel.
Qed.


(** *** Ids of one kind: no comparison raises *)
Section OneKind.
Variable K : node_id -> Prop.
Hypothesis K_lt : forall a b, K a -> K b -> exists r, node_lt a b = Ok r.

Lemma path_lt_kind (p q : list node_id) :
  Forall K p -> Forall K q -> exists r, path_lt p q = Ok r.
Proof.
  intros Hp. revert q. induction Hp as [|a p Ha Hp IH]; intros q Hq.
  - destruct q; simpl; eauto.
  - destruct Hq as [|b q Hb Hq]; simpl; [eauto|].
    destruct (node_eqb a b); [now apply IH|now apply K_lt].
Qed.

Lemma entry_lt_kind (a b : entry) :
  kind_entry K a -> kind_entry K b -> exists r, entry_lt a b = Ok r.
Proof.
  intros [Ha Hpa] [Hb Hpb]. unfold entry_lt.
  destruct (negb _); [eauto|].
  destruct (negb _); [now apply K_lt|now apply path_lt_kind].
Qed.

Lemma relax_all_kind (cost : Q) (node : node_id) (path : list node_id)
  (seen : dict node_id Q) (es : list (node_id * Q)) :
  Forall K path -> (forall v w, In (v, w) es -> K v) ->
  forall pq, (forall e, In e pq -> kind_entry K e) ->
  exists pq', relax_all tc cost node path seen pq es = Ok pq' /\
              forall e, In e pq' -> kind_entry K e.
Proof.
  intros Hpath. induction es as [|[nbr w] es IH]; intros Hes pq Hpq; cbn [relax_all].
  - eauto.
  - assert (Hnew : kind_entry K (cost + w + traffic tc node nbr * 10, nbr, path ++ [nbr])).
    { split; cbn.
      - apply (Hes nbr w). now left.
      - apply Forall_app. split; [exact Hpath|]. constructor; [|constructor].
        apply (Hes nbr w). now left. }
    assert (Hstep : exists pq1, relax tc cost node path seen pq (nbr, w) = Ok pq1 /\
                                forall e, In e pq1 -> kind_entry K e).
    { unfold relax. destruct (match dict_get nbr seen with
                              | Some s => Qltb (cost + w + traffic tc node nbr * 10) s
                              | None => true
                              end); [|eauto].
      pose proof (heappush_spec pq (cost + w + traffic tc node nbr * 10, nbr, path ++ [nbr])) as Hs.
      destruct (heappush_ok (kind_entry K) entry_lt_kind pq _ Hpq Hnew) as [pq1 E].
      rewrite E in *. cbn [ok_or_type] in Hs. destruct Hs as (_ & Hin & _).
      exists pq1. split; [reflexivity|]. intros e He. apply Hin in He.
      destruct He as [->|He]; auto. }
    destruct Hstep as (pq1 & -> & Hpq1). cbn [bind].
    apply IH; auto. intros v w' Hv. apply (Hes v w'). now right.
Qed.

Lemma find_path_loop_kind (fuel : nat) :
  (forall u v w, In (v, w) (adj u edges) -> K v) ->
  forall pq seen, (forall e, In e pq -> kind_entry K e) ->
  forall e, find_path_loop edges goal tc fuel pq seen <> Raise e.
Proof.
  intros Hedges. induction fuel as [|fuel IH]; intros pq seen Hpq e.
  - destruct pq; discriminate.
  - destruct pq as [|e0 pq0] eqn:Epq; [discriminate|].
    rewrite <- Epq in *. assert (Hne : pq <> []) by (subst; discriminate).
    rewrite find_path_loop_eq by exact Hne.
    pose proof (heappop_spec pq Hne) as Hs.
    destruct (heappop_ok (kind_entry K) entry_lt_kind pq Hne Hpq) as [[x pq1] E].
    rewrite E in *. cbn [ok_or_type bind fst snd] in *.
    destruct Hs as (_ & Hin & _).
    assert (Hx : kind_entry K x) by (apply Hpq, Hin; now left).
    assert (Hpq1 : forall y, In y pq1 -> kind_entry K y).
    { intros y Hy. apply Hpq, Hin. now right. }
    destruct (eqb (e_node x) goal); [discriminate|].
    destruct (match dict_get (e_node x) seen with
              | Some s => Qle_bool s (e_cost x)
              | None => false
              end); [now apply IH|].
    destruct (relax_all_kind (e_cost x) (e_node x) (e_path x)
                (dict_set (e_node x) (e_cost x) seen) (adj (e_node x) edges)
                (proj2 Hx) (Hedges (e_node x)) pq1 Hpq1) as (pq2 & -> & Hpq2).
    cbn [bind]. now apply IH.
Qed.

Lemma find_path_kind (fuel : nat) :
  one_kind K edges start ->
  forall e, find_path fuel edges start goal tc <> Raise e.
Proof.
  intros [Hs He] e. unfold find_path.
  destruct (negb (dict_mem start edges) || negb (dict_mem goal edges)); [discriminate|].
  apply find_path_loop_kind; [exact He|].
  intros x [<-|[]]. split; cbn; auto.
Qed.

End OneKind.

End Router.

Lemma node_lt_str (a b : node_id) :
  is_str a -> is_str b -> exists r, node_lt a b = Ok r.
Proof. destruct a, b; simpl; intros; try contradiction; eauto. Qed.

Lemma node_lt_int (a b : node_id) :
  is_int a -> is_int b -> exists r, node_lt a b = Ok r.
Proof. destruct a, b; simpl; intros; try contradiction; eauto. Qed.

(** The congestion key does not depend on the direction of travel. *)
Lemma edge_key_sym (u v : node_id) : edge_key u v = edge_key v u.
Proof.
  unfold edge_key, String.ltb.
  rewrite (String.compare_antisym (str u) (str v)).
  destruct (String.compare (str v) (str u)) eqn:E; simpl; try reflexivity.
  apply String.compare_eq_iff in E. now rewrite E.
Qed.

Lemma traffic_sym (tc : option traffic_t) (u v : node_id) :
  traffic tc u v = traffic tc v u.
Proof. unfold traffic. now rewrite edge_key_sym. Qed.

Lemma line_graph_nonneg (tc : option traffic_t) :
  0 <= traffic tc A B -> 0 <= traffic tc B C -> nonneg_costs line_graph tc.
Proof.
  intros Hab Hbc u v w H. unfold adj, line_graph in H. cbn [dict_get] in H.
  unfold edge_cost. unfold A, B, C in *.
  rewrite ?(traffic_sym tc (NStr "B") (NStr "A")), ?(traffic_sym tc (NStr "C") (NStr "B")).
  destruct (eqb_spec (NStr "A") u) as [<-|_].
  { destruct H as [H|[]]. injection H as <- <-. lra. }
  destruct (eqb_spec (NStr "B") u) as [<-|_].
  { destruct H as [H|[H|[]]]; injection H as <- <-;
      rewrite ?(traffic_sym tc (NStr "B") (NStr "A")); lra. }
  destruct (eqb_spec (NStr "C") u) as [<-|_].
  { destruct H as [H|[]]. injection H as <- <-.
    rewrite (traffic_sym tc (NStr "C") (NStr "B")). lra. }
  destruct H.
Qed.

(** What holds of the router, with the costs added up as exact
    rationals.  With costs that are not negative and fuel for the loop,
    [find_path] returns a walk from start to goal whose cost, each edge
    counting its weight plus ten times its congestion count, is minimal
    among all such walks; it returns [None] only when an end is not in
    the edge map or no walk exists; it raises only [TypeError], and
    never when the ids are all strings or all ints.  The congestion
    count is the one of the undirected edge, and a count of 2 adds
    exactly 2 * 10 to the cost of the edge.  On the line graph A - B - C
    with weights 5 the route from A to C is [A, B, C] with cost 10, and
    with a count of 2 on A - B it is the same with cost 30. *)
Theorem find_path_minimum_cost :
  (forall (edges : edges_t) (tc : option traffic_t) (start goal : node_id) (fuel : nat),
      nonneg_costs edges tc -> (fuel_bound edges <= fuel)%nat ->
      match find_path fuel edges start goal tc with
      | Ok (Some p) =>
          exists c, walk edges tc start p goal c /\
                    forall p' c', walk edges tc start p' goal c' -> c <= c'
      | Ok None =>
          dict_mem start edges = false \/ dict_mem goal edges = false \/
          forall p' c', ~ walk edges tc start p' goal c'
      | Raise e =>
          e = TypeError /\ ~ one_kind is_str edges start /\ ~ one_kind is_int edges start
      | Diverge => False
      end) /\
  (forall (tc : option traffic_t) (u v : node_id) (w : Q),
      edge_cost tc u v w = w + traffic tc u v * 10 /\
      traffic tc u v = traffic tc v u /\
      (traffic tc u v == 2 -> edge_cost tc u v w == edge_cost None u v w + 2 * 10)) /\
  (forall fuel, (5 <= fuel)%nat ->
      find_path fuel line_graph A C None = Ok (Some [A; B; C]) /\
      find_path fuel line_graph A C (Some [(("A", "B")%string, 2)]) = Ok (Some [A; B; C])) /\
  (exists c, walk line_graph None A [A; B; C] C c /\ c == 10) /\
  (exists c, walk line_graph (Some [(("A", "B")%string, 2)]) A [A; B; C] C c /\ c == 30).
Proof.
  split; [|split; [|split; [|split]]].
  - intros edges tc start goal fuel Hnn Hfuel.
    pose proof (find_path_spec edges tc start goal fuel) as H.
    pose proof (find_path_kind edges tc start goal is_str node_lt_str fuel) as Hstr.
    pose proof (find_path_kind edges tc start goal is_int node_lt_int fuel) as Hint.
    destruct (find_path fuel edges start goal tc) as [[p|]| |].
    + destruct H as (_ & _ & c & Hw & Hmin). exists c.
      split; [exact Hw|exact (Hmin Hnn)].
    + destruct H as [H|[H|H]];
        [now left|right; now left|right; right; exact (H Hnn)].
    + split; [exact H|]. split; intros Hk; [apply (Hstr Hk e)|apply (Hint Hk e)]; reflexivity.
    + specialize (H Hnn). lia.
  - intros tc u v w. split; [reflexivity|]. split; [apply traffic_sym|].
    intros Ht. unfold edge_cost. rewrite Ht. simpl. lra.
  - intros fuel Hfuel. split.
    + rewrite (find_path_fuel line_graph None A C 5 fuel Hfuel); [reflexivity|].
      vm_compute. discriminate.
    + rewrite (find_path_fuel line_graph _ A C 5 fuel Hfuel); [reflexivity|].
      vm_compute. discriminate.
  - exists (0 + 5 + traffic None A B * 10 + 5 + traffic None B C * 10). split.
    + apply (walk_step line_graph None A [A; B] B (0 + 5 + traffic None A B * 10) C 5);
        [|right; now left].
      apply (walk_step line_graph None A [A] A 0 B 5); [|now left].
      apply walk_start.
    + reflexivity.
  - set (tc := Some [(("A", "B")%string, 2)]).
    exists (0 + 5 + traffic tc A B * 10 + 5 + traffic tc B C * 10). split.
    + apply (walk_step line_graph tc A [A; B] B (0 + 5 + traffic tc A B * 10) C 5);
        [|right; now left].
      apply (walk_step line_graph tc A [A] A 0 B 5); [|now left].
      apply walk_start.
    + reflexivity.
Qed.

(** On the line graph the route from A to C is a walk of minimal cost. *)
Lemma find_path_minimum_cost_witness :
  exists c, walk line_graph None A [A; B; C] C c /\
            forall p' c', walk line_graph None A p' C c' -> c <= c'.
Proof.
  pose proof (proj1 find_path_minimum_cost line_graph None A C 5%nat) as H.
  assert (Hnn : nonneg_costs line_graph None) by (apply line_graph_nonneg; simpl; lra).
  specialize (H Hnn). exact (H (le_n 5)).
Defined.

End RouterFacts.

(** ** The graph builder *)
Module GraphFacts.
Import Py PyFacts map_utils simulator Notions Examples.
Local Open Scope Q_scope.

Lemma adj_dict_set (k x : node_id) (l : list (node_id * Q)) (edges : edges_t) :
  adj x (dict_set k l edges) = if eqb k x then l else adj x edges.
Proof. unfold adj. rewrite dict_get_set. now destruct (eqb k x). Qed.

Lemma adj_connect (a b : node_id) (w : Q) (u v : node_id) (d : Q) (edges : edges_t) :
  In (b, w) (adj a (connect u v d edges)) <->
  In (b, w) (adj a edges) \/ (a = u /\ b = v /\ w = d) \/ (a = v /\ b = u /\ w = d).
Proof.
  unfold connect, edges_append. rewrite !adj_dict_set.
  destruct (eqb_spec v a) as [->|Hva]; destruct (eqb_spec u a) as [->|Hua];
    rewrite ?eqb_refl, ?in_app_iff; cbn [In];
    try (rewrite (eqb_neq u a) by congruence);
    rewrite ?in_app_iff; cbn [In];
    intuition (try congruence).
Qed.

Lemma dict_mem_connect (k u v : node_id) (d : Q) (edges : edges_t) :
  dict_mem k (connect u v d edges) = true <->
  k = u \/ k = v \/ dict_mem k edges = true.
Proof.
  unfold connect, edges_append. rewrite !dict_mem_set.
  destruct (eqb_spec v k), (eqb_spec u k); cbn [orb]; intuition congruence.
Qed.

Lemma symmetric_connect (u v : node_id) (d : Q) (edges : edges_t) :
  symmetric edges -> symmetric (connect u v d edges).
Proof.
  intros Hs a b w H. apply adj_connect in H. apply adj_connect.
  destruct H as [H|[(-> & -> & ->)|(-> & -> & ->)]]; auto.
Qed.

Lemma closed_connect (nodes : nodes_t) (edges : edges_t) (u v : node_id) (d : Q) :
  In u (dict_keys nodes) -> In v (dict_keys nodes) ->
  closed nodes edges -> closed nodes (connect u v d edges).
Proof.
  intros Hu Hv [Hk Hn]. split.
  - intros k H. apply dict_mem_connect in H. destruct H as [->|[->|H]]; auto.
  - intros a b w H. apply adj_connect in H.
    destruct H as [H|[(-> & -> & ->)|(-> & -> & ->)]]; eauto.
Qed.

Lemma closed_add_node (nodes : nodes_t) (edges : edges_t) (n : node_id) (p : point) :
  closed nodes edges -> closed (dict_set n p nodes) edges.
Proof.
  intros [Hk Hc]. split.
  - intros k H. apply dict_keys_set. right. now apply Hk.
  - intros a b w H. apply dict_keys_set. right. now apply (Hc a b w).
Qed.

Lemma graph_inv_connect (done : list Z) (nodes : nodes_t) (edges : edges_t)
  (u v : node_id) (d : Q) :
  In u (dict_keys nodes) -> In v (dict_keys nodes) ->
  graph_inv done (nodes, edges) -> graph_inv done (nodes, connect u v d edges).
Proof.
  intros Hu Hv [Hs Hc Hd]. cbn [fst snd] in *. constructor; cbn [fst snd].
  - now apply symmetric_connect.
  - now apply closed_connect.
  - exact Hd.
Qed.

Lemma graph_inv_add_node (done : list Z) (nodes : nodes_t) (edges : edges_t)
  (n : node_id) (p : point) :
  is_str n ->
  graph_inv done (nodes, edges) -> graph_inv done (dict_set n p nodes, edges).
Proof.
  intros Hn [Hs Hc Hd]. cbn [fst snd] in *. constructor; cbn [fst snd].
  - exact Hs.
  - now apply closed_add_node.
  - intros k H. apply dict_keys_set in H. destruct H as [->|H]; auto.
Qed.

Lemma key_set_same (nodes : nodes_t) (n : node_id) (p : point) :
  In n (dict_keys (dict_set n p nodes)).
Proof. apply dict_keys_set. now left. Qed.

Lemma key_set_other (nodes : nodes_t) (n k : node_id) (p : point) :
  In k (dict_keys nodes) -> In k (dict_keys (dict_set n p nodes)).
Proof. intros H. apply dict_keys_set. now right. Qed.

Create HintDb graph.
#[local] Hint Resolve key_set_same key_set_other : graph.

(** The scan for the closest node returns one of the candidates. *)
Lemma closer_In (best : option (node_id * Q)) (k : node_id) (dk : Q)
  (n : node_id) (d : Q) :
  closer best k dk = Some (n, d) -> n = k \/ best = Some (n, d).
Proof.
  unfold closer. destruct best as [[bn bd]|].
  - destruct (Qltb dk bd); intros E; [injection E as <- _; now left|now right].
  - intros E. injection E as <- _. now left.
Qed.

Lemma fold_closer_In (dist : point -> Q) (cands : list (node_id * point)) :
  forall best n d,
    fold_left (fun b c => closer b (fst c) (dist (snd c))) cands best = Some (n, d) ->
    In n (map fst cands) \/ best = Some (n, d).
Proof.
  induction cands as [|c cands IH]; intros best n d; cbn [fold_left map In].
  - now right.
  - intros H. apply IH in H. destruct H as [H|H]; [left; now right|].
    apply closer_In in H. destruct H as [->|H]; [left; now left|now right].
Qed.

Lemma fold_hub_candidate_In (hypot : Q -> Q -> Q) (hid : node_id) (p : point)
  (cands : list (node_id * point)) :
  forall best n d,
    fold_left (hub_candidate hypot hid p) cands best = Some (n, d) ->
    (In n (map fst cands) /\ n <> hid) \/ best = Some (n, d).
Proof.
  induction cands as [|c cands IH]; intros best n d; cbn [fold_left map In].
  - now right.
  - intros H. apply IH in H. destruct H as [[H Hn]|H]; [left; split; auto|].
    unfold hub_candidate in H. destruct (eqb_spec (fst c) hid) as [E|E]; [now right|].
    apply closer_In in H. destruct H as [->|H]; [left; split; auto|now right].
Qed.

Lemma In_map_fst_filter {A B : Type} (f : A * B -> bool) (l : list (A * B)) (a : A) :
  In a (map fst (filter f l)) -> In a (map fst l).
Proof.
  intros H. apply in_map_iff in H. destruct H as (x & <- & Hx).
  apply filter_In in Hx. apply in_map. tauto.
Qed.

(** *** Steps 1 to 3, for any property kept by the two things they do:
    adding a string node, and connecting two nodes of the node map. *)
Section Steps.
Variable hypot : Q -> Q -> Q.
Variable P : nodes_t * edges_t -> Prop.
Hypothesis P_connect : forall nodes edges u v d,
    In u (dict_keys nodes) -> In v (dict_keys nodes) ->
    P (nodes, edges) -> P (nodes, connect u v d edges).
Hypothesis P_node : forall nodes edges n p,
    is_str n -> P (nodes, edges) -> P (dict_set n p nodes, edges).

Lemma add_road_keeps (st : nodes_t * edges_t) (r : road) :
  P st -> P (add_road hypot st r).
Proof.
  destruct st as [nodes edges]. intros H. unfold add_road.
  destruct (Qle_bool (r_h r) (r_w r));
    repeat (apply P_connect; [auto 6 with graph|auto 6 with graph|]);
    repeat (apply P_node; [exact I|]); exact H.
Qed.

Lemma fold_keeps {A : Type} (f : nodes_t * edges_t -> A -> nodes_t * edges_t)
  (l : list A) :
  (forall st a, P st -> P (f st a)) ->
  forall st, P st -> P (fold_left f l st).
Proof.
  intros Hf. induction l as [|a l IH]; intros st H; cbn [fold_left]; auto.
Qed.

Lemma link_best_keeps (nodes : nodes_t) (edges : edges_t) (inter_id : node_id)
  (best : option (node_id * Q)) :
  In inter_id (dict_keys nodes) ->
  (forall n d, best = Some (n, d) -> In n (dict_keys nodes)) ->
  P (nodes, edges) -> P (nodes, link_best inter_id best edges).
Proof.
  intros Hi Hb H. unfold link_best. destruct best as [[n d]|]; [|exact H].
  destruct (truthy n); [|exact H]. apply P_connect; eauto.
Qed.

Lemma add_intersection_keeps (a : road) (st : nodes_t * edges_t) (b : road) :
  P st -> P (add_intersection hypot a st b).
Proof.
  destruct st as [nodes edges]. intros H. unfold add_intersection.
  destruct (_rect_overlap a b) as [ov|]; [|exact H].
  assert (Hc : forall pre n d,
             closest hypot (filter (fun kv => startswith (fst kv) pre)
                              (dict_set (inter_node (r_id a) (r_id b))
                                 (ov_x ov + ov_w ov / 2, ov_y ov + ov_h ov / 2) nodes))
               (ov_x ov + ov_w ov / 2, ov_y ov + ov_h ov / 2) = Some (n, d) ->
             In n (dict_keys (dict_set (inter_node (r_id a) (r_id b))
                                (ov_x ov + ov_w ov / 2, ov_y ov + ov_h ov / 2) nodes))).
  { intros pre n d E. unfold closest in E.
    apply (fold_closer_In
             (fun q => _dist hypot q (ov_x ov + ov_w ov / 2, ov_y ov + ov_h ov / 2)))
      in E.
    destruct E as [E|E]; [|discriminate]. now apply In_map_fst_filter in E. }
  apply link_best_keeps; [auto with graph|apply Hc|].
  apply link_best_keeps; [auto with graph|apply Hc|].
  apply P_node; [exact I|exact H].
Qed.

Lemma intersections_keeps (roads : list road) :
  forall st, P st -> P (intersections hypot roads st).
Proof.
  induction roads as [|a rest IH]; intros st H; cbn [intersections]; [exact H|].
  apply IH. apply fold_keeps; [|exact H].
  intros st' b. apply add_intersection_keeps.
Qed.

Lemma stitch_keeps (nodes : nodes_t) (edges : edges_t) (n1 n2 : node_id * point) :
  In (fst n1) (dict_keys nodes) -> In (fst n2) (dict_keys nodes) ->
  P (nodes, edges) -> P (nodes, stitch hypot n1 edges n2).
Proof.
  intros H1 H2 H. unfold stitch. destruct (already _ _ _); [exact H|].
  destruct (Qltb _ 40); [|exact H]. now apply P_connect.
Qed.

Lemma stitch_all_keeps (nodes : nodes_t) (items : list (node_id * point)) :
  (forall kv, In kv items -> In (fst kv) (dict_keys nodes)) ->
  forall edges, P (nodes, edges) -> P (nodes, stitch_all hypot items edges).
Proof.
  induction items as [|n1 rest IH]; intros Hin edges H; cbn [stitch_all]; [exact H|].
  apply IH; [intros kv Hkv; apply Hin; now right|].
  assert (Hrest : forall kv, In kv rest -> In (fst kv) (dict_keys nodes)).
  { intros kv Hkv. apply Hin. now right. }
  clear IH. revert edges H. induction rest as [|n2 rest IH]; intros edges H;
    cbn [fold_left]; [exact H|].
  apply IH.
  - intros kv [->|Hkv]; apply Hin; [now left|right; now right].
  - intros kv Hkv. apply Hrest. now right.
  - apply stitch_keeps; [apply Hin; now left|apply Hrest; now left|exact H].
Qed.

(** The state before the hubs are added. *)
Lemma roads_keep (roads : list road) :
  P ([], []) ->
  P (let '(nodes, edges) := intersections hypot roads (fold_left (add_road hypot) roads ([], []))
     in (nodes, stitch_all hypot nodes edges)).
Proof.
  intros H0.
  pose proof (intersections_keeps roads _
                (fold_keeps (add_road hypot) roads add_road_keeps _ H0)) as H.
  destruct (intersections hypot roads _) as [nodes edges].
  apply stitch_all_keeps; [|exact H].
  intros kv Hkv. now apply in_map.
Qed.

End Steps.

(** *** Step 4 *)
Section Hubs.
Variable hypot : Q -> Q -> Q.
Variable hub_snap_dist : Q.

Lemma closed_new_hub (nodes : nodes_t) (edges : edges_t) (hid : node_id) (p : point) :
  closed nodes edges -> closed (dict_set hid p nodes) (dict_set hid [] edges).
Proof.
  intros [Hk Hc]. split.
  - intros k H. rewrite dict_mem_set in H. apply dict_keys_set.
    destruct (eqb_spec hid k) as [->|_]; [now left|right; now apply Hk].
  - intros a b w H. rewrite adj_dict_set in H. apply dict_keys_set.
    destruct (eqb hid a); [destruct H|right; now apply (Hc a b w)].
Qed.

Lemma add_hub_closed (st : nodes_t * edges_t) (h : hub) :
  closed (fst st) (snd st) ->
  closed (fst (add_hub hypot hub_snap_dist st h)) (snd (add_hub hypot hub_snap_dist st h)).
Proof.
  destruct st as [nodes edges]. cbn [fst snd]. intros H. unfold add_hub.
  pose proof (closed_new_hub nodes edges (NInt (h_id h)) (h_x h, h_y h) H) as H1.
  destruct (fold_left _ _ None) as [[n bd]|] eqn:E; [|exact H1].
  destruct (Qle_bool bd hub_snap_dist); [|exact H1]. cbn [fst snd].
  apply fold_hub_candidate_In in E. destruct E as [[E _]|E]; [|discriminate].
  apply closed_connect; auto with graph.
Qed.

Lemma symmetric_new_hub (nodes : nodes_t) (edges : edges_t) (hid : node_id) :
  closed nodes edges -> ~ In hid (dict_keys nodes) ->
  symmetric edges -> symmetric (dict_set hid [] edges).
Proof.
  intros [Hk Hc] Hfresh Hs u v w H. rewrite adj_dict_set in *.
  destruct (eqb_spec hid u) as [->|Hu]; [destruct H|].
  destruct (eqb_spec hid v) as [->|Hv].
  - exfalso. apply Hfresh. now apply (Hc u v w).
  - now apply Hs.
Qed.

Lemma add_hub_inv (done : list Z) (st : nodes_t * edges_t) (h : hub) :
  ~ In (h_id h) done ->
  graph_inv done st -> graph_inv (h_id h :: done) (add_hub hypot hub_snap_dist st h).
Proof.
  destruct st as [nodes edges]. intros Hnew [Hs Hc Hd]. cbn [fst snd] in *.
  assert (Hfresh : ~ In (NInt (h_id h)) (dict_keys nodes)).
  { intros Hin. destruct (Hd _ Hin) as [[]|(z & E & Hz)]. injection E as <-. auto. }
  assert (H1 : graph_inv (h_id h :: done)
                 (dict_set (NInt (h_id h)) (h_x h, h_y h) nodes,
                  dict_set (NInt (h_id h)) [] edges)).
  { constructor; cbn [fst snd].
    - now apply symmetric_new_hub with nodes.
    - now apply closed_new_hub.
    - intros k H. apply dict_keys_set in H. destruct H as [->|H].
      + right. exists (h_id h). split; [reflexivity|now left].
      + destruct (Hd k H) as [Hstr|(z & E & Hz)]; [now left|].
        right. exists z. split; [exact E|now right]. }
  unfold add_hub.
  destruct (fold_left _ _ None) as [[n bd]|] eqn:E; [|exact H1].
  destruct (Qle_bool bd hub_snap_dist); [|exact H1].
  apply fold_hub_candidate_In in E. destruct E as [[E _]|E]; [|discriminate].
  apply graph_inv_connect; auto with graph.
Qed.

Lemma hubs_inv (hubs : list hub) :
  forall done st,
    NoDup (map h_id hubs) -> (forall z, In z (map h_id hubs) -> ~ In z done) ->
    graph_inv done st ->
    exists done', graph_inv done' (fold_left (add_hub hypot hub_snap_dist) hubs st).
Proof.
  induction hubs as [|h hubs IH]; intros done st Hnd Hnew H; cbn [fold_left].
  - now exists done.
  - cbn [map] in Hnd, Hnew. apply NoDup_cons_iff in Hnd. destruct Hnd as [Hh Hnd].
    apply (IH (h_id h :: done)); [exact Hnd| |].
    + intros z Hz [<-|Hzd]; [contradiction|]. apply (Hnew z); [now right|exact Hzd].
    + apply add_hub_inv; [|exact H]. apply Hnew. now left.
Qed.

Lemma hubs_closed (hubs : list hub) :
  forall st, closed (fst st) (snd st) ->
    closed (fst (fold_left (add_hub hypot hub_snap_dist) hubs st))
           (snd (fold_left (add_hub hypot hub_snap_dist) hubs st)).
Proof.
  induction hubs as [|h hubs IH]; intros st H; cbn [fold_left]; [exact H|].
  apply IH. now apply add_hub_closed.
Qed.

Lemma build_graph_eq (md : mapdata) :
  build_graph hypot md hub_snap_dist =
  fold_left (add_hub hypot hub_snap_dist) (get_list (md_hubs md))
    (let '(nodes, edges) :=
       intersections hypot (get_list (md_roads md))
         (fold_left (add_road hypot) (get_list (md_roads md)) ([], []))
     in (nodes, stitch_all hypot nodes edges)).
Proof.
  unfold build_graph. now destruct (intersections hypot _ _).
Qed.

Lemma graph_inv_empty : graph_inv [] ([], []).
Proof.
  constructor; cbn [fst snd].
  - intros u v w [].
  - split; [discriminate|intros u v w []].
  - intros n [].
Qed.

(** The maps [build_graph] returns: every key and neighbour of the edge
    map is a node. *)
Lemma build_graph_closed (md : mapdata) :
  closed (fst (build_graph hypot md hub_snap_dist))
         (snd (build_graph hypot md hub_snap_dist)).
Proof.
  rewrite build_graph_eq. apply hubs_closed.
  apply (roads_keep hypot (fun st => closed (fst st) (snd st))).
  - intros. now apply closed_connect.
  - intros. now apply closed_add_node.
  - apply (gi_closed _ _ graph_inv_empty).
Qed.

(** C6.  For a map document whose ids are unique within each kind, the
    edge map [build_graph] returns is symmetric: an entry [(v, w)] in the
    adjacency list of [u] has the entry [(u, w)], with the same weight, in
    the adjacency list of [v]. *)
Theorem build_graph_symmetric (md : mapdata) :
  unique_ids md ->
  forall u v w,
    In (v, w) (adj u (snd (build_graph hypot md hub_snap_dist))) ->
    In (u, w) (adj v (snd (build_graph hypot md hub_snap_dist))).
Proof.
  intros [_ Hhubs]. rewrite build_graph_eq.
  destruct (hubs_inv (get_list (md_hubs md)) []
              (let '(nodes, edges) :=
                 intersections hypot (get_list (md_roads md))
                   (fold_left (add_road hypot) (get_list (md_roads md)) ([], []))
               in (nodes, stitch_all hypot nodes edges)) Hhubs) as (done & H).
  - intros z _ [].
  - apply (roads_keep hypot (graph_inv [])).
    + intros. now apply graph_inv_connect.
    + intros. now apply graph_inv_add_node.
    + apply graph_inv_empty.
  - exact (gi_sym _ _ H).
Qed.

End Hubs.

(** In the graph of the map with one road and three hubs, hub 3 is a
    neighbour of the road midpoint, and the midpoint one of hub 3, both at
    distance 50. *)
Lemma build_graph_symmetric_witness :
  In (NInt 3, 50) (adj (NStr "r1_M") (snd (build_graph hypot6 tie_map 80))) /\
  In (NStr "r1_M", 50) (adj (NInt 3) (snd (build_graph hypot6 tie_map 80))).
Proof.
  assert (H : In (NInt 3, 50) (adj (NStr "r1_M") (snd (build_graph hypot6 tie_map 80)))).
  { vm_compute. tauto. }
  split; [exact H|].
  apply (build_graph_symmetric hypot6 80 tie_map); [|exact H].
  split; cbn; repeat constructor; cbn; intuition discriminate.
Defined.

(** A loaded simulator has every key of its edge map in its node map. *)
Lemma Simulator_init_edges_in_nodes (hypot : Q -> Q -> Q) (doc : document)
  (sim : Simulator) :
  Simulator_init hypot doc = Ok sim -> edges_in_nodes sim.
Proof.
  unfold Simulator_init, load_map_data.
  destruct (read_document doc) as [md| |]; cbn [bind]; try discriminate.
  pose proof (build_graph_closed hypot hub_snap_dist_default md) as [Hk _].
  destruct (build_graph hypot md hub_snap_dist_default) as [nodes edges].
  destruct (make_lights _); cbn [bind]; try discriminate.
  intros E. injection E as <-. intros n H. cbn [sim_edges sim_nodes] in *.
  apply dict_mem_keys. now apply Hk.
Qed.

End GraphFacts.

(** ** Spawning and the step of a car *)
Module SimFacts.
Import Py PyFacts map_utils simulator Notions RouterFacts GraphFacts Examples.
Local Open Scope Q_scope.

(** One pass of the loop answers a request whose start is its goal. *)
Lemma find_path_same (edges : edges_t) (s : node_id) (tc : option traffic_t)
  (fuel : nat) :
  dict_mem s edges = true -> find_path (S fuel) edges s s tc = Ok (Some [s]).
Proof.
  intros H. unfold find_path. rewrite H. cbn.
  destruct (node_eqb_spec s s); [reflexivity|congruence].
Qed.

(** C10.  When [s] is a key of the edge map, [find_path] from [s] to [s]
    returns [[s]] in the first pass of its loop, whatever the adjacency
    list of [s] and the congestion table are; [spawn_car] then rejects the
    one-node path and leaves the simulator as it was. *)
Theorem find_path_start_is_goal :
  forall (edges : edges_t) (s : node_id) (tc : option traffic_t) (fuel : nat),
    dict_mem s edges = true -> (1 <= fuel)%nat ->
    find_path fuel edges s s tc = Ok (Some [s]) /\
    forall (jitter : Q) (sim : Simulator),
      sim_edges sim = edges ->
      Simulator_spawn_car fuel jitter sim s s = Ok (false, sim).
Proof.
  intros edges s tc fuel Hs Hf. destruct fuel as [|fuel]; [lia|].
  split; [now apply find_path_same|].
  intros jitter sim <-. unfold Simulator_spawn_car.
  now rewrite find_path_same.
Qed.

(** A hub with an empty adjacency list routed to itself. *)
Lemma find_path_start_is_goal_witness :
  find_path 1 lone_hub (NInt 9) (NInt 9) None = Ok (Some [NInt 9]).
Proof.
  apply (find_path_start_is_goal lone_hub (NInt 9) None 1); [reflexivity|lia].
Defined.

Lemma Car_init_ok (p : list node_id) (nodes : nodes_t) (cid : Z) (jitter : Q)
  (first : node_id) (tl : list node_id) :
  p = first :: tl -> dict_mem first nodes = true ->
  exists car, Car_init p nodes cid jitter = Ok car /\ car_path car = p.
Proof.
  intros -> H. unfold Car_init, dict_item. unfold dict_mem in H.
  destruct (dict_get first nodes); [|discriminate].
  cbn. eexists. split; reflexivity.
Qed.

(** C7.  [spawn_car] appends a car, and advances the id counter, exactly
    when [find_path] returns a path of at least two nodes: the new car
    carries that path and the id the counter had.  When [find_path]
    returns [None] or a path of fewer than two nodes, [spawn_car] returns
    [False] and the simulator, its cars and counter included, is
    unchanged. *)
Theorem spawn_car_iff_path :
  forall (fuel : nat) (jitter : Q) (sim : Simulator) (start_id end_id : node_id),
    edges_in_nodes sim ->
    (forall p, find_path fuel (sim_edges sim) start_id end_id None = Ok (Some p) ->
               (2 <= List.length p)%nat ->
               exists car, Simulator_spawn_car fuel jitter sim start_id end_id
                           = Ok (true, with_car sim car) /\
                           car_path car = p /\ car_id car = sim_next_car_id sim) /\
    (forall sim', Simulator_spawn_car fuel jitter sim start_id end_id = Ok (true, sim') ->
                  exists p, find_path fuel (sim_edges sim) start_id end_id None = Ok (Some p) /\
                            (2 <= List.length p)%nat) /\
    (find_path fuel (sim_edges sim) start_id end_id None = Ok None ->
     Simulator_spawn_car fuel jitter sim start_id end_id = Ok (false, sim)) /\
    (forall p, find_path fuel (sim_edges sim) start_id end_id None = Ok (Some p) ->
               (List.length p < 2)%nat ->
               Simulator_spawn_car fuel jitter sim start_id end_id = Ok (false, sim)).
Proof.
  intros fuel jitter sim start_id end_id Hwf.
  pose proof (find_path_spec (sim_edges sim) None start_id end_id fuel) as Hspec.
  unfold Simulator_spawn_car.
  destruct (find_path fuel (sim_edges sim) start_id end_id None) as [[p|]| |];
    cbn [bind].
  - destruct Hspec as (Hs & _ & c & Hw & _).
    destruct (walk_head _ _ _ _ _ _ Hw) as [tl Hp].
    destruct (Car_init_ok p (sim_nodes sim) (sim_next_car_id sim) jitter start_id tl Hp
                (Hwf _ Hs)) as (car & Hcar & Hpath).
    destruct (Nat.ltb_spec (List.length p) 2) as [Hlt|Hge].
    + split; [intros p' E Hl; injection E as <-; lia|].
      split; [discriminate|]. split; [discriminate|]. reflexivity.
    + rewrite Hcar. cbn [bind]. split.
      * intros p' E _. injection E as <-. exists car. split; [reflexivity|].
        split; [exact Hpath|]. unfold Car_init in Hcar.
        destruct (match p with [] => _ | _ => _ end); cbn in Hcar; [|discriminate..].
        now injection Hcar as <-.
      * split; [intros sim' _; now exists p|]. split; [discriminate|].
        intros p' E Hl. injection E as <-. lia.
  - split; [discriminate|]. split; [discriminate|]. split; [reflexivity|discriminate].
  - split; [discriminate|]. split; [discriminate|]. split; discriminate.
  - split; [discriminate|]. split; [discriminate|]. split; discriminate.
Qed.

Lemma big_road_edges_in_nodes : edges_in_nodes big_road_sim.
Proof.
  intros n H. apply dict_mem_keys in H. apply dict_mem_keys.
  vm_compute in H. vm_compute. tauto.
Qed.

(** A spawn between the two hubs of the big road. *)
Lemma spawn_car_iff_path_witness :
  exists car,
    Simulator_spawn_car 20 0 big_road_sim (NInt 2) (NInt 3)
    = Ok (true, with_car big_road_sim car) /\
    car_path car = [NInt 2; NStr "r1_L"; NStr "r1_M"; NStr "r1_R"; NInt 3] /\
    car_id car = sim_next_car_id big_road_sim.
Proof.
  apply (proj1 (spawn_car_iff_path 20 0 big_road_sim (NInt 2) (NInt 3)
                  big_road_edges_in_nodes)).
  - vm_compute. reflexivity.
  - simpl. lia.
Defined.

(** *** The step of a car *)
Section Step.
Variable hypot : Q -> Q -> Q.

Lemma type_is_no_entry_not_slow (s : symbol) :
  s_type s = Some "no_entry"%string -> type_is s "slow" = false.
Proof. unfold type_is. now intros ->. Qed.

(** A blocking symbol in the list keeps the loop over the symbols from
    handing a speed to the move, whatever the speed reached before it:
    the loop makes [update] return there, or raises before it. *)
Lemma symbols_loop_blocked (self : Car) (dir_vec : Vector2) (symbols : list symbol) :
  (exists s, In s symbols /\ blocks hypot self dir_vec s) ->
  forall max_speed max_speed',
    symbols_loop hypot self dir_vec symbols max_speed <> Ok (Some max_speed').
Proof.
  induction symbols as [|s0 rest IH];
    intros (s & Hin & x & y & Hx & Hy & Hty & Hdot & Hdist) max_speed max_speed'.
  - destruct Hin.
  - assert (Hb : blocks hypot self dir_vec s) by (exists x, y; auto).
    cbn [symbols_loop]. unfold subscript.
    destruct (s_x s0) as [x0|] eqn:Ex0; cbn [bind]; [|discriminate].
    destruct (s_y s0) as [y0|] eqn:Ey0; cbn [bind]; [|discriminate].
    destruct (type_is s0 "slow" && _) eqn:Eslow.
    + apply IH. exists s. split; [|exact Hb].
      destruct Hin as [->|Hin]; [|exact Hin].
      rewrite (type_is_no_entry_not_slow s Hty) in Eslow. discriminate.
    + destruct (type_is s0 "no_entry" && _ && _) eqn:Estop; [discriminate|].
      apply IH. exists s. split; [|exact Hb].
      destruct Hin as [->|Hin]; [|exact Hin].
      assert (x0 = x) by congruence. assert (y0 = y) by congruence. subst x0 y0.
      unfold type_is in Estop. rewrite Hty in Estop. cbn [String.eqb] in Estop.
      apply Qltb_lt in Hdot, Hdist. rewrite Hdot, Hdist in Estop.
      vm_compute in Estop. discriminate.
Qed.

(** C8.  A car that is not finished and has an edge left, with a
    [no_entry] symbol ahead of it (positive dot product with the direction
    of travel) and closer than 50: whatever else the update does (to the
    registry, to the held reservation), and however it ends, it leaves
    the position, the progress, the edge index and the finished flag of
    the car as they were. *)
Theorem no_entry_aborts_motion :
  forall (sim : Simulator) (self : Car) (dt : Q)
         (a : Vector2) (edge_len : Q) (dir_vec : Vector2) (s : symbol),
    car_finished self = false ->
    (car_edge_idx self + 1 < List.length (car_path self))%nat ->
    edge_geometry hypot (sim_nodes sim) self = Ok (a, edge_len, dir_vec) ->
    In s (sim_symbols sim) ->
    blocks hypot self dir_vec s ->
    let self' := fst (fst (Car_update hypot sim self dt)) in
    car_pos self' = car_pos self /\
    car_progress self' = car_progress self /\
    car_edge_idx self' = car_edge_idx self /\
    car_finished self' = car_finished self.
Proof.
  intros sim self dt a edge_len dir_vec s Hfin Hidx Hgeo Hin Hblock.
  unfold Car_update. rewrite Hfin.
  destruct (Nat.leb_spec (List.length (car_path self)) (car_edge_idx self + 1)); [lia|].
  rewrite Hgeo.
  destruct (lights_loop hypot self dir_vec 0 (sim_lights sim) _) as [v res].
  destruct res as [[]|e|]; cbn [fst]; try (repeat split; cbn; congruence).
  destruct (release hypot self (sim_lights sim) (lv_occupied v) (lv_target v))
    as [occupied target].
  pose proof (symbols_loop_blocked (set_target self target) dir_vec (sim_symbols sim)
                (ex_intro _ s (conj Hin Hblock)) (lv_max_speed v)) as Hsym.
  destruct (symbols_loop hypot (set_target self target) dir_vec (sim_symbols sim)
              (lv_max_speed v)) as [[max_speed|]|e|];
    [destruct (Hsym max_speed eq_refl)|cbn [fst]; repeat split; cbn; congruence..].
Qed.

End Step.

(** Car 2 on the closed road: the [no_entry] symbol 20 ahead stops it. *)
Lemma no_entry_aborts_motion_witness :
  let self' := fst (fst (Car_update hypot6 closed_road car2 (1 # 60))) in
  car_pos self' = car_pos car2 /\
  car_progress self' = car_progress car2 /\
  car_edge_idx self' = car_edge_idx car2 /\
  car_finished self' = car_finished car2.
Proof.
  apply (no_entry_aborts_motion hypot6 closed_road car2 (1 # 60)
           {| vx := 0; vy := 200 # 2 |} 100 {| vx := 200 # 200; vy := 0 # 400 |}
           {| s_x := Some 110; s_y := Some 100; s_type := Some "no_entry"%string |}).
  - reflexivity.
  - simpl. lia.
  - vm_compute. reflexivity.
  - now left.
  - exists 110, 100. split; [reflexivity|]. split; [reflexivity|].
    split; [reflexivity|]. split; vm_compute; reflexivity.
Defined.

(** *** The code at the inputs where it departs from its description *)

(** C1, the code at a failing input.  In [crossing] the light (index 0)
    is reserved by car 1; it is green for car 2, which drives east, and
    30 ahead of car 2, inside the acquisition radius of 40.  The update of
    car 2 returns with the speed clamped to 0 (progress and position are
    unchanged) and with the reservation assigned to car 2: the registry no
    longer maps the light to car 1. *)
Lemma update_takes_reservation :
  dict_get 0%nat (sim_occupied crossing) = Some (car_id car1) /\
  car_id car2 <> car_id car1 /\
  match edge_geometry hypot6 (sim_nodes crossing) car2 with
  | Ok (_, _, dir_vec) =>
      TrafficLight_is_green_for (light_6_4 0) dir_vec = Ok true /\
      0 < vdot (vsub {| vx := 120; vy := 100 |} (car_pos car2)) dir_vec
  | _ => False
  end /\
  vlength hypot6 (vsub {| vx := 120; vy := 100 |} (car_pos car2)) == 30 /\
  snd (Car_update hypot6 crossing car2 (1 # 60)) = Ok tt /\
  snd (fst (Car_update hypot6 crossing car2 (1 # 60))) = [(0%nat, car_id car2)] /\
  car_intersection_target (fst (fst (Car_update hypot6 crossing car2 (1 # 60))))
  = Some 0%nat /\
  car_progress (fst (fst (Car_update hypot6 crossing car2 (1 # 60))))
  == car_progress car2 /\
  vx (car_pos (fst (fst (Car_update hypot6 crossing car2 (1 # 60))))) == vx (car_pos car2) /\
  vy (car_pos (fst (fst (Car_update hypot6 crossing car2 (1 # 60))))) == vy (car_pos car2).
Proof.
  split; [reflexivity|]. split; [discriminate|].
  split; [vm_compute; split; reflexivity|].
  split; [vm_compute; reflexivity|]. split; [vm_compute; reflexivity|].
  split; [vm_compute; reflexivity|]. split; [vm_compute; reflexivity|].
  split; [vm_compute; reflexivity|]. split; vm_compute; reflexivity.
Qed.

(** C2, the code at a failing input.  Two hubs at the same place and no
    road: the second hub snaps to the first, at distance 0, and both end
    with one edge. *)
Lemma build_graph_snaps_hub_to_hub :
  build_graph hypot6 twin_hubs hub_snap_dist_default
  = ([(NInt 1, (500, 500)); (NInt 2, (500, 500))],
     [(NInt 1, [(NInt 2, 0)]); (NInt 2, [(NInt 1, 0)])]).
Proof. vm_compute. reflexivity. Qed.

(** C9, the code at a failing input.  In the graph of [tie_map] hub 9 is
    isolated.  The route from hub 2 to hub 9 pushes the entries of the
    road node [r1_L] and of hub 3 with the same cost 50; the heap compares
    their ids, a string and an int, and [find_path] raises [TypeError],
    which [spawn_car] lets through. *)
Lemma find_path_isolated_goal_raises :
  dict_mem (NInt 9) (sim_edges tie_sim) = true /\
  adj (NInt 9) (sim_edges tie_sim) = [] /\
  adj (NStr "r1_M") (sim_edges tie_sim)
  = [(NStr "r1_L", 50); (NStr "r1_R", 50); (NInt 2, 0); (NInt 3, 50)] /\
  (forall fuel, (3 <= fuel)%nat ->
     find_path fuel (sim_edges tie_sim) (NInt 2) (NInt 9) None = Raise TypeError /\
     Simulator_spawn_car fuel 0 tie_sim (NInt 2) (NInt 9) = Raise TypeError).
Proof.
  split; [vm_compute; reflexivity|]. split; [vm_compute; reflexivity|].
  split; [vm_compute; reflexivity|].
  intros fuel Hf.
  assert (E : find_path fuel (sim_edges tie_sim) (NInt 2) (NInt 9) None = Raise TypeError).
  { rewrite (find_path_fuel (sim_edges tie_sim) None (NInt 2) (NInt 9) 3 fuel Hf);
      [vm_compute; reflexivity|]. vm_compute. discriminate. }
  split; [exact E|]. unfold Simulator_spawn_car. now rewrite E.
Qed.

(** The edge map of [tie_map]: hubs 2 and 3 are joined to the road node
    [r1_M], the node nearest to each, and hub 9 to nothing. *)
Lemma tie_sim_edges :
  sim_edges tie_sim
  = [(NStr "r1_L", [(NStr "r1_M", 50)]);
     (NStr "r1_M", [(NStr "r1_L", 50); (NStr "r1_R", 50); (NInt 2, 0); (NInt 3, 50)]);
     (NStr "r1_R", [(NStr "r1_M", 50)]); (NInt 2, [(NStr "r1_M", 0)]);
     (NInt 3, [(NStr "r1_M", 50)]); (NInt 9, [])].
Proof. vm_compute. reflexivity. Qed.

Lemma tie_sim_weights (u v : node_id) (w : Q) :
  In (v, w) (adj u (sim_edges tie_sim)) -> 0 <= w /\ (v = NInt 3 -> w = 50).
Proof.
  rewrite tie_sim_edges. unfold adj. cbn [dict_get].
  repeat (destruct (eqb _ u); [cbn [In]; intros H; split;
    [repeat (destruct H as [H|H]; [injection H as <- <-; lra|]); destruct H
    |repeat (destruct H as [H|H]; [injection H as <- <-; congruence|]); destruct H]|]).
  intros [].
Qed.

Lemma tie_sim_walk_nonneg (start : node_id) (p : list node_id) (n : node_id) (c : Q) :
  walk (sim_edges tie_sim) None start p n c -> 0 <= c.
Proof.
  induction 1 as [|p u c v w _ IH Hin]; [lra|].
  destruct (tie_sim_weights u v w Hin) as [Hw _]. cbn [traffic]. lra.
Qed.

(** C4, the code at a failing input.  In the graph of [tie_map] the walk
    from hub 2 over the road node [r1_M] to hub 3 costs 50, and no walk
    from hub 2 to hub 3 costs less: it is the minimum-cost path.  The
    route from hub 2 to hub 3 pushes the entries of the road node [r1_L]
    and of hub 3 with the same cost 50; the heap compares their ids, a
    string and an int, and [find_path] raises [TypeError] instead of
    returning the path, which [spawn_car] lets through. *)
Lemma find_path_connected_hubs_raises :
  (exists c, walk (sim_edges tie_sim) None (NInt 2)
               [NInt 2; NStr "r1_M"; NInt 3] (NInt 3) c /\ c == 50) /\
  (forall p c, walk (sim_edges tie_sim) None (NInt 2) p (NInt 3) c -> 50 <= c) /\
  (forall fuel, (2 <= fuel)%nat ->
     find_path fuel (sim_edges tie_sim) (NInt 2) (NInt 3) None = Raise TypeError /\
     Simulator_spawn_car fuel 0 tie_sim (NInt 2) (NInt 3) = Raise TypeError).
Proof.
  split; [|split].
  - exists (0 + 0 + traffic None (NInt 2) (NStr "r1_M") * 10
            + 50 + traffic None (NStr "r1_M") (NInt 3) * 10). split.
    + change [NInt 2; NStr "r1_M"; NInt 3]
        with (([NInt 2] ++ [NStr "r1_M"]) ++ [NInt 3]).
      apply walk_step; [apply walk_step; [apply walk_start|]|];
        rewrite tie_sim_edges; cbn; auto.
    + cbn [traffic]. lra.
  - intros p c Hw. inversion Hw as [E1 E2 E3|q u c0 v w Hq Hin E1 E2 E3].
    destruct (tie_sim_weights u (NInt 3) w Hin) as [_ Hw50].
    pose proof (tie_sim_walk_nonneg _ _ _ _ Hq) as H0.
    rewrite (Hw50 eq_refl). cbn [traffic]. lra.
  - intros fuel Hf.
    assert (E : find_path fuel (sim_edges tie_sim) (NInt 2) (NInt 3) None = Raise TypeError).
    { rewrite (find_path_fuel (sim_edges tie_sim) None (NInt 2) (NInt 3) 2 fuel Hf);
        [vm_compute; reflexivity|]. vm_compute. discriminate. }
    split; [exact E|]. unfold Simulator_spawn_car. now rewrite E.
Qed.

(** X8.  What holds of an isolated hub.  A route that starts at a node
    with an empty adjacency list, to another node of the edge map, is
    reported unreachable in the first pass of the loop: [find_path]
    returns [None] and raises nothing, whatever the rest of the graph. *)
Lemma find_path_isolated_start (edges : edges_t) (start_id goal_id : node_id)
  (tc : option traffic_t) (fuel : nat) :
  dict_mem start_id edges = true -> dict_mem goal_id edges = true ->
  adj start_id edges = [] -> start_id <> goal_id ->
  find_path (S fuel) edges start_id goal_id tc = Ok None.
Proof.
  intros Hs Hg Hiso Hne. unfold find_path. rewrite Hs, Hg. cbn.
  destruct (node_eqb_spec start_id goal_id) as [E|_]; [contradiction|].
  rewrite Hiso. cbn. now destruct fuel.
Qed.

(** In a symmetric edge map, a route that starts or ends at an isolated
    hub is not found, so no car is spawned. *)
Lemma walk_from_isolated (edges : edges_t) (tc : option traffic_t)
  (start : node_id) (p : list node_id) (n : node_id) (c : Q) :
  adj start edges = [] -> walk edges tc start p n c -> n = start.
Proof.
  intros Hiso Hw. induction Hw as [|p u c v w Hw IH Hin]; [reflexivity|].
  rewrite IH, Hiso in Hin. destruct Hin.
Qed.

Lemma walk_to_isolated (edges : edges_t) (tc : option traffic_t)
  (start : node_id) (p : list node_id) (n : node_id) (c : Q) :
  symmetric edges -> adj n edges = [] -> walk edges tc start p n c -> n = start.
Proof.
  intros Hsym Hiso Hw. destruct Hw as [|p u c v w Hw Hin]; [reflexivity|].
  apply Hsym in Hin. rewrite Hiso in Hin. destruct Hin.
Qed.

(** X9.  In a symmetric edge map [spawn_car] never adds a car whose
    start or end has an empty adjacency list, as a hub farther than the
    snapping distance from every node has. *)
Lemma isolated_hub_never_spawns (fuel : nat) (jitter : Q) (sim : Simulator)
  (start_id end_id : node_id) :
  symmetric (sim_edges sim) ->
  adj start_id (sim_edges sim) = [] \/ adj end_id (sim_edges sim) = [] ->
  forall sim', Simulator_spawn_car fuel jitter sim start_id end_id <> Ok (true, sim').
Proof.
  intros Hsym Hiso sim' Hspawn.
  pose proof (find_path_spec (sim_edges sim) None start_id end_id fuel) as Hspec.
  unfold Simulator_spawn_car in Hspawn.
  destruct (find_path fuel (sim_edges sim) start_id end_id None) as [[p|]| |];
    cbn [bind] in Hspawn; try discriminate.
  destruct Hspec as (_ & _ & c & Hw & _).
  assert (E : end_id = start_id).
  { destruct Hiso as [H|H].
    - now apply (walk_from_isolated _ _ _ _ _ _ H Hw).
    - now apply (walk_to_isolated _ _ _ _ _ _ Hsym H Hw). }
  subst end_id.
  assert (Hp : p = [start_id]).
  { destruct Hiso as [H|H].
    - clear Hspawn. remember start_id as g eqn:Eg in Hw at 2.
      destruct Hw as [|p u c v w Hw Hin]; [reflexivity|].
      pose proof (walk_from_isolated _ _ _ _ _ _ H Hw) as ->.
      rewrite H in Hin. destruct Hin.
    - clear Hspawn. remember start_id as g eqn:Eg in Hw at 2.
      destruct Hw as [|p u c v w Hw Hin]; [reflexivity|]. subst v.
      apply Hsym in Hin. rewrite H in Hin. destruct Hin. }
  subst p. cbn in Hspawn. discriminate.
Qed.

End SimFacts.
(** ** More on the graph builder *)
Module GraphMore.
Import Py PyFacts map_utils simulator Notions Examples GraphFacts.
Local Open Scope Q_scope.
#[local] Hint Resolve key_set_same key_set_other : graph.

(** *** Overlap of two rectangles *)

(** X1.  When [_rect_overlap a b] returns a rectangle, it has a positive
    width and height and is the intersection of the two rectangles: a
    point lies in it exactly when it lies in both. *)
Theorem rect_overlap_is_intersection (a b : road) (ov : rect) :
  _rect_overlap a b = Some ov ->
  0 < ov_w ov /\ 0 < ov_h ov /\
  forall px py, in_rect ov px py <-> in_road a px py /\ in_road b px py.
Proof.
  unfold _rect_overlap.
  destruct (Qltb _ _) eqn:Ex; [|discriminate].
  destruct (Qltb (Qmax (r_y a) (r_y b)) _) eqn:Ey; [|discriminate].
  cbn [andb]. intros E. injection E as E. subst ov. cbn [ov_x ov_y ov_w ov_h].
  apply Qltb_lt in Ex, Ey.
  split; [lra|]. split; [lra|].
  intros px py. unfold in_rect, in_road. cbn [ov_x ov_y ov_w ov_h].
  setoid_replace (Qmax (r_x a) (r_x b) +
                  (Qmin (r_x a + r_w a) (r_x b + r_w b) - Qmax (r_x a) (r_x b)))
    with (Qmin (r_x a + r_w a) (r_x b + r_w b)) by ring.
  setoid_replace (Qmax (r_y a) (r_y b) +
                  (Qmin (r_y a + r_h a) (r_y b + r_h b) - Qmax (r_y a) (r_y b)))
    with (Qmin (r_y a + r_h a) (r_y b + r_h b)) by ring.
  rewrite !Q.max_lub_iff, !Q.min_glb_iff. tauto.
Qed.

Lemma rect_overlap_is_intersection_witness :
  0 < 20 /\ 0 < 20 /\
  forall px py,
    in_rect {| ov_x := 110; ov_y := 90; ov_w := 130 - 110; ov_h := 110 - 90 |} px py <->
    in_road {| r_id := 1; r_x := 0; r_y := 90; r_w := 200; r_h := 20; r_type := None |}
      px py /\
    in_road {| r_id := 2; r_x := 110; r_y := 0; r_w := 20; r_h := 200; r_type := None |}
      px py.
Proof.
  exact (rect_overlap_is_intersection
           {| r_id := 1; r_x := 0; r_y := 90; r_w := 200; r_h := 20; r_type := None |}
           {| r_id := 2; r_x := 110; r_y := 0; r_w := 20; r_h := 200; r_type := None |}
           {| ov_x := 110; ov_y := 90; ov_w := 130 - 110; ov_h := 110 - 90 |}
           eq_refl).
Defined.

(** X2.  [_rect_overlap a b] returns [None] exactly when no point lies
    strictly inside both rectangles: rectangles that only touch along a
    side or at a corner do not overlap. *)
Theorem rect_overlap_none_iff_disjoint (a b : road) :
  _rect_overlap a b = None <->
  ~ exists px py, inside_road a px py /\ inside_road b px py.
Proof.
  unfold _rect_overlap, inside_road. split.
  - destruct (Qltb _ _) eqn:Ex; cbn [andb].
    + destruct (Qltb (Qmax (r_y a) (r_y b)) _) eqn:Ey; [intros E; discriminate E|]. intros _ (px & py & Ha & Hb).
      apply Qltb_false in Ey. apply Q.min_le_iff in Ey.
      destruct Ey as [Ey|Ey]; apply Q.max_le_iff in Ey; destruct Ey; lra.
    + intros _ (px & py & Ha & Hb).
      apply Qltb_false in Ex. apply Q.min_le_iff in Ex.
      destruct Ex as [Ex|Ex]; apply Q.max_le_iff in Ex; destruct Ex; lra.
  - intros H.
    destruct (Qltb _ _) eqn:Ex; cbn [andb]; [|reflexivity].
    destruct (Qltb (Qmax (r_y a) (r_y b)) _) eqn:Ey; [|reflexivity].
    exfalso. apply H. apply Qltb_lt in Ex, Ey.
    exists ((Qmax (r_x a) (r_x b) + Qmin (r_x a + r_w a) (r_x b + r_w b)) * (1 # 2)).
    exists ((Qmax (r_y a) (r_y b) + Qmin (r_y a + r_h a) (r_y b + r_h b)) * (1 # 2)).
    pose proof (Q.le_max_l (r_x a) (r_x b)). pose proof (Q.le_max_r (r_x a) (r_x b)).
    pose proof (Q.le_max_l (r_y a) (r_y b)). pose proof (Q.le_max_r (r_y a) (r_y b)).
    pose proof (Q.le_min_l (r_x a + r_w a) (r_x b + r_w b)).
    pose proof (Q.le_min_r (r_x a + r_w a) (r_x b + r_w b)).
    pose proof (Q.le_min_l (r_y a + r_h a) (r_y b + r_h b)).
    pose proof (Q.le_min_r (r_y a + r_h a) (r_y b + r_h b)).
    repeat apply conj; lra.
Qed.

(** *** Keys of the two maps *)

Lemma dict_keys_set_eq {K V : Type} {HK : PyEq K} (k : K) (v : V) (d : dict K V) :
  dict_keys (dict_set k v d) = if dict_mem k d then dict_keys d else dict_keys d ++ [k].
Proof.
  unfold dict_mem, dict_keys. induction d as [|[k' v'] d IH]; cbn; [reflexivity|].
  destruct (eqb_spec k' k) as [->|Hn]; cbn; [reflexivity|].
  rewrite IH. now destruct (dict_get k d).
Qed.

Lemma dict_set_NoDup {K V : Type} {HK : PyEq K} (k : K) (v : V) (d : dict K V) :
  NoDup (dict_keys d) -> NoDup (dict_keys (dict_set k v d)).
Proof.
  intros H. rewrite dict_keys_set_eq. destruct (dict_mem k d) eqn:E; [exact H|].
  apply NoDup_app; [exact H|repeat constructor; intros []|].
  intros x Hx [<-|[]]. apply dict_mem_keys in Hx. congruence.
Qed.

Lemma connect_NoDup (u v : node_id) (d : Q) (edges : edges_t) :
  NoDup (dict_keys edges) -> NoDup (dict_keys (connect u v d edges)).
Proof. intros H. unfold connect, edges_append. now do 2 apply dict_set_NoDup. Qed.

Lemma add_hub_fst (hypot : Q -> Q -> Q) (snap : Q) (st : nodes_t * edges_t) (h : hub) :
  fst (add_hub hypot snap st h) = dict_set (NInt (h_id h)) (h_x h, h_y h) (fst st).
Proof.
  destruct st as [nodes edges]. unfold add_hub.
  destruct (fold_left _ _ None) as [[n bd]|]; [|reflexivity].
  now destruct (Qle_bool bd snap).
Qed.

(** The edge map after a hub: its list emptied, then at most one
    connection. *)
Lemma add_hub_snd (hypot : Q -> Q -> Q) (snap : Q) (st : nodes_t * edges_t) (h : hub) :
  snd (add_hub hypot snap st h) = dict_set (NInt (h_id h)) [] (snd st) \/
  exists n bd, bd <= snap /\ n <> NInt (h_id h) /\
               In n (dict_keys (dict_set (NInt (h_id h)) (h_x h, h_y h) (fst st))) /\
               snd (add_hub hypot snap st h) =
               connect (NInt (h_id h)) n bd (dict_set (NInt (h_id h)) [] (snd st)).
Proof.
  destruct st as [nodes edges]. unfold add_hub. cbn [fst snd].
  destruct (fold_left _ _ None) as [[n bd]|] eqn:E; [|now left].
  destruct (Qle_bool bd snap) eqn:Eb; [|now left].
  right. exists n, bd. apply Qle_bool_iff in Eb.
  apply fold_hub_candidate_In in E. destruct E as [[E Hn]|E]; [|discriminate].
  repeat split; auto.
Qed.

(** The association lists [build_graph] returns stand for dictionaries:
    no key is listed twice, in the node map and in the edge map. *)
Lemma build_graph_unique_keys (hypot : Q -> Q -> Q) (md : mapdata) (snap : Q) :
  NoDup (dict_keys (fst (build_graph hypot md snap))) /\
  NoDup (dict_keys (snd (build_graph hypot md snap))).
Proof.
  rewrite build_graph_eq.
  pose (P := fun st : nodes_t * edges_t =>
               NoDup (dict_keys (fst st)) /\ NoDup (dict_keys (snd st))).
  assert (H : P (let '(nodes, edges) :=
                   intersections hypot (get_list (md_roads md))
                     (fold_left (add_road hypot) (get_list (md_roads md)) ([], []))
                 in (nodes, stitch_all hypot nodes edges))).
  { apply (roads_keep hypot P).
    - intros nodes edges u v d _ _ [Hn He]. split; [exact Hn|now apply connect_NoDup].
    - intros nodes edges n p _ [Hn He]. split; [now apply dict_set_NoDup|exact He].
    - split; constructor. }
  revert H. generalize (let '(nodes, edges) :=
                   intersections hypot (get_list (md_roads md))
                     (fold_left (add_road hypot) (get_list (md_roads md)) ([], []))
                 in (nodes, stitch_all hypot nodes edges)).
  induction (get_list (md_hubs md)) as [|h hubs IH]; intros st H; cbn [fold_left];
    [exact H|].
  apply IH. destruct H as [Hn He]. split.
  - rewrite add_hub_fst. now apply dict_set_NoDup.
  - destruct (add_hub_snd hypot snap st h) as [->|(n & bd & _ & _ & _ & ->)].
    + now apply dict_set_NoDup.
    + apply connect_NoDup. now apply dict_set_NoDup.
Qed.

(** X3.  In the maps [build_graph] returns, an entry of an adjacency list
    joins two known nodes: the node owning the list and the neighbour are
    both keys of the node map. *)
Theorem build_graph_neighbours_are_nodes (hypot : Q -> Q -> Q) (md : mapdata) (snap : Q)
  (u v : node_id) (w : Q) :
  In (v, w) (adj u (snd (build_graph hypot md snap))) ->
  dict_mem u (fst (build_graph hypot md snap)) = true /\
  dict_mem v (fst (build_graph hypot md snap)) = true.
Proof.
  intros H. destruct (build_graph_closed hypot snap md) as [Hk Hc]. split.
  - apply dict_mem_keys. apply Hk. unfold adj in H. unfold dict_mem.
    destruct (dict_get u _); [reflexivity|destruct H].
  - apply dict_mem_keys. exact (Hc u v w H).
Qed.

Lemma build_graph_neighbours_are_nodes_witness :
  In (NStr "r1_L", 0) (adj (NInt 3) (snd (build_graph hypot6 cross_map 80))) /\
  dict_mem (NInt 3) (fst (build_graph hypot6 cross_map 80)) = true /\
  dict_mem (NStr "r1_L") (fst (build_graph hypot6 cross_map 80)) = true.
Proof.
  assert (H : In (NStr "r1_L", 0) (adj (NInt 3) (snd (build_graph hypot6 cross_map 80)))).
  { vm_compute. tauto. }
  split; [exact H|].
  exact (build_graph_neighbours_are_nodes hypot6 cross_map 80 (NInt 3) (NStr "r1_L") 0 H).
Defined.

(** *** Roads *)

Lemma joined_connect (nodes : nodes_t) (edges : edges_t) (a b : node_id) (w : Q)
  (u v : node_id) (d : Q) :
  joined (nodes, edges) a b w -> joined (nodes, connect u v d edges) a b w.
Proof.
  unfold joined. cbn [fst snd]. intros (Ha & Hb & H1 & H2).
  repeat split; auto; apply adj_connect; now left.
Qed.

Lemma joined_new (nodes : nodes_t) (edges : edges_t) (u v : node_id) (d : Q) :
  In u (dict_keys nodes) -> In v (dict_keys nodes) ->
  joined (nodes, connect u v d edges) u v d.
Proof.
  unfold joined. cbn [fst snd]. intros Hu Hv.
  repeat split; auto; apply adj_connect; right; [left|right]; auto.
Qed.

Lemma joined_add_node (nodes : nodes_t) (edges : edges_t) (a b : node_id) (w : Q)
  (n : node_id) (p : point) :
  joined (nodes, edges) a b w -> joined (dict_set n p nodes, edges) a b w.
Proof.
  unfold joined. cbn [fst snd]. intros (Ha & Hb & H1 & H2).
  repeat split; auto with graph.
Qed.

Lemma joined_add_hub (hypot : Q -> Q -> Q) (snap : Q) (st : nodes_t * edges_t) (h : hub)
  (a b : node_id) (w : Q) :
  is_str a -> is_str b -> joined st a b w -> joined (add_hub hypot snap st h) a b w.
Proof.
  intros Hsa Hsb (Ha & Hb & H1 & H2). unfold joined. rewrite add_hub_fst.
  assert (Hadj : forall x e, is_str x -> In e (adj x (snd st)) ->
                             In e (adj x (snd (add_hub hypot snap st h)))).
  { intros x [y e] Hx Hin.
    assert (H0 : In (y, e) (adj x (dict_set (NInt (h_id h)) [] (snd st)))).
    { rewrite adj_dict_set. destruct (eqb_spec (NInt (h_id h)) x) as [<-|_];
        [destruct Hx|exact Hin]. }
    destruct (add_hub_snd hypot snap st h) as [->|(n & bd & _ & _ & _ & ->)];
      [exact H0|apply adj_connect; now left]. }
  repeat split; auto with graph.
Qed.

Lemma road_chain_keeps (hypot : Q -> Q -> Q) (r : road) (st st' : nodes_t * edges_t) :
  (forall a b w, is_str a -> is_str b -> joined st a b w -> joined st' a b w) ->
  road_chain hypot r st -> road_chain hypot r st'.
Proof.
  intros H. unfold road_chain. cbv zeta.
  destruct (Qle_bool (r_h r) (r_w r)); intros [H1 H2]; split; apply H; auto; exact I.
Qed.

Lemma add_road_chain (hypot : Q -> Q -> Q) (st : nodes_t * edges_t) (r : road) :
  road_chain hypot r (add_road hypot st r).
Proof.
  destruct st as [nodes edges]. unfold road_chain, add_road. cbv zeta.
  destruct (Qle_bool (r_h r) (r_w r)); split;
    try (apply joined_new; auto 6 with graph);
    apply joined_connect; apply joined_new; auto 6 with graph.
Qed.

(** X4.  Every road of the document has its three nodes in the node map
    [build_graph] returns, chained end, midpoint, end: [L], [M], [R] when
    the road is at least as wide as high, [T], [M], [B] otherwise, each
    link present in both directions with the distance of its two points. *)
Theorem build_graph_road_chain (hypot : Q -> Q -> Q) (md : mapdata) (snap : Q) (r : road) :
  In r (get_list (md_roads md)) ->
  road_chain hypot r (build_graph hypot md snap).
Proof.
  intros Hr. rewrite build_graph_eq.
  assert (H1 : road_chain hypot r
                 (fold_left (add_road hypot) (get_list (md_roads md)) ([], []))).
  { apply in_split in Hr. destruct Hr as (l1 & l2 & ->).
    rewrite fold_left_app. cbn [fold_left].
    apply (fold_keeps (road_chain hypot r)).
    - intros st a. apply (add_road_keeps hypot (road_chain hypot r)).
      + intros nodes edges u v d _ _. apply road_chain_keeps.
        intros a0 b0 w0 _ _. apply joined_connect.
      + intros nodes edges n p _. apply road_chain_keeps.
        intros a0 b0 w0 _ _. apply joined_add_node.
    - apply add_road_chain. }
  assert (H2 : road_chain hypot r
                 (let '(nodes, edges) :=
                    intersections hypot (get_list (md_roads md))
                      (fold_left (add_road hypot) (get_list (md_roads md)) ([], []))
                  in (nodes, stitch_all hypot nodes edges))).
  { pose proof (intersections_keeps hypot (road_chain hypot r)) as Hi.
    specialize (Hi ltac:(intros nodes edges u v d _ _; apply road_chain_keeps;
                         intros a0 b0 w0 _ _; apply joined_connect)
                   ltac:(intros nodes edges n p _; apply road_chain_keeps;
                         intros a0 b0 w0 _ _; apply joined_add_node)
                   (get_list (md_roads md)) _ H1).
    destruct (intersections hypot _ _) as [nodes edges].
    apply (stitch_all_keeps hypot (road_chain hypot r)).
    - intros nodes0 edges0 u v d _ _. apply road_chain_keeps.
      intros a0 b0 w0 _ _. apply joined_connect.
    - intros kv Hkv. now apply in_map.
    - exact Hi. }
  revert H2. generalize (let '(nodes, edges) :=
                    intersections hypot (get_list (md_roads md))
                      (fold_left (add_road hypot) (get_list (md_roads md)) ([], []))
                  in (nodes, stitch_all hypot nodes edges)).
  induction (get_list (md_hubs md)) as [|h hubs IH]; intros st H; cbn [fold_left];
    [exact H|].
  apply IH. revert H. apply road_chain_keeps. intros a b w. apply joined_add_hub.
Qed.

Lemma build_graph_road_chain_witness :
  road_chain hypot6 cross_road2 (build_graph hypot6 cross_map 80).
Proof.
  apply (build_graph_road_chain hypot6 cross_map 80 cross_road2).
  cbn. right. left. reflexivity.
Defined.

(** *** Hubs *)

Lemma add_hub_mem (hypot : Q -> Q -> Q) (snap : Q) (st : nodes_t * edges_t) (h : hub)
  (k : node_id) :
  k = NInt (h_id h) \/ dict_mem k (snd st) = true ->
  dict_mem k (snd (add_hub hypot snap st h)) = true.
Proof.
  intros H.
  assert (H0 : dict_mem k (dict_set (NInt (h_id h)) [] (snd st)) = true).
  { rewrite dict_mem_set. destruct H as [-> | ->]; [now rewrite eqb_refl|apply orb_true_r]. }
  destruct (add_hub_snd hypot snap st h) as [->|(n & bd & _ & _ & _ & ->)]; [exact H0|].
  apply dict_mem_connect. auto.
Qed.

Lemma hubs_keep (hypot : Q -> Q -> Q) (snap : Q) (hubs : list hub) :
  forall st z p,
    ~ In z (map h_id hubs) ->
    dict_get (NInt z) (fst st) = Some p -> dict_mem (NInt z) (snd st) = true ->
    dict_get (NInt z) (fst (fold_left (add_hub hypot snap) hubs st)) = Some p /\
    dict_mem (NInt z) (snd (fold_left (add_hub hypot snap) hubs st)) = true.
Proof.
  induction hubs as [|h hubs IH]; intros st z p Hz Hg Hm; cbn [fold_left]; [now split|].
  cbn [map In] in Hz. apply IH; [tauto| |].
  - rewrite add_hub_fst, dict_get_set.
    destruct (eqb_spec (NInt (h_id h)) (NInt z)) as [E|_]; [|exact Hg].
    injection E as E. tauto.
  - apply add_hub_mem. now right.
Qed.

(** X5.  When the hub ids of the document are pairwise distinct, every
    hub is a node of the graph [build_graph] returns, at the hub's own
    coordinates, and a key of the edge map, connected or not. *)
Theorem build_graph_places_hubs (hypot : Q -> Q -> Q) (md : mapdata) (snap : Q) (h : hub) :
  NoDup (map h_id (get_list (md_hubs md))) ->
  In h (get_list (md_hubs md)) ->
  dict_get (NInt (h_id h)) (fst (build_graph hypot md snap)) = Some (h_x h, h_y h) /\
  dict_mem (NInt (h_id h)) (snd (build_graph hypot md snap)) = true.
Proof.
  rewrite build_graph_eq.
  generalize (let '(nodes, edges) :=
                intersections hypot (get_list (md_roads md))
                  (fold_left (add_road hypot) (get_list (md_roads md)) ([], []))
              in (nodes, stitch_all hypot nodes edges)).
  induction (get_list (md_hubs md)) as [|h0 hubs IH]; intros st Hnd Hin; [destruct Hin|].
  cbn [map] in Hnd. apply NoDup_cons_iff in Hnd. destruct Hnd as [Hfresh Hnd].
  cbn [fold_left]. destruct Hin as [->|Hin]; [|now apply IH].
  apply hubs_keep; [exact Hfresh| |].
  - rewrite add_hub_fst. apply dict_get_set_eq.
  - apply add_hub_mem. now left.
Qed.

Lemma build_graph_places_hubs_witness :
  dict_get (NInt 9) (fst (build_graph hypot6 tie_map 80)) = Some (1000, 1000) /\
  dict_mem (NInt 9) (snd (build_graph hypot6 tie_map 80)) = true.
Proof.
  apply (build_graph_places_hubs hypot6 tie_map 80 (mk_hub 9 1000 1000)).
  - cbn. repeat constructor; cbn; intuition discriminate.
  - cbn. right. right. left. reflexivity.
Defined.

(** Before the hubs no node is an int. *)
Lemma roads_only_strings (hypot : Q -> Q -> Q) (roads : list road) :
  let st := (let '(nodes, edges) :=
               intersections hypot roads (fold_left (add_road hypot) roads ([], []))
             in (nodes, stitch_all hypot nodes edges)) in
  forall u v w, In (v, w) (adj u (snd st)) -> is_str u /\ is_str v.
Proof.
  pose (P := fun st : nodes_t * edges_t =>
               (forall n, In n (dict_keys (fst st)) -> is_str n) /\
               (forall u v w, In (v, w) (adj u (snd st)) -> is_str u /\ is_str v)).
  assert (H : P (let '(nodes, edges) :=
                   intersections hypot roads (fold_left (add_road hypot) roads ([], []))
                 in (nodes, stitch_all hypot nodes edges))).
  { apply (roads_keep hypot P).
    - intros nodes edges u v d Hu Hv [Hn He]. split; [exact Hn|].
      cbn [fst snd] in *. intros a b w H. apply adj_connect in H.
      destruct H as [H|[(-> & -> & _)|(-> & -> & _)]]; eauto.
    - intros nodes edges n p Hs [Hn He]. split; [|exact He].
      cbn [fst snd] in *. intros k Hk. apply dict_keys_set in Hk.
      destruct Hk as [->|Hk]; auto.
    - split; [intros n []|intros u v w []]. }
  exact (proj2 H).
Qed.

(** X6.  Every edge of the returned graph that touches a hub is at most
    [hub_snap_dist] long: a hub is never connected beyond the snapping
    distance. *)
Theorem build_graph_hub_edges_within_snap (hypot : Q -> Q -> Q) (md : mapdata) (snap : Q)
  (u v : node_id) (w : Q) :
  In (v, w) (adj u (snd (build_graph hypot md snap))) ->
  is_int u \/ is_int v ->
  w <= snap.
Proof.
  rewrite build_graph_eq.
  pose proof (roads_only_strings hypot (get_list (md_roads md))) as H0. cbv zeta in H0.
  assert (H : forall u v w,
             In (v, w) (adj u (snd (let '(nodes, edges) :=
                intersections hypot (get_list (md_roads md))
                  (fold_left (add_road hypot) (get_list (md_roads md)) ([], []))
              in (nodes, stitch_all hypot nodes edges)))) ->
             is_int u \/ is_int v -> w <= snap).
  { intros a b c Hin Hint. apply H0 in Hin. destruct a, b; cbn in *; tauto. }
  clear H0. revert H u v w.
  generalize (let '(nodes, edges) :=
                intersections hypot (get_list (md_roads md))
                  (fold_left (add_road hypot) (get_list (md_roads md)) ([], []))
              in (nodes, stitch_all hypot nodes edges)).
  induction (get_list (md_hubs md)) as [|h hubs IH]; intros st H; cbn [fold_left];
    [exact H|].
  apply IH. intros a b c Hin Hint.
  assert (H1 : forall a b c,
             In (b, c) (adj a (dict_set (NInt (h_id h)) [] (snd st))) ->
             is_int a \/ is_int b -> c <= snap).
  { intros a0 b0 c0 Hin0. rewrite adj_dict_set in Hin0.
    destruct (eqb (NInt (h_id h)) a0); [destruct Hin0|now apply H]. }
  destruct (add_hub_snd hypot snap st h) as [E|(n & bd & Hbd & _ & _ & E)];
    rewrite E in Hin; [now apply (H1 a b c)|].
  apply adj_connect in Hin.
  destruct Hin as [Hin|[(_ & _ & ->)|(_ & _ & ->)]]; [now apply (H1 a b c)|exact Hbd..].
Qed.

Lemma build_graph_hub_edges_within_snap_witness :
  In (NInt 3, 50) (adj (NStr "r1_M") (snd (build_graph hypot6 tie_map 80))) /\ 50 <= 80.
Proof.
  assert (H : In (NInt 3, 50) (adj (NStr "r1_M") (snd (build_graph hypot6 tie_map 80)))).
  { vm_compute. tauto. }
  split; [exact H|].
  exact (build_graph_hub_edges_within_snap hypot6 tie_map 80 (NStr "r1_M") (NInt 3) 50 H
           (or_intror I)).
Defined.

End GraphMore.
(** ** More on the router *)
Module RouterMore.
Import Py PyFacts map_utils simulator Notions Examples RouterFacts.
Local Open Scope Q_scope.

Lemma walk_follows_edges (edges : edges_t) (tc : option traffic_t) (start : node_id)
  (p : list node_id) (n : node_id) (c : Q) :
  walk edges tc start p n c -> follows_edges edges p.
Proof.
  induction 1 as [|p u c v w Hw IH Hin]; intros i a b Ha Hb.
  - destruct i; cbn in Hb; [discriminate|destruct i; discriminate].
  - destruct (walk_last edges tc start p u c Hw) as [q Hq].
    destruct (Nat.lt_ge_cases (S i) (List.length p)) as [Hlt|Hge].
    + rewrite nth_error_app1 in Ha, Hb by lia. exact (IH i a b Ha Hb).
    + assert (Hi : S i = List.length p).
      { apply Nat.le_antisymm; [|exact Hge].
        assert (Hsome : nth_error (p ++ [v]) (S i) <> None) by congruence.
        apply nth_error_Some in Hsome. rewrite length_app in Hsome. cbn in Hsome. lia. }
      rewrite nth_error_app2 in Hb by lia. rewrite Hi, Nat.sub_diag in Hb.
      cbn in Hb. injection Hb as <-.
      rewrite nth_error_app1 in Ha by lia. subst p.
      rewrite length_app in Hi. cbn in Hi.
      rewrite nth_error_app2 in Ha by lia.
      replace (i - List.length q)%nat with 0%nat in Ha by lia.
      cbn in Ha. injection Ha as <-. now exists w.
Qed.

Lemma find_path_route (fuel : nat) (edges : edges_t) (start goal : node_id)
  (tc : option traffic_t) (p : list node_id) :
  find_path fuel edges start goal tc = Ok (Some p) ->
  hd_error p = Some start /\ last p start = goal /\
  dict_mem start edges = true /\ dict_mem goal edges = true /\
  follows_edges edges p.
Proof.
  intros E. pose proof (find_path_spec edges tc start goal fuel) as H.
  rewrite E in H. destruct H as (Hs & Hg & c & Hw & _).
  destruct (walk_head edges tc start p goal c Hw) as [tl Hp].
  destruct (walk_last edges tc start p goal c Hw) as [q Hq].
  split; [now rewrite Hp|]. split; [rewrite Hq; apply last_last|].
  split; [exact Hs|]. split; [exact Hg|].
  exact (walk_follows_edges edges tc start p goal c Hw).
Qed.

(** X7.  Whatever the weights, the congestion counts and the number of
    loop passes allowed, a list [find_path] returns is a route of the
    map: it begins with the start, ends with the goal, both are keys of
    the edge map, and every two consecutive nodes are joined by an entry
    of the adjacency list of the first. *)
Theorem find_path_returns_route (fuel : nat) (edges : edges_t) (start goal : node_id)
  (tc : option traffic_t) (p : list node_id) :
  find_path fuel edges start goal tc = Ok (Some p) ->
  hd_error p = Some start /\ last p start = goal /\
  dict_mem start edges = true /\ dict_mem goal edges = true /\
  follows_edges edges p.
Proof. exact (find_path_route fuel edges start goal tc p). Qed.

Lemma find_path_returns_route_witness :
  hd_error [A; B; C] = Some A /\ last [A; B; C] A = C /\
  dict_mem A line_graph = true /\ dict_mem C line_graph = true /\
  follows_edges line_graph [A; B; C].
Proof.
  apply (find_path_returns_route 5 line_graph A C None [A; B; C]).
  vm_compute. reflexivity.
Defined.

End RouterMore.
(** ** More on the traffic light *)
Module LightMore.
Import Py PyFacts map_utils simulator Notions Examples.
Local Open Scope Q_scope.

Lemma Qfloor_unique (x : Q) (a : Z) :
  inject_Z a <= x -> x < inject_Z (a + 1) -> Qfloor x = a.
Proof.
  intros Hlo Hhi.
  pose proof (Qfloor_le x) as Flo. pose proof (Qlt_floor x) as Fhi.
  assert (H1 : (Qfloor x < a + 1)%Z).
  { rewrite Zlt_Qlt. eapply Qle_lt_trans; eassumption. }
  assert (H2 : (a < Qfloor x + 1)%Z).
  { rewrite Zlt_Qlt. eapply Qle_lt_trans; eassumption. }
  lia.
Qed.

Lemma Qfloor_add_Z (x : Q) (k : Z) : Qfloor (x + inject_Z k) = (Qfloor x + k)%Z.
Proof.
  apply Qfloor_unique.
  - rewrite inject_Z_plus. pose proof (Qfloor_le x). lra.
  - replace (Qfloor x + k + 1)%Z with ((Qfloor x + 1) + k)%Z by lia.
    rewrite (inject_Z_plus (Qfloor x + 1) k). pose proof (Qlt_floor x). lra.
Qed.

Lemma Qltb_comp (x x' y y' : Q) : x == x' -> y == y' -> Qltb x y = Qltb x' y'.
Proof. intros Hx Hy. unfold Qltb. now rewrite Hx, Hy. Qed.

(** X11.  The schedule of a light with a positive cycle: [s] seconds after
    the start of a cycle, [0 <= s < green + red], the light is green for
    horizontal travel when [s < green] and for vertical travel when
    [s >= green], whatever the number [k] of cycles elapsed before. *)
Theorem is_green_for_schedule (lt : TrafficLight) (k : Z) (s : Q) (d : Vector2) :
  0 <= s -> s < tl_green lt + tl_red lt ->
  tl_t lt == s + inject_Z k * (tl_green lt + tl_red lt) ->
  TrafficLight_is_green_for lt d =
  Ok (if horizontal d then Qltb s (tl_green lt) else Qle_bool (tl_green lt) s).
Proof.
  intros Hs0 Hs1 Ht. unfold TrafficLight_is_green_for, pymod.
  set (c := tl_green lt + tl_red lt) in *.
  assert (Hpos : 0 < c) by (eapply Qle_lt_trans; eassumption).
  assert (Hc : ~ c == 0) by (intros H; rewrite H in Hpos; discriminate Hpos).
  destruct (Qeq_bool c 0) eqn:E; [apply Qeq_bool_iff in E; contradiction|].
  cbn [bind].
  assert (Hq : tl_t lt / c == s / c + inject_Z k) by (rewrite Ht; field; exact Hc).
  assert (Hf : Qfloor (s / c) = 0%Z).
  { apply Qfloor_unique.
    - apply Qle_shift_div_l; [exact Hpos|]. change (inject_Z 0) with 0. lra.
    - apply Qlt_shift_div_r; [exact Hpos|]. change (inject_Z (0 + 1)) with 1. lra. }
  assert (Hr : tl_t lt - c * inject_Z (Qfloor (tl_t lt / c)) == s).
  { rewrite (Qfloor_comp _ _ Hq), Qfloor_add_Z, Hf, Ht. cbn [Z.add]. ring. }
  destruct (horizontal d).
  - now rewrite (Qltb_comp _ s (tl_green lt) (tl_green lt) Hr (Qeq_refl _)).
  - now rewrite Hr.
Qed.

(** With green 6 and red 4, 27 seconds are two cycles and 7 seconds: red
    for horizontal travel. *)
Lemma is_green_for_schedule_witness :
  TrafficLight_is_green_for (light_6_4 27) east = Ok false.
Proof.
  apply (is_green_for_schedule (light_6_4 27) 2 7 east);
    [lra|unfold light_6_4; cbn [tl_green tl_red]; lra|vm_compute; reflexivity].
Defined.

End LightMore.
(** ** The step of a car, continued *)
Module CarFacts.
Import Py PyFacts map_utils simulator Notions Examples.
Local Open Scope Q_scope.

(** Entries of a registry after a write and after a pop. *)
Lemma In_dict_set {K V : Type} {HK : PyEq K} (k : K) (v : V) (d : dict K V) (e : K * V) :
  In e (dict_set k v d) -> In e d \/ e = (k, v).
Proof.
  induction d as [|[k' v'] d IH]; cbn.
  - intros [<-|[]]. now right.
  - destruct (eqb_spec k' k) as [->|Hn]; cbn.
    + intros [<-|H]; [now right|left; now right].
    + intros [<-|H]; [left; now left|]. destruct (IH H); [left; now right|now right].
Qed.

Lemma In_dict_pop {K V : Type} {HK : PyEq K} (k : K) (d : dict K V) (e : K * V) :
  In e (dict_pop k d) -> In e d.
Proof.
  induction d as [|[k' v'] d IH]; cbn; [tauto|].
  destruct (eqb k' k); cbn; [now right|]. intros [<-|H]; [now left|right; auto].
Qed.

Section Update.
Variable hypot : Q -> Q -> Q.

(** *** What [update] leaves alone *)

Lemma move_keeps (nodes : nodes_t) (self : Car) (a dir_vec : Vector2) (edge_len : Q)
  (road_type : string) (max_speed dt : Q) :
  car_path (fst (move nodes self a dir_vec edge_len road_type max_speed dt))
  = car_path self /\
  car_id (fst (move nodes self a dir_vec edge_len road_type max_speed dt))
  = car_id self /\
  car_speed (fst (move nodes self a dir_vec edge_len road_type max_speed dt))
  = car_speed self /\
  car_radius (fst (move nodes self a dir_vec edge_len road_type max_speed dt))
  = car_radius self /\
  car_intersection_target (fst (move nodes self a dir_vec edge_len road_type max_speed dt))
  = car_intersection_target self.
Proof.
  unfold move. cbn [set_progress set_edge_idx car_path car_edge_idx car_progress].
  destruct (Qle_bool 1 _).
  - destruct (_ <=? _)%nat.
    + destruct (bind _ _); cbn; auto.
    + destruct (bind _ _); cbn; auto.
  - cbn. auto.
Qed.

Lemma update_keeps (sim : Simulator) (self : Car) (dt : Q) :
  car_path (updated_car hypot sim self dt) = car_path self /\
  car_id (updated_car hypot sim self dt) = car_id self /\
  car_speed (updated_car hypot sim self dt) = car_speed self /\
  car_radius (updated_car hypot sim self dt) = car_radius self.
Proof.
  unfold updated_car, Car_update.
  destruct (car_finished self); [cbn; auto|].
  destruct (_ <=? _)%nat; [cbn; auto|].
  destruct (edge_geometry _ _ _) as [[[a edge_len] dir_vec]|e|]; [|cbn; auto..].
  destruct (lights_loop _ _ _ _ _ _) as [v res].
  destruct res as [u|e|]; [|cbn; auto..].
  destruct (release _ _ _ _ _) as [occupied target].
  destruct (symbols_loop _ _ _ _ _) as [[max_speed|]|e|]; [|cbn; auto..].
  pose proof (move_keeps (sim_nodes sim) (set_target self target) a dir_vec edge_len
                (match Car_current_edge self with
                 | Some edge => Simulator_get_edge_type sim edge
                 | None => "small"%string
                 end) max_speed dt) as H.
  destruct (move _ _ _ _ _ _ _ _) as [self' res']. cbn [fst snd] in *.
  cbn [set_target car_path car_id car_speed car_radius] in H. tauto.
Qed.

(** X12.  [Car.update] never changes the route, the id, the cruising
    speed or the radius of the car, however the call ends. *)
Theorem Car_update_keeps_identity (sim : Simulator) (self : Car) (dt : Q) :
  car_path (updated_car hypot sim self dt) = car_path self /\
  car_id (updated_car hypot sim self dt) = car_id self /\
  car_speed (updated_car hypot sim self dt) = car_speed self /\
  car_radius (updated_car hypot sim self dt) = car_radius self.
Proof. exact (update_keeps sim self dt). Qed.

(** *** The registry *)

Lemma lights_loop_registry (self : Car) (dir_vec : Vector2) (lights : list TrafficLight) :
  forall i v k z,
    In (k, z) (lv_occupied (fst (lights_loop hypot self dir_vec i lights v))) ->
    In (k, z) (lv_occupied v) \/
    (z = car_id self /\ (i <= k < i + List.length lights)%nat).
Proof.
  induction lights as [|lt rest IH]; intros i v k z; cbn [lights_loop List.length].
  - cbn. now left.
  - destruct (_ && _).
    + destruct (TrafficLight_is_green_for lt dir_vec) as [g|e|]; [|cbn; now left..].
      destruct (g && _); intros H; apply IH in H; cbn [lv_occupied] in H.
      * destruct H as [H|[-> H]]; [|right; split; [reflexivity|lia]].
        apply In_dict_set in H. destruct H as [H|H]; [now left|].
        injection H as -> ->. right. split; [reflexivity|lia].
      * destruct H as [H|[-> H]]; [now left|right; split; [reflexivity|lia]].
    + intros H. apply IH in H.
      destruct H as [H|[-> H]]; [now left|right; split; [reflexivity|lia]].
Qed.

Lemma release_registry (self : Car) (lights : list TrafficLight) (occupied : occupied_t)
  (target : option nat) (e : nat * Z) :
  In e (fst (release hypot self lights occupied target)) -> In e occupied.
Proof.
  unfold release. destruct target as [i|]; [|cbn; auto].
  destruct (nth_error lights i) as [lt|]; [|cbn; auto].
  destruct (Qltb 60 _); [|cbn; auto]. cbn [fst].
  destruct (dict_get i occupied) as [owner|]; [|auto].
  destruct (Z.eqb owner (car_id self)); [apply In_dict_pop|auto].
Qed.

Lemma update_registry_entries (sim : Simulator) (self : Car) (dt : Q)
  (i : nat) (owner : Z) :
  In (i, owner) (updated_registry hypot sim self dt) ->
  In (i, owner) (sim_occupied sim) \/
  (owner = car_id self /\ (i < List.length (sim_lights sim))%nat).
Proof.
  unfold updated_registry, Car_update.
  destruct (car_finished self); [cbn; auto|].
  destruct (_ <=? _)%nat; [cbn; auto|].
  destruct (edge_geometry _ _ _) as [[[a edge_len] dir_vec]|e|]; [|cbn; auto..].
  pose proof (lights_loop_registry self dir_vec (sim_lights sim) 0
                {| lv_max_speed := following hypot (sim_cars sim) self dir_vec;
                   lv_occupied := sim_occupied sim;
                   lv_target := car_intersection_target self |} i owner) as HL.
  destruct (lights_loop _ _ _ _ _ _) as [v res]. cbn [fst snd lv_occupied] in HL.
  destruct res as [u|e|];
    [|cbn; intros H; destruct (HL H) as [|[? ?]]; [now left|right; split; [assumption|lia]]..].
  pose proof (release_registry self (sim_lights sim) (lv_occupied v) (lv_target v)
                (i, owner)) as HR.
  destruct (release _ _ _ _ _) as [occupied target]. cbn [fst] in HR.
  destruct (symbols_loop _ _ _ _ _) as [[max_speed|]|e|];
    [|cbn [fst snd]; intros H;
      destruct (HL (HR H)) as [|[? ?]]; [now left|right; split; [assumption|lia]]..].
  destruct (move _ _ _ _ _ _ _ _) as [self' res']. cbn [fst snd].
  intros H. destruct (HL (HR H)) as [|[? ?]]; [now left|right; split; [assumption|lia]].
Qed.

(** X13.  Whatever [Car.update] writes into the reservation registry is
    a reservation of the car itself, for a light of the simulator: an
    entry of the registry after the call either was there before or is
    held by the car that was updated. *)
Theorem Car_update_registers_only_itself (sim : Simulator) (self : Car) (dt : Q)
  (i : nat) (owner : Z) :
  In (i, owner) (updated_registry hypot sim self dt) ->
  In (i, owner) (sim_occupied sim) \/
  (owner = car_id self /\ (i < List.length (sim_lights sim))%nat).
Proof. exact (update_registry_entries sim self dt i owner). Qed.

(** *** The remembered light *)

Lemma lights_loop_own (self : Car) (dir_vec : Vector2) (lights : list TrafficLight) :
  forall i v j,
    dict_get j (lv_occupied v) = Some (car_id self) ->
    dict_get j (lv_occupied (fst (lights_loop hypot self dir_vec i lights v)))
    = Some (car_id self).
Proof.
  induction lights as [|lt rest IH]; intros i v j H; cbn [lights_loop]; [exact H|].
  destruct (_ && _); [|now apply IH].
  destruct (TrafficLight_is_green_for lt dir_vec) as [g|e|]; [|exact H..].
  destruct (g && _); apply IH; cbn [lv_occupied]; [|exact H].
  rewrite dict_get_set. now destruct (eqb i j).
Qed.

Lemma lights_loop_target (self : Car) (dir_vec : Vector2) (lights : list TrafficLight) :
  forall i v,
    lv_target (fst (lights_loop hypot self dir_vec i lights v)) = lv_target v \/
    exists j,
      lv_target (fst (lights_loop hypot self dir_vec i lights v)) = Some j /\
      (i <= j < i + List.length lights)%nat /\
      dict_get j (lv_occupied (fst (lights_loop hypot self dir_vec i lights v)))
      = Some (car_id self).
Proof.
  induction lights as [|lt rest IH]; intros i v; cbn [lights_loop List.length];
    [now left|].
  assert (Hskip : forall v1, lv_target v1 = lv_target v ->
            lv_target (fst (lights_loop hypot self dir_vec (S i) rest v1)) = lv_target v \/
            exists j,
              lv_target (fst (lights_loop hypot self dir_vec (S i) rest v1)) = Some j /\
              (i <= j < i + S (List.length rest))%nat /\
              dict_get j (lv_occupied (fst (lights_loop hypot self dir_vec (S i) rest v1)))
              = Some (car_id self)).
  { intros v1 E. destruct (IH (S i) v1) as [H|(j & Hj & Hr & Ho)].
    - left. congruence.
    - right. exists j. repeat split; auto; lia. }
  destruct (_ && _); [|now apply Hskip].
  destruct (TrafficLight_is_green_for lt dir_vec) as [g|e|]; [|now left..].
  destruct (g && _); [|now apply Hskip].
  right.
  destruct (IH (S i) {| lv_max_speed :=
                          match dict_get i (lv_occupied v) with
                          | Some owner =>
                              if negb (Z.eqb owner (car_id self)) &&
                                 Qltb (vlength hypot
                                         (vsub {| vx := tl_x lt; vy := tl_y lt |}
                                            (car_pos self))) 60
                              then 0
                              else if negb g &&
                                      Qltb (vlength hypot
                                              (vsub (vsub {| vx := tl_x lt; vy := tl_y lt |}
                                                       (vscale dir_vec 25))
                                                 (car_pos self))) 35
                                   then 0 else lv_max_speed v
                          | None =>
                              if negb g &&
                                 Qltb (vlength hypot
                                         (vsub (vsub {| vx := tl_x lt; vy := tl_y lt |}
                                                  (vscale dir_vec 25))
                                            (car_pos self))) 35
                              then 0 else lv_max_speed v
                          end;
                        lv_occupied := dict_set i (car_id self) (lv_occupied v);
                        lv_target := Some i |}) as [H|(j & Hj & Hr & Ho)].
  - exists i. split; [exact H|]. split; [lia|].
    apply lights_loop_own. cbn [lv_occupied]. apply dict_get_set_eq.
  - exists j. repeat split; auto; lia.
Qed.

Lemma release_cases (self : Car) (lights : list TrafficLight) (occupied : occupied_t)
  (target : option nat) :
  release hypot self lights occupied target = (occupied, target) \/
  snd (release hypot self lights occupied target) = None.
Proof.
  unfold release. destruct target as [i|]; [|now left].
  destruct (nth_error lights i); [|now left].
  destruct (Qltb 60 _); [now right|now left].
Qed.

(** X14.  When [Car.update] returns with the car remembering a light it
    did not remember before, the registry names the car as the holder of
    that light, and the light is one of the simulator's. *)
Theorem Car_update_owns_new_target (sim : Simulator) (self : Car) (dt : Q) (j : nat) :
  update_result hypot sim self dt = Ok tt ->
  car_intersection_target (updated_car hypot sim self dt) = Some j ->
  car_intersection_target self <> Some j ->
  dict_get j (updated_registry hypot sim self dt) = Some (car_id self) /\
  (j < List.length (sim_lights sim))%nat.
Proof.
  unfold update_result, updated_car, updated_registry, Car_update.
  destruct (car_finished self); [cbn; congruence|].
  destruct (_ <=? _)%nat; [cbn; congruence|].
  destruct (edge_geometry _ _ _) as [[[a edge_len] dir_vec]|e|]; [|cbn; congruence..].
  pose proof (lights_loop_target self dir_vec (sim_lights sim) 0
                {| lv_max_speed := following hypot (sim_cars sim) self dir_vec;
                   lv_occupied := sim_occupied sim;
                   lv_target := car_intersection_target self |}) as HL.
  destruct (lights_loop _ _ _ _ _ _) as [v res]. cbn [fst snd lv_target] in HL.
  destruct res as [u|e|]; [|cbn; congruence..].
  destruct (release_cases self (sim_lights sim) (lv_occupied v) (lv_target v)) as [HR|HR].
  - rewrite HR.
    assert (Hgoal : lv_target v = Some j -> car_intersection_target self <> Some j ->
                    dict_get j (lv_occupied v) = Some (car_id self) /\
                    (j < List.length (sim_lights sim))%nat).
    { intros Ht Hne. destruct HL as [HL|(j0 & Hj0 & Hr & Ho)]; [congruence|].
      assert (j0 = j) by congruence. subst j0. split; [exact Ho|lia]. }
    destruct (symbols_loop _ _ _ _ _) as [[max_speed|]|e|];
      [|cbn; intros _; exact Hgoal|cbn; discriminate..].
    pose proof (move_keeps (sim_nodes sim) (set_target self (lv_target v)) a dir_vec
                  edge_len
                  (match Car_current_edge self with
                   | Some edge => Simulator_get_edge_type sim edge
                   | None => "small"%string
                   end) max_speed dt) as (_ & _ & _ & _ & Hm).
    destruct (move _ _ _ _ _ _ _ _) as [self' res']. cbn [fst snd] in *.
    cbn [set_target car_intersection_target] in Hm. rewrite Hm. intros _. exact Hgoal.
  - destruct (release _ _ _ _ _) as [occupied target]. cbn [snd] in HR. subst target.
    destruct (symbols_loop _ _ _ _ _) as [[max_speed|]|e|]; [|cbn; congruence..].
    pose proof (move_keeps (sim_nodes sim) (set_target self None) a dir_vec
                  edge_len
                  (match Car_current_edge self with
                   | Some edge => Simulator_get_edge_type sim edge
                   | None => "small"%string
                   end) max_speed dt) as (_ & _ & _ & _ & Hm).
    destruct (move _ _ _ _ _ _ _ _) as [self' res']. cbn [fst snd] in *.
    cbn [set_target car_intersection_target] in Hm. rewrite Hm. congruence.
Qed.

(** *** Standing still *)

Lemma lights_loop_speed0 (self : Car) (dir_vec : Vector2) (lights : list TrafficLight) :
  forall i v,
    lv_max_speed v = 0 ->
    lv_max_speed (fst (lights_loop hypot self dir_vec i lights v)) = 0.
Proof.
  induction lights as [|lt rest IH]; intros i v H; cbn [lights_loop]; [exact H|].
  destruct (_ && _); [|now apply IH].
  destruct (TrafficLight_is_green_for lt dir_vec) as [g|e|]; [|exact H..].
  destruct (g && _); apply IH; cbn [lv_max_speed]; rewrite H;
    destruct (dict_get i (lv_occupied v)) as [owner|];
    repeat match goal with |- context [if ?c then _ else _] => destruct c end;
    reflexivity.
Qed.

Lemma symbols_loop_speed0 (self : Car) (dir_vec : Vector2) (symbols : list symbol) :
  forall max_speed,
    symbols_loop hypot self dir_vec symbols 0 = Ok (Some max_speed) -> max_speed = 0.
Proof.
  induction symbols as [|s rest IH]; intros ms; cbn [symbols_loop].
  - intros E. now injection E as <-.
  - destruct (subscript (s_x s)) as [x| |]; cbn [bind]; [|discriminate..].
    destruct (subscript (s_y s)) as [y| |]; cbn [bind]; [|discriminate..].
    destruct (_ && _); [apply IH|]. destruct (_ && _ && _); [discriminate|apply IH].
Qed.

Lemma move_stopped (nodes : nodes_t) (self : Car) (a dir_vec : Vector2) (edge_len : Q)
  (road_type : string) (dt : Q) :
  car_finished self = false -> car_progress self < 1 ->
  stays self (fst (move nodes self a dir_vec edge_len road_type 0 dt)) /\
  snd (move nodes self a dir_vec edge_len road_type 0 dt) = Ok tt.
Proof.
  intros Hf Hp. unfold move.
  cbn [set_progress set_edge_idx car_path car_edge_idx car_progress].
  assert (E : car_progress self + 0 * dt / edge_len == car_progress self).
  { unfold Qdiv. ring. }
  destruct (Qle_bool 1 _) eqn:Eb.
  - apply Qle_bool_iff in Eb. rewrite E in Eb. lra.
  - cbn. unfold stays. cbn. auto.
Qed.

Lemma edge_geometry_has_edge (nodes : nodes_t) (self : Car) (g : Vector2 * Q * Vector2) :
  edge_geometry hypot nodes self = Ok g ->
  (List.length (car_path self) <=? car_edge_idx self + 1)%nat = false.
Proof.
  unfold edge_geometry, list_item. intros H.
  destruct (nth_error (car_path self) (car_edge_idx self)); [|discriminate].
  cbn [bind] in H. destruct (dict_item _ nodes); [|discriminate..]. cbn [bind] in H.
  destruct (nth_error (car_path self) (car_edge_idx self + 1)) eqn:E; [|discriminate].
  apply Nat.leb_gt. apply nth_error_Some. congruence.
Qed.

(** The car stands still when the loop over the lights ends with a
    speed of 0. *)
Lemma update_stopped (sim : Simulator) (self : Car) (dt : Q) (a : Vector2) (edge_len : Q)
  (dir_vec : Vector2) :
  car_finished self = false ->
  edge_geometry hypot (sim_nodes sim) self = Ok (a, edge_len, dir_vec) ->
  car_progress self < 1 ->
  update_result hypot sim self dt = Ok tt ->
  lv_max_speed
    (fst (lights_loop hypot self dir_vec 0 (sim_lights sim)
            {| lv_max_speed := following hypot (sim_cars sim) self dir_vec;
               lv_occupied := sim_occupied sim;
               lv_target := car_intersection_target self |})) = 0 ->
  stays self (updated_car hypot sim self dt).
Proof.
  intros Hf Hg Hp. unfold update_result, updated_car, Car_update.
  rewrite Hf, (edge_geometry_has_edge _ _ _ Hg), Hg.
  destruct (lights_loop _ _ _ _ _ _) as [v res]. cbn [fst].
  destruct res as [u|e|]; [|cbn; discriminate..].
  destruct (release _ _ _ _ _) as [occupied target]. intros Hres H0. revert Hres.
  rewrite H0.
  pose proof (symbols_loop_speed0 (set_target self target) dir_vec (sim_symbols sim)) as H1.
  destruct (symbols_loop hypot (set_target self target) dir_vec (sim_symbols sim) 0)
    as [[max_speed|]|e|]; [|cbn; intros _|cbn; discriminate..].
  - rewrite (H1 max_speed eq_refl).
    pose proof (move_stopped (sim_nodes sim) (set_target self target) a dir_vec edge_len
                  (match Car_current_edge self with
                   | Some edge => Simulator_get_edge_type sim edge
                   | None => "small"%string
                   end) dt Hf Hp) as [Hs _].
    destruct (move _ _ _ _ _ _ _ _) as [self' res']. intros _. exact Hs.
  - unfold stays. cbn. split; [reflexivity|]. split; [reflexivity|exact Hf].
Qed.

Lemma update_result_lights (sim : Simulator) (self : Car) (dt : Q) (a : Vector2)
  (edge_len : Q) (dir_vec : Vector2) :
  car_finished self = false ->
  edge_geometry hypot (sim_nodes sim) self = Ok (a, edge_len, dir_vec) ->
  update_result hypot sim self dt = Ok tt ->
  snd (lights_loop hypot self dir_vec 0 (sim_lights sim)
         {| lv_max_speed := following hypot (sim_cars sim) self dir_vec;
            lv_occupied := sim_occupied sim;
            lv_target := car_intersection_target self |}) = Ok tt.
Proof.
  intros Hf Hg. unfold update_result, Car_update.
  rewrite Hf, (edge_geometry_has_edge _ _ _ Hg), Hg.
  destruct (lights_loop _ _ _ _ _ _) as [v res].
  destruct res as [[]|e|]; [reflexivity|cbn; discriminate..].
Qed.

Lemma lights_loop_red (self : Car) (dir_vec : Vector2) (lt : TrafficLight)
  (lights : list TrafficLight) :
  light_ahead hypot self dir_vec lt ->
  TrafficLight_is_green_for lt dir_vec = Ok false ->
  vlength hypot (vsub (vsub {| vx := tl_x lt; vy := tl_y lt |} (vscale dir_vec 25))
                   (car_pos self)) < 35 ->
  In lt lights ->
  forall i v,
    snd (lights_loop hypot self dir_vec i lights v) = Ok tt ->
    lv_max_speed (fst (lights_loop hypot self dir_vec i lights v)) = 0.
Proof.
  intros [Hd Ha] Hred Hstop. induction lights as [|lt0 rest IH]; intros Hin i v;
    [destruct Hin|].
  cbn [lights_loop]. destruct Hin as [->|Hin].
  - apply Qltb_lt in Hd, Ha, Hstop. rewrite Hd, Ha, Hred, Hstop. cbn [andb negb].
    intros _. apply lights_loop_speed0. cbn [lv_max_speed].
    destruct (dict_get i (lv_occupied v)) as [owner|]; [|reflexivity].
    now destruct (_ && _).
  - destruct (_ && _); [|now apply IH].
    destruct (TrafficLight_is_green_for lt0 dir_vec) as [g|e|]; [|cbn; discriminate..].
    destruct (g && _); now apply IH.
Qed.

(** X15.  A car whose update returns stands still when a light closer
    than 80 and ahead is red for its direction and the stop point, 25
    before the light, is closer than 35: it keeps its edge and its
    progress along it. *)
Theorem Car_update_stops_at_red (sim : Simulator) (self : Car) (dt : Q) (a : Vector2)
  (edge_len : Q) (dir_vec : Vector2) (lt : TrafficLight) :
  car_finished self = false ->
  edge_geometry hypot (sim_nodes sim) self = Ok (a, edge_len, dir_vec) ->
  car_progress self < 1 ->
  In lt (sim_lights sim) ->
  light_ahead hypot self dir_vec lt ->
  TrafficLight_is_green_for lt dir_vec = Ok false ->
  vlength hypot (vsub (vsub {| vx := tl_x lt; vy := tl_y lt |} (vscale dir_vec 25))
                   (car_pos self)) < 35 ->
  update_result hypot sim self dt = Ok tt ->
  stays self (updated_car hypot sim self dt).
Proof.
  intros Hf Hg Hp Hin Hah Hred Hstop Hres.
  apply (update_stopped sim self dt a edge_len dir_vec Hf Hg Hp Hres).
  apply (lights_loop_red self dir_vec lt (sim_lights sim) Hah Hred Hstop Hin).
  exact (update_result_lights sim self dt a edge_len dir_vec Hf Hg Hres).
Qed.

Lemma lights_loop_reserved (self : Car) (dir_vec : Vector2) (lt : TrafficLight)
  (owner : Z) (lights : list TrafficLight) :
  light_ahead hypot self dir_vec lt ->
  owner <> car_id self ->
  vlength hypot (vsub {| vx := tl_x lt; vy := tl_y lt |} (car_pos self)) < 60 ->
  forall k i v,
    nth_error lights k = Some lt ->
    dict_get (i + k)%nat (lv_occupied v) = Some owner ->
    snd (lights_loop hypot self dir_vec i lights v) = Ok tt ->
    lv_max_speed (fst (lights_loop hypot self dir_vec i lights v)) = 0.
Proof.
  intros [Hd Ha] Hown Hnear. induction lights as [|lt0 rest IH]; intros k i v Hk Hget;
    [destruct k; discriminate|].
  cbn [lights_loop]. destruct k as [|k].
  - cbn in Hk. injection Hk as ->. rewrite Nat.add_0_r in Hget.
    apply Qltb_lt in Hd, Ha, Hnear. rewrite Hd, Ha, Hget, Hnear. cbn [andb].
    destruct (Z.eqb_spec owner (car_id self)) as [E|_]; [contradiction|]. cbn [negb].
    destruct (TrafficLight_is_green_for lt dir_vec) as [g|e|]; [|cbn; discriminate..].
    intros _. destruct (g && _); now apply lights_loop_speed0.
  - cbn in Hk. rewrite Nat.add_succ_r in Hget.
    destruct (_ && _); [|now apply (IH k (S i))].
    destruct (TrafficLight_is_green_for lt0 dir_vec) as [g|e|]; [|cbn; discriminate..].
    destruct (g && _); apply (IH k (S i)); auto.
    cbn [lv_occupied]. rewrite dict_get_set_neq; [exact Hget|].
    intros E. cbn in E. lia.
Qed.

(** X16.  A car whose update returns stands still when a light closer
    than 60 and ahead is registered to another car: it keeps its edge
    and its progress along it. *)
Theorem Car_update_waits_for_holder (sim : Simulator) (self : Car) (dt : Q) (a : Vector2)
  (edge_len : Q) (dir_vec : Vector2) (i : nat) (lt : TrafficLight) (owner : Z) :
  car_finished self = false ->
  edge_geometry hypot (sim_nodes sim) self = Ok (a, edge_len, dir_vec) ->
  car_progress self < 1 ->
  nth_error (sim_lights sim) i = Some lt ->
  light_ahead hypot self dir_vec lt ->
  vlength hypot (vsub {| vx := tl_x lt; vy := tl_y lt |} (car_pos self)) < 60 ->
  dict_get i (sim_occupied sim) = Some owner ->
  owner <> car_id self ->
  update_result hypot sim self dt = Ok tt ->
  stays self (updated_car hypot sim self dt).
Proof.
  intros Hf Hg Hp Hi Hah Hnear Hget Hown Hres.
  apply (update_stopped sim self dt a edge_len dir_vec Hf Hg Hp Hres).
  apply (lights_loop_reserved self dir_vec lt owner (sim_lights sim) Hah Hown Hnear i 0%nat);
    [exact Hi|exact Hget|].
  exact (update_result_lights sim self dt a edge_len dir_vec Hf Hg Hres).
Qed.

(** The scan for the leader. *)
Lemma follow_step_close (self : Car) (dir_vec : Vector2) (st : option Z * Q) (c : Car) :
  (fst st = None -> 25 <= snd st) ->
  (fst (follow_step hypot self dir_vec st c) = None ->
   25 <= snd (follow_step hypot self dir_vec st c)) /\
  (fst st <> None /\ snd st < 18 ->
   fst (follow_step hypot self dir_vec st c) <> None /\
   snd (follow_step hypot self dir_vec st c) < 18).
Proof.
  intros W. unfold follow_step.
  destruct (_ || _); [tauto|].
  destruct (_ && _); [|tauto].
  destruct (Qltb _ (snd st)) eqn:E; [|tauto].
  cbn [fst snd]. split; [discriminate|]. intros [_ H]. split; [discriminate|].
  apply Qltb_lt in E. lra.
Qed.

Lemma follow_fold_close (self : Car) (dir_vec : Vector2) (cars : list Car) :
  forall st,
    (fst st = None -> 25 <= snd st) ->
    (fst st <> None /\ snd st < 18) \/
    (exists other, In other cars /\ car_id other <> car_id self /\
                   car_finished other = false /\
                   vlength hypot (vsub (car_pos other) (car_pos self)) < 18 /\
                   0 < vdot (vsub (car_pos other) (car_pos self)) dir_vec) ->
    fst (fold_left (follow_step hypot self dir_vec) cars st) <> None /\
    snd (fold_left (follow_step hypot self dir_vec) cars st) < 18.
Proof.
  induction cars as [|c cars IH]; intros st W H; cbn [fold_left].
  - destruct H as [H|(other & [] & _)]. exact H.
  - destruct (follow_step_close self dir_vec st c W) as [W' K].
    apply IH; [exact W'|].
    destruct H as [H|(other & [->|Hin] & Hid & Hfin & Hd & Ha)].
    + left. now apply K.
    + left. clear K W'. unfold follow_step.
      destruct (Z.eqb_spec (car_id other) (car_id self)) as [E|_]; [contradiction|].
      rewrite Hfin. cbn [orb].
      assert (Hd25 : vlength hypot (vsub (car_pos other) (car_pos self)) < 25) by lra.
      apply Qltb_lt in Hd25, Ha. rewrite Hd25, Ha. cbn [andb].
      destruct (Qltb _ (snd st)) eqn:E.
      * cbn [fst snd]. split; [discriminate|exact Hd].
      * apply Qltb_false in E. split; [|lra].
        intros Hn. specialize (W Hn). lra.
    + right. exists other. auto.
Qed.

(** X17.  A car whose update returns stands still when another car of
    the simulator, not finished, is ahead of it and closer than 18: it
    keeps its edge and its progress along it. *)
Theorem Car_update_keeps_gap (sim : Simulator) (self : Car) (dt : Q) (a : Vector2)
  (edge_len : Q) (dir_vec : Vector2) (other : Car) :
  car_finished self = false ->
  edge_geometry hypot (sim_nodes sim) self = Ok (a, edge_len, dir_vec) ->
  car_progress self < 1 ->
  In other (sim_cars sim) ->
  car_id other <> car_id self ->
  car_finished other = false ->
  vlength hypot (vsub (car_pos other) (car_pos self)) < 18 ->
  0 < vdot (vsub (car_pos other) (car_pos self)) dir_vec ->
  update_result hypot sim self dt = Ok tt ->
  stays self (updated_car hypot sim self dt).
Proof.
  intros Hf Hg Hp Hin Hid Hfin Hd Ha Hres.
  apply (update_stopped sim self dt a edge_len dir_vec Hf Hg Hp Hres).
  apply lights_loop_speed0. cbn [lv_max_speed]. unfold following.
  pose proof (follow_fold_close self dir_vec (sim_cars sim) (None, 1000000000)) as H.
  destruct (fold_left _ _ _) as [leader min_gap]. cbn [fst snd] in H.
  destruct H as [Hl Hgap].
  - intros _. lra.
  - right. exists other. auto.
  - destruct leader; [|congruence]. apply Qltb_lt in Hgap. now rewrite Hgap.
Qed.

(** *** Progress along the edge *)

Lemma following_nonneg (cars : list Car) (self : Car) (dir_vec : Vector2) :
  0 <= car_speed self -> 0 <= following hypot cars self dir_vec.
Proof.
  intros H. unfold following.
  destruct (fold_left _ _ _) as [[leader|] min_gap]; [|exact H].
  destruct (Qltb min_gap 18); [lra|].
  destruct (Qltb min_gap 40); [|exact H].
  apply Q.min_glb; lra.
Qed.

Lemma lights_loop_nonneg (self : Car) (dir_vec : Vector2) (lights : list TrafficLight) :
  forall i v,
    0 <= lv_max_speed v ->
    0 <= lv_max_speed (fst (lights_loop hypot self dir_vec i lights v)).
Proof.
  induction lights as [|lt rest IH]; intros i v H; cbn [lights_loop]; [exact H|].
  destruct (_ && _); [|now apply IH].
  destruct (TrafficLight_is_green_for lt dir_vec) as [g|e|]; [|exact H..].
  destruct (g && _); apply IH; cbn [lv_max_speed];
    destruct (dict_get i (lv_occupied v)) as [owner|];
    repeat match goal with |- context [if ?c then _ else _] => destruct c end;
    lra.
Qed.

Lemma symbols_loop_nonneg (self : Car) (dir_vec : Vector2) (symbols : list symbol) :
  forall max_speed max_speed',
    0 <= max_speed ->
    symbols_loop hypot self dir_vec symbols max_speed = Ok (Some max_speed') ->
    0 <= max_speed'.
Proof.
  induction symbols as [|s rest IH]; intros ms ms' H; cbn [symbols_loop].
  - intros E. injection E as <-. exact H.
  - destruct (subscript (s_x s)) as [x| |]; cbn [bind]; [|discriminate..].
    destruct (subscript (s_y s)) as [y| |]; cbn [bind]; [|discriminate..].
    destruct (_ && _); [apply IH; apply Q.min_glb; lra|].
    destruct (_ && _ && _); [discriminate|now apply IH].
Qed.

Lemma edge_geometry_len_pos (nodes : nodes_t) (self : Car) (a : Vector2) (edge_len : Q)
  (dir_vec : Vector2) :
  (forall x y, 0 <= hypot x y) ->
  edge_geometry hypot nodes self = Ok (a, edge_len, dir_vec) -> 0 < edge_len.
Proof.
  intros Hh. unfold edge_geometry.
  destruct (list_item _ _); [|discriminate..]. cbn [bind].
  destruct (dict_item _ _) as [pa| |]; [|discriminate..]. cbn [bind].
  destruct (list_item _ _); [|discriminate..]. cbn [bind].
  destruct (dict_item _ _) as [pb| |]; [|discriminate..]. cbn [bind].
  destruct (normalize _ _); [|discriminate..]. cbn [bind].
  intros E. injection E as _ <- _.
  destruct (Qeq_bool (vlength hypot (vsub (vec pb) (vec pa))) 0) eqn:E0; cbn [negb]; [lra|].
  pose proof (Hh (vx (vsub (vec pb) (vec pa))) (vy (vsub (vec pb) (vec pa)))) as Hn.
  apply Qeq_bool_neq in E0. unfold vlength in *. lra.
Qed.

Lemma move_in_range (nodes : nodes_t) (self : Car) (a dir_vec : Vector2) (edge_len : Q)
  (road_type : string) (max_speed dt : Q) :
  0 <= max_speed -> 0 <= dt -> 0 < edge_len -> 0 <= car_progress self ->
  snd (move nodes self a dir_vec edge_len road_type max_speed dt) = Ok tt ->
  car_finished (fst (move nodes self a dir_vec edge_len road_type max_speed dt)) = true \/
  (0 <= car_progress (fst (move nodes self a dir_vec edge_len road_type max_speed dt)) /\
   car_progress (fst (move nodes self a dir_vec edge_len road_type max_speed dt)) < 1).
Proof.
  intros Hs Hdt Hlen Hp. unfold move.
  cbn [set_progress set_edge_idx car_path car_edge_idx car_progress].
  assert (Hd : 0 <= max_speed * dt / edge_len).
  { apply Qle_shift_div_l; [exact Hlen|]. rewrite Qmult_0_l.
    now apply Qmult_le_0_compat. }
  destruct (Qle_bool 1 _) eqn:Eb.
  - destruct (_ <=? _)%nat.
    + destruct (bind _ _); cbn; [now left|discriminate..].
    + destruct (bind _ _); cbn; [intros _; right; lra|discriminate..].
  - cbn. intros _. right. apply Qle_bool_false in Eb. split; lra.
Qed.

(** X18.  With distances that are not negative, a time step and a
    cruising speed that are not negative, a car whose progress along its
    edge is in the interval from 0 to 1, 1 excluded, is after an update
    that returns either finished or again at a progress in that
    interval. *)
Theorem Car_update_progress_in_range (sim : Simulator) (self : Car) (dt : Q) :
  (forall x y, 0 <= hypot x y) ->
  0 <= dt -> 0 <= car_speed self ->
  0 <= car_progress self -> car_progress self < 1 ->
  update_result hypot sim self dt = Ok tt ->
  car_finished (updated_car hypot sim self dt) = true \/
  (0 <= car_progress (updated_car hypot sim self dt) /\
   car_progress (updated_car hypot sim self dt) < 1).
Proof.
  intros Hh Hdt Hsp Hp0 Hp1. unfold update_result, updated_car, Car_update.
  destruct (car_finished self) eqn:Hf; [cbn; now left|].
  destruct (_ <=? _)%nat; [cbn; now left|].
  destruct (edge_geometry _ _ _) as [[[a edge_len] dir_vec]|e|] eqn:Hg; [|cbn; discriminate..].
  pose proof (edge_geometry_len_pos _ _ _ _ _ Hh Hg) as Hlen.
  pose proof (lights_loop_nonneg self dir_vec (sim_lights sim) 0
                {| lv_max_speed := following hypot (sim_cars sim) self dir_vec;
                   lv_occupied := sim_occupied sim;
                   lv_target := car_intersection_target self |}
                (following_nonneg (sim_cars sim) self dir_vec Hsp)) as HL.
  destruct (lights_loop _ _ _ _ _ _) as [v res]. cbn [fst] in HL.
  destruct res as [u|e|]; [|cbn; discriminate..].
  destruct (release _ _ _ _ _) as [occupied target].
  destruct (symbols_loop _ _ _ _ _) as [[max_speed|]|e|] eqn:Es; [| |cbn; discriminate..].
  - pose proof (symbols_loop_nonneg _ _ _ _ _ HL Es) as Hms.
    pose proof (move_in_range (sim_nodes sim) (set_target self target) a dir_vec edge_len
                  (match Car_current_edge self with
                   | Some edge => Simulator_get_edge_type sim edge
                   | None => "small"%string
                   end) max_speed dt Hms Hdt Hlen Hp0) as Hm.
    destruct (move _ _ _ _ _ _ _ _) as [self' res']. cbn [fst snd] in *. exact Hm.
  - cbn. intros _. right. split; assumption.
Qed.

(** *** Arrival *)

Lemma move_arrives (nodes : nodes_t) (self : Car) (a dir_vec : Vector2) (edge_len : Q)
  (road_type : string) (max_speed dt : Q) :
  car_finished self = false ->
  car_finished (fst (move nodes self a dir_vec edge_len road_type max_speed dt)) = true ->
  car_edge_idx (fst (move nodes self a dir_vec edge_len road_type max_speed dt))
  = (car_edge_idx self + 1)%nat /\
  (List.length (car_path self) <= car_edge_idx self + 1 + 1)%nat /\
  exists n p,
    nth_error (car_path self) (List.length (car_path self) - 1) = Some n /\
    dict_get n nodes = Some p /\
    car_pos (fst (move nodes self a dir_vec edge_len road_type max_speed dt)) = vec p.
Proof.
  intros Hf. unfold move.
  cbn [set_progress set_edge_idx car_path car_edge_idx car_progress].
  destruct (Qle_bool 1 _).
  - destruct (_ <=? _)%nat eqn:El.
    + unfold list_item, dict_item.
      destruct (nth_error _ _) as [n|] eqn:En; cbn; [|congruence].
      destruct (dict_get n nodes) as [p|] eqn:Ep; cbn; [|congruence].
      intros _. apply Nat.leb_le in El. split; [reflexivity|]. split; [exact El|].
      exists n, p. auto.
    + destruct (bind _ _); cbn; congruence.
  - cbn. congruence.
Qed.

(** X19.  [Car.update] marks a car finished only at the end of its
    route: either the car had no edge left when the call began, or the
    call took it over the end of its last edge and put it on the last
    node of its route. *)
Theorem Car_update_finishes_at_end (sim : Simulator) (self : Car) (dt : Q) :
  car_finished self = false ->
  car_finished (updated_car hypot sim self dt) = true ->
  (List.length (car_path self) <= car_edge_idx (updated_car hypot sim self dt) + 1)%nat /\
  (car_edge_idx (updated_car hypot sim self dt) = car_edge_idx self \/
   exists n p,
     nth_error (car_path self) (List.length (car_path self) - 1) = Some n /\
     dict_get n (sim_nodes sim) = Some p /\
     car_pos (updated_car hypot sim self dt) = vec p).
Proof.
  intros Hf. unfold updated_car, Car_update. rewrite Hf.
  destruct (_ <=? _)%nat eqn:El.
  - cbn. intros _. apply Nat.leb_le in El. split; [exact El|now left].
  - destruct (edge_geometry _ _ _) as [[[a edge_len] dir_vec]|e|]; [|cbn; congruence..].
    destruct (lights_loop _ _ _ _ _ _) as [v res].
    destruct res as [u|e|]; [|cbn; congruence..].
    destruct (release _ _ _ _ _) as [occupied target].
    destruct (symbols_loop _ _ _ _ _) as [[max_speed|]|e|]; [|cbn; congruence..].
    pose proof (move_arrives (sim_nodes sim) (set_target self target) a dir_vec edge_len
                  (match Car_current_edge self with
                   | Some edge => Simulator_get_edge_type sim edge
                   | None => "small"%string
                   end) max_speed dt Hf) as Hm.
    destruct (move _ _ _ _ _ _ _ _) as [self' res']. cbn [fst snd] in *.
    intros H. destruct (Hm H) as (Hi & Hl & Hn). cbn [set_target car_path car_edge_idx] in *.
    split; [lia|]. right. exact Hn.
Qed.

(** *** Exceptions *)

(** X20.  When the two nodes of the current edge are at distance 0, as
    for a hub placed exactly on the road node it is snapped to,
    [Car.update] raises [ValueError] (the direction of the edge cannot be
    normalised) and leaves the car and the registry as they were. *)
Theorem Car_update_zero_length_edge_raises (sim : Simulator) (self : Car) (dt : Q)
  (na nb : node_id) (pa pb : point) :
  car_finished self = false ->
  nth_error (car_path self) (car_edge_idx self) = Some na ->
  nth_error (car_path self) (car_edge_idx self + 1) = Some nb ->
  dict_get na (sim_nodes sim) = Some pa ->
  dict_get nb (sim_nodes sim) = Some pb ->
  vlength hypot (vsub (vec pb) (vec pa)) == 0 ->
  Car_update hypot sim self dt = (self, sim_occupied sim, Raise ValueError).
Proof.
  intros Hf Ha Hb Hpa Hpb H0. unfold Car_update. rewrite Hf.
  assert (El : (List.length (car_path self) <=? car_edge_idx self + 1)%nat = false).
  { apply Nat.leb_gt. apply nth_error_Some. congruence. }
  rewrite El. unfold edge_geometry, list_item, dict_item, normalize.
  rewrite Ha. cbn [bind]. rewrite Hpa. cbn [bind]. rewrite Hb. cbn [bind].
  rewrite Hpb. cbn [bind]. apply Qeq_bool_iff in H0. rewrite H0. reflexivity.
Qed.

Lemma lights_loop_raises (self : Car) (dir_vec : Vector2) (lights : list TrafficLight) :
  forall i v,
    match snd (lights_loop hypot self dir_vec i lights v) with
    | Ok _ => True
    | Raise e => e = ZeroDivisionError
    | Diverge => False
    end.
Proof.
  induction lights as [|lt rest IH]; intros i v; cbn [lights_loop]; [exact I|].
  destruct (_ && _); [|apply IH].
  destruct (TrafficLight_is_green_for lt dir_vec) as [g|e|] eqn:E.
  - destruct (g && _); apply IH.
  - cbn. unfold TrafficLight_is_green_for, pymod in E.
    destruct (Qeq_bool _ 0); cbn in E; [congruence|].
    destruct (horizontal dir_vec); discriminate.
  - cbn. unfold TrafficLight_is_green_for, pymod in E.
    destruct (Qeq_bool _ 0); cbn in E; [congruence|].
    destruct (horizontal dir_vec); discriminate.
Qed.

Lemma on_route_item (nodes : nodes_t) (edges : edges_t) (c : Car) (i : nat) :
  on_route nodes edges c -> (i < List.length (car_path c))%nat ->
  exists n p, nth_error (car_path c) i = Some n /\ dict_get n nodes = Some p.
Proof.
  intros (_ & _ & Hn & _) Hi.
  destruct (nth_error (car_path c) i) as [n|] eqn:E;
    [|apply nth_error_None in E; lia].
  specialize (Hn n (nth_error_In _ _ E)). unfold dict_mem in Hn.
  destruct (dict_get n nodes) as [p|] eqn:Ep; [|discriminate]. exists n, p. auto.
Qed.

Lemma move_returns (nodes : nodes_t) (edges : edges_t) (self : Car) (a dir_vec : Vector2)
  (edge_len : Q) (road_type : string) (max_speed dt : Q) :
  on_route nodes edges self ->
  snd (move nodes self a dir_vec edge_len road_type max_speed dt) = Ok tt.
Proof.
  intros Hr. pose proof Hr as (_ & Hi & _). unfold move.
  cbn [set_progress set_edge_idx car_path car_edge_idx car_progress].
  destruct (Qle_bool 1 _); [|reflexivity].
  destruct (_ <=? _)%nat eqn:El.
  - destruct (on_route_item nodes edges self (List.length (car_path self) - 1) Hr)
      as (n & p & En & Ep); [lia|].
    unfold list_item, dict_item. rewrite En. cbn [bind]. rewrite Ep. reflexivity.
  - apply Nat.leb_gt in El.
    destruct (on_route_item nodes edges self (car_edge_idx self + 1) Hr)
      as (n & p & En & Ep); [lia|].
    unfold list_item, dict_item. rewrite En. cbn [bind]. rewrite Ep. reflexivity.
Qed.

Lemma symbols_loop_raises (self : Car) (dir_vec : Vector2) (symbols : list symbol) :
  forall max_speed,
    match symbols_loop hypot self dir_vec symbols max_speed with
    | Ok _ => True
    | Raise e => e = KeyError /\ exists s, In s symbols /\ (s_x s = None \/ s_y s = None)
    | Diverge => False
    end.
Proof.
  induction symbols as [|s rest IH]; intros ms; cbn [symbols_loop]; [exact I|].
  assert (Hrest : forall ms',
            match symbols_loop hypot self dir_vec rest ms' with
            | Ok _ => True
            | Raise e => e = KeyError /\
                         exists s0, In s0 (s :: rest) /\ (s_x s0 = None \/ s_y s0 = None)
            | Diverge => False
            end).
  { intros ms'. specialize (IH ms'). destruct (symbols_loop hypot self dir_vec rest ms');
      [exact I| |exact IH].
    destruct IH as [-> (s0 & Hin & H0)]. split; [reflexivity|].
    exists s0. split; [now right|exact H0]. }
  unfold subscript. destruct (s_x s) as [x|] eqn:Ex; cbn [bind].
  - destruct (s_y s) as [y|] eqn:Ey; cbn [bind].
    + destruct (_ && _); [apply Hrest|]. destruct (_ && _ && _); [exact I|apply Hrest].
    + split; [reflexivity|]. exists s. split; [now left|now right].
  - split; [reflexivity|]. exists s. split; [now left|now left].
Qed.

(** The exceptions of an update of a car under way. *)
Lemma Car_update_raises (sim : Simulator) (self : Car) (dt : Q) :
  on_route (sim_nodes sim) (sim_edges sim) self ->
  match update_result hypot sim self dt with
  | Ok _ => True
  | Raise e =>
      e = ValueError \/ e = ZeroDivisionError \/
      (e = KeyError /\ exists s, In s (sim_symbols sim) /\ (s_x s = None \/ s_y s = None))
  | Diverge => False
  end.
Proof.
  intros Hr. pose proof Hr as (Hf & Hi & _). unfold update_result, Car_update.
  rewrite Hf. destruct (_ <=? _)%nat; [exact I|].
  destruct (edge_geometry _ _ _) as [[[a edge_len] dir_vec]|e|] eqn:Hg.
  - pose proof (lights_loop_raises self dir_vec (sim_lights sim) 0
                  {| lv_max_speed := following hypot (sim_cars sim) self dir_vec;
                     lv_occupied := sim_occupied sim;
                     lv_target := car_intersection_target self |}) as HL.
    destruct (lights_loop _ _ _ _ _ _) as [v res]. cbn [snd] in HL.
    destruct res as [u|e|]; [|cbn; right; now left|destruct HL].
    destruct (release _ _ _ _ _) as [occupied target].
    pose proof (symbols_loop_raises (set_target self target) dir_vec (sim_symbols sim)
                  (lv_max_speed v)) as HS.
    destruct (symbols_loop _ _ _ _ _) as [[max_speed|]|e|];
      [|exact I|cbn; right; right; exact HS|destruct HS].
    assert (Hr' : on_route (sim_nodes sim) (sim_edges sim) (set_target self target)) by exact Hr.
    pose proof (move_returns (sim_nodes sim) (sim_edges sim) (set_target self target)
                  a dir_vec edge_len
                  (match Car_current_edge self with
                   | Some edge => Simulator_get_edge_type sim edge
                   | None => "small"%string
                   end) max_speed dt Hr') as Hm.
    destruct (move _ _ _ _ _ _ _ _) as [self' res']. cbn [snd] in *. now rewrite Hm.
  - cbn. revert Hg. unfold edge_geometry.
    destruct (on_route_item _ _ self (car_edge_idx self) Hr) as (n1 & p1 & E1 & D1); [lia|].
    destruct (on_route_item _ _ self (car_edge_idx self + 1) Hr) as (n2 & p2 & E2 & D2);
      [lia|].
    unfold list_item, dict_item. rewrite E1. cbn [bind]. rewrite D1. cbn [bind].
    rewrite E2. cbn [bind]. rewrite D2. cbn [bind]. unfold normalize.
    destruct (Qeq_bool _ 0); cbn; [|discriminate]. intros E. left. congruence.
  - cbn. revert Hg. unfold edge_geometry.
    destruct (on_route_item _ _ self (car_edge_idx self) Hr) as (n1 & p1 & E1 & D1); [lia|].
    destruct (on_route_item _ _ self (car_edge_idx self + 1) Hr) as (n2 & p2 & E2 & D2);
      [lia|].
    unfold list_item, dict_item. rewrite E1. cbn [bind]. rewrite D1. cbn [bind].
    rewrite E2. cbn [bind]. rewrite D2. cbn [bind]. unfold normalize.
    destruct (Qeq_bool _ 0); cbn; discriminate.
Qed.

(** A car under way that an update leaves unfinished is still under
    way. *)
Lemma Car_update_on_route (sim : Simulator) (self : Car) (dt : Q) :
  on_route (sim_nodes sim) (sim_edges sim) self ->
  car_finished (updated_car hypot sim self dt) = false ->
  update_result hypot sim self dt = Ok tt ->
  on_route (sim_nodes sim) (sim_edges sim) (updated_car hypot sim self dt).
Proof.
  intros Hr Hf' Hres. pose proof Hr as (Hf & Hi & Hn & He).
  destruct (update_keeps sim self dt) as (Hp & _).
  split; [exact Hf'|]. rewrite Hp. split; [|split; assumption].
  revert Hf' Hres. unfold update_result, updated_car, Car_update. rewrite Hf.
  destruct (_ <=? _)%nat; [cbn; discriminate|].
  destruct (edge_geometry _ _ _) as [[[a edge_len] dir_vec]|e|]; [|cbn; discriminate..].
  destruct (lights_loop _ _ _ _ _ _) as [v res].
  destruct res as [u|e|]; [|cbn; discriminate..].
  destruct (release _ _ _ _ _) as [occupied target].
  destruct (symbols_loop _ _ _ _ _) as [[max_speed|]|e|];
    [|cbn; intros _ _; exact Hi|cbn; discriminate..].
  unfold move. cbn [set_progress set_edge_idx set_target car_path car_edge_idx car_progress].
  destruct (Qle_bool 1 _); [|cbn; intros _ _; exact Hi].
  destruct (_ <=? _)%nat eqn:El.
  - destruct (bind _ _); cbn; discriminate.
  - apply Nat.leb_gt in El. destruct (bind _ _); cbn; [intros _ _; lia|discriminate..].
Qed.

(** *** Speed limits *)

Lemma following_le (cars : list Car) (self : Car) (dir_vec : Vector2) :
  0 <= car_speed self -> following hypot cars self dir_vec <= car_speed self.
Proof.
  intros H. unfold following.
  destruct (fold_left _ _ _) as [[leader|] min_gap]; [|lra].
  destruct (Qltb min_gap 18); [exact H|].
  destruct (Qltb min_gap 40); [apply Q.le_min_l|lra].
Qed.

Lemma lights_loop_le (self : Car) (dir_vec : Vector2) (bound : Q)
  (lights : list TrafficLight) :
  0 <= bound ->
  forall i v,
    lv_max_speed v <= bound ->
    lv_max_speed (fst (lights_loop hypot self dir_vec i lights v)) <= bound.
Proof.
  intros Hb. induction lights as [|lt rest IH]; intros i v H; cbn [lights_loop];
    [exact H|].
  destruct (_ && _); [|now apply IH].
  destruct (TrafficLight_is_green_for lt dir_vec) as [g|e|]; [|exact H..].
  destruct (g && _); apply IH; cbn [lv_max_speed];
    destruct (dict_get i (lv_occupied v)) as [owner|];
    repeat match goal with |- context [if ?c then _ else _] => destruct c end;
    assumption.
Qed.

Lemma symbols_loop_le (self : Car) (dir_vec : Vector2) (bound : Q)
  (symbols : list symbol) :
  forall max_speed max_speed',
    max_speed <= bound ->
    symbols_loop hypot self dir_vec symbols max_speed = Ok (Some max_speed') ->
    max_speed' <= bound.
Proof.
  induction symbols as [|s rest IH]; intros ms ms' H; cbn [symbols_loop].
  - intros E. injection E as <-. exact H.
  - destruct (subscript (s_x s)) as [x| |]; cbn [bind]; [|discriminate..].
    destruct (subscript (s_y s)) as [y| |]; cbn [bind]; [|discriminate..].
    destruct (_ && _).
    + apply IH. eapply Qle_trans; [apply Q.le_min_l|exact H].
    + destruct (_ && _ && _); [discriminate|now apply IH].
Qed.

Lemma symbols_loop_slow (self : Car) (dir_vec : Vector2) (s : symbol) (x y : Q)
  (symbols : list symbol) :
  In s symbols -> s_x s = Some x -> s_y s = Some y -> type_is s "slow" = true ->
  vlength hypot (vsub {| vx := x; vy := y |} (car_pos self)) < 50 ->
  forall max_speed max_speed',
    symbols_loop hypot self dir_vec symbols max_speed = Ok (Some max_speed') ->
    max_speed' <= 40.
Proof.
  intros Hin Hx Hy Hty Hd. apply Qltb_lt in Hd.
  induction symbols as [|s0 rest IH]; intros ms ms'; [destruct Hin|].
  cbn [symbols_loop]. destruct Hin as [->|Hin].
  - rewrite Hx, Hy. cbn [subscript bind]. rewrite Hty, Hd. cbn [andb].
    apply symbols_loop_le. apply Q.le_min_r.
  - destruct (subscript (s_x s0)) as [x0| |]; cbn [bind]; [|discriminate..].
    destruct (subscript (s_y s0)) as [y0| |]; cbn [bind]; [|discriminate..].
    destruct (_ && _); [now apply IH|].
    destruct (_ && _ && _); [discriminate|now apply IH].
Qed.

Lemma move_same_edge (nodes : nodes_t) (self : Car) (a dir_vec : Vector2) (edge_len : Q)
  (road_type : string) (max_speed dt : Q) :
  car_edge_idx (fst (move nodes self a dir_vec edge_len road_type max_speed dt))
  = car_edge_idx self ->
  car_progress (fst (move nodes self a dir_vec edge_len road_type max_speed dt))
  = car_progress self + max_speed * dt / edge_len.
Proof.
  unfold move. cbn [set_progress set_edge_idx car_path car_edge_idx car_progress].
  destruct (Qle_bool 1 _); [|reflexivity].
  destruct (_ <=? _)%nat; destruct (bind _ _); cbn; lia.
Qed.

Lemma advance_le (p s bound dt edge_len : Q) :
  0 <= dt -> 0 < edge_len -> s <= bound ->
  p + s * dt / edge_len <= p + bound * dt / edge_len.
Proof.
  intros Hdt Hlen Hs.
  assert (H : s * dt / edge_len <= bound * dt / edge_len).
  { apply Qle_shift_div_l; [exact Hlen|].
    setoid_replace (s * dt / edge_len * edge_len) with (s * dt)
      by (field; lra).
    apply Qmult_le_compat_r; assumption. }
  lra.
Qed.

(** X29.  With distances that are not negative, a time step and a
    cruising speed that are not negative, a car that stays on its edge
    advances along it by at most its cruising speed times the time step,
    and by at most 40 times the time step when a [slow] symbol is closer
    than 50. *)
Theorem Car_update_speed_limit (sim : Simulator) (self : Car) (dt : Q) (a : Vector2)
  (edge_len : Q) (dir_vec : Vector2) :
  (forall x y, 0 <= hypot x y) ->
  0 <= dt -> 0 <= car_speed self ->
  car_finished self = false ->
  edge_geometry hypot (sim_nodes sim) self = Ok (a, edge_len, dir_vec) ->
  car_edge_idx (updated_car hypot sim self dt) = car_edge_idx self ->
  car_progress (updated_car hypot sim self dt)
  <= car_progress self + car_speed self * dt / edge_len /\
  forall s x y, In s (sim_symbols sim) -> s_x s = Some x -> s_y s = Some y ->
    type_is s "slow" = true ->
    vlength hypot (vsub {| vx := x; vy := y |} (car_pos self)) < 50 ->
    car_progress (updated_car hypot sim self dt)
    <= car_progress self + 40 * dt / edge_len.
Proof.
  intros Hh Hdt Hsp Hf Hg.
  pose proof (edge_geometry_len_pos _ _ _ _ _ Hh Hg) as Hlen.
  assert (Hzero : forall bound, 0 <= bound ->
            car_progress self <= car_progress self + bound * dt / edge_len).
  { intros bound Hb.
    assert (0 <= bound * dt / edge_len).
    { apply Qle_shift_div_l; [exact Hlen|]. rewrite Qmult_0_l.
      now apply Qmult_le_0_compat. }
    lra. }
  unfold updated_car, Car_update.
  rewrite Hf, (edge_geometry_has_edge _ _ _ Hg), Hg.
  pose proof (lights_loop_le self dir_vec (car_speed self) (sim_lights sim) Hsp 0
                {| lv_max_speed := following hypot (sim_cars sim) self dir_vec;
                   lv_occupied := sim_occupied sim;
                   lv_target := car_intersection_target self |}
                (following_le (sim_cars sim) self dir_vec Hsp)) as HL.
  destruct (lights_loop _ _ _ _ _ _) as [v res]. cbn [fst] in HL.
  destruct res as [u|e|];
    [|cbn; intros _; split; [apply Hzero; exact Hsp|intros; apply Hzero; lra]..].
  destruct (release _ _ _ _ _) as [occupied target].
  destruct (symbols_loop _ _ _ _ _) as [[max_speed|]|e|] eqn:Es;
    [|cbn; intros _; split; [apply Hzero; exact Hsp|intros; apply Hzero; lra]..].
  pose proof (move_same_edge (sim_nodes sim) (set_target self target) a dir_vec edge_len
                (match Car_current_edge self with
                 | Some edge => Simulator_get_edge_type sim edge
                 | None => "small"%string
                 end) max_speed dt) as Hm.
  destruct (move _ _ _ _ _ _ _ _) as [self' res']. cbn [fst snd] in *.
  cbn [set_target car_edge_idx car_progress] in Hm.
  intros Hi. rewrite (Hm Hi). split.
  - apply advance_le; [exact Hdt|exact Hlen|].
    exact (symbols_loop_le _ _ _ _ _ _ HL Es).
  - intros s x y Hin Hx Hy Hty Hd. apply advance_le; [exact Hdt|exact Hlen|].
    exact (symbols_loop_slow (set_target self target) dir_vec s x y (sim_symbols sim)
             Hin Hx Hy Hty Hd _ _ Es).
Qed.

End Update.

(** *** The theorems above on the crossing and on the road of [tie_map] *)

Lemma hypot6_nonneg (x y : Q) : 0 <= hypot6 x y.
Proof.
  unfold hypot6, sqrt6. rewrite Qred_correct. unfold Qle. cbn.
  rewrite Z.mul_1_r. apply Z.sqrt_nonneg.
Qed.

(** Car 2 of the crossing takes the light from car 1. *)
Lemma Car_update_registers_only_itself_witness :
  In (0%nat, 2%Z) (updated_registry hypot6 crossing car2 (1 # 10)) /\
  (In (0%nat, 2%Z) (sim_occupied crossing) \/
   (2%Z = car_id car2 /\ (0 < List.length (sim_lights crossing))%nat)).
Proof.
  assert (H : In (0%nat, 2%Z) (updated_registry hypot6 crossing car2 (1 # 10))).
  { vm_compute. left. reflexivity. }
  split; [exact H|].
  exact (Car_update_registers_only_itself hypot6 crossing car2 (1 # 10) 0%nat 2%Z H).
Defined.

Lemma Car_update_owns_new_target_witness :
  dict_get 0%nat (updated_registry hypot6 crossing car2 (1 # 10)) = Some (car_id car2) /\
  (0 < List.length (sim_lights crossing))%nat.
Proof.
  apply (Car_update_owns_new_target hypot6 crossing car2 (1 # 10) 0%nat).
  - vm_compute. reflexivity.
  - vm_compute. reflexivity.
  - discriminate.
Defined.

(** Car 1 of the crossing, heading south, is 10 before the light, red
    for it at time 0. *)
Lemma Car_update_stops_at_red_witness :
  stays car1 (updated_car hypot6 crossing car1 (1 # 10)).
Proof.
  eapply (Car_update_stops_at_red hypot6 crossing car1 (1 # 10) _ _ _ (light_6_4 0)).
  - reflexivity.
  - vm_compute. reflexivity.
  - vm_compute. reflexivity.
  - left. reflexivity.
  - split; vm_compute; reflexivity.
  - vm_compute. reflexivity.
  - vm_compute. reflexivity.
  - vm_compute. reflexivity.
Defined.

(** Car 2 of the crossing, heading east, is 30 before the light car 1
    holds. *)
Lemma Car_update_waits_for_holder_witness :
  stays car2 (updated_car hypot6 crossing car2 (1 # 10)).
Proof.
  eapply (Car_update_waits_for_holder hypot6 crossing car2 (1 # 10) _ _ _ 0%nat
            (light_6_4 0) 1%Z).
  - reflexivity.
  - vm_compute. reflexivity.
  - vm_compute. reflexivity.
  - reflexivity.
  - split; vm_compute; reflexivity.
  - vm_compute. reflexivity.
  - reflexivity.
  - discriminate.
  - vm_compute. reflexivity.
Defined.

(** Car 7 is 10 behind car 8. *)
Lemma Car_update_keeps_gap_witness :
  stays car7 (updated_car hypot6 jam car7 (1 # 10)).
Proof.
  eapply (Car_update_keeps_gap hypot6 jam car7 (1 # 10) _ _ _ car8).
  - reflexivity.
  - vm_compute. reflexivity.
  - vm_compute. reflexivity.
  - right. left. reflexivity.
  - discriminate.
  - reflexivity.
  - vm_compute. reflexivity.
  - vm_compute. reflexivity.
  - vm_compute. reflexivity.
Defined.

(** Car 8 has a free road and advances from 2/5 of its edge. *)
Lemma Car_update_progress_in_range_witness :
  car_finished (updated_car hypot6 jam car8 (1 # 10)) = true \/
  (0 <= car_progress (updated_car hypot6 jam car8 (1 # 10)) /\
   car_progress (updated_car hypot6 jam car8 (1 # 10)) < 1).
Proof.
  apply (Car_update_progress_in_range hypot6 jam car8 (1 # 10) hypot6_nonneg).
  - vm_compute. discriminate.
  - vm_compute. discriminate.
  - vm_compute. discriminate.
  - vm_compute. reflexivity.
  - vm_compute. reflexivity.
Defined.

(** Car 9 reaches hub 3. *)
Lemma Car_update_finishes_at_end_witness :
  (List.length (car_path car9) <= car_edge_idx (updated_car hypot6 jam car9 (1 # 10)) + 1)%nat /\
  (car_edge_idx (updated_car hypot6 jam car9 (1 # 10)) = car_edge_idx car9 \/
   exists n p,
     nth_error (car_path car9) (List.length (car_path car9) - 1) = Some n /\
     dict_get n (sim_nodes jam) = Some p /\
     car_pos (updated_car hypot6 jam car9 (1 # 10)) = vec p).
Proof.
  apply (Car_update_finishes_at_end hypot6 jam car9 (1 # 10)).
  - reflexivity.
  - vm_compute. reflexivity.
Defined.

(** The car spawned at hub 2 of the big road: the hub lies on the road
    node it is snapped to. *)
Lemma Car_update_zero_length_edge_raises_witness :
  Car_update hypot6 big_road_spawned car_at_hub (1 # 10)
  = (car_at_hub, sim_occupied big_road_spawned, Raise ValueError).
Proof.
  eapply (Car_update_zero_length_edge_raises hypot6 big_road_spawned car_at_hub (1 # 10)).
  - reflexivity.
  - reflexivity.
  - reflexivity.
  - vm_compute. reflexivity.
  - vm_compute. reflexivity.
  - vm_compute. reflexivity.
Defined.

(** Car 8 before the [slow] symbol: it advances by 4 along an edge of
    length 50. *)
Lemma Car_update_speed_limit_witness :
  car_progress (updated_car hypot6 slow_zone car8 (1 # 10))
  <= car_progress car8 + car_speed car8 * (1 # 10) / 50 /\
  forall s x y, In s (sim_symbols slow_zone) -> s_x s = Some x -> s_y s = Some y ->
    type_is s "slow" = true ->
    vlength hypot6 (vsub {| vx := x; vy := y |} (car_pos car8)) < 50 ->
    car_progress (updated_car hypot6 slow_zone car8 (1 # 10))
    <= car_progress car8 + 40 * (1 # 10) / 50.
Proof.
  eapply (Car_update_speed_limit hypot6 slow_zone car8 (1 # 10) _ 50 _ hypot6_nonneg).
  - vm_compute. discriminate.
  - vm_compute. discriminate.
  - reflexivity.
  - vm_compute. reflexivity.
  - vm_compute. reflexivity.
Defined.

End CarFacts.
(** ** The step of the simulator and the states of a run *)
Module SimMore.
Import Py PyFacts map_utils simulator Notions Examples GraphFacts RouterFacts RouterMore
  CarFacts.
Local Open Scope Q_scope.

(** *** The list of cars *)

Lemma replace_car_ids (c : Car) (cars : list Car) :
  map car_id (replace_car c cars) = map car_id cars.
Proof.
  induction cars as [|x cars IH]; cbn; [reflexivity|].
  destruct (Z.eqb_spec (car_id x) (car_id c)) as [E|_]; cbn; [now rewrite E|now rewrite IH].
Qed.

Lemma replace_car_In (c : Car) (cars : list Car) (x : Car) :
  In x (replace_car c cars) -> x = c \/ In x cars.
Proof.
  induction cars as [|y cars IH]; cbn; [tauto|].
  destruct (Z.eqb (car_id y) (car_id c)); cbn; intuition auto.
Qed.

Lemma replace_car_other (c : Car) (cars : list Car) (x : Car) :
  In x cars -> car_id x <> car_id c -> In x (replace_car c cars).
Proof.
  intros Hin Hne. induction cars as [|y cars IH]; cbn; [destruct Hin|].
  destruct (Z.eqb_spec (car_id y) (car_id c)) as [E|_]; cbn.
  - destruct Hin as [->|Hin]; [contradiction|now right].
  - destruct Hin as [->|Hin]; [now left|right; auto].
Qed.

Lemma remove_car_In (c : Car) (cars : list Car) :
  forall cars', remove_car c cars = Ok cars' -> forall x, In x cars' -> In x cars.
Proof.
  induction cars as [|y cars IH]; intros cars'; cbn; [discriminate|].
  destruct (Z.eqb (car_id y) (car_id c)).
  - intros E. injection E as <-. intros x Hx. now right.
  - destruct (remove_car c cars) as [r|e|]; cbn; [|discriminate..].
    intros E. injection E as <-. intros x [<-|Hx]; [now left|right; eauto].
Qed.

Lemma remove_car_other (c : Car) (cars : list Car) :
  forall cars', remove_car c cars = Ok cars' ->
    forall x, In x cars -> car_id x <> car_id c -> In x cars'.
Proof.
  induction cars as [|y cars IH]; intros cars'; cbn; [discriminate|].
  destruct (Z.eqb_spec (car_id y) (car_id c)) as [E|_].
  - intros E'. injection E' as <-. intros x [->|Hx] Hne; [contradiction|exact Hx].
  - destruct (remove_car c cars) as [r|e|]; cbn; [|discriminate..].
    intros E. injection E as <-. intros x [<-|Hx] Hne; [now left|right; eauto].
Qed.

Lemma remove_car_NoDup (c : Car) (cars : list Car) :
  forall cars', remove_car c cars = Ok cars' ->
    NoDup (map car_id cars) ->
    NoDup (map car_id cars') /\ forall x, In x cars' -> car_id x <> car_id c.
Proof.
  induction cars as [|y cars IH]; intros cars'; cbn; [discriminate|].
  destruct (Z.eqb_spec (car_id y) (car_id c)) as [E|Hne].
  - intros E'. injection E' as <-. intros Hnd. apply NoDup_cons_iff in Hnd.
    destruct Hnd as [Hy Hnd]. split; [exact Hnd|].
    intros x Hx Ex. apply Hy. rewrite E, <- Ex. now apply in_map.
  - destruct (remove_car c cars) as [r|e|] eqn:Er; cbn; [|discriminate..].
    intros E. injection E as <-. intros Hnd. apply NoDup_cons_iff in Hnd.
    destruct Hnd as [Hy Hnd]. destruct (IH r eq_refl Hnd) as [Hr Hc]. split.
    + cbn. constructor; [|exact Hr]. intros Hin. apply Hy.
      apply in_map_iff in Hin. destruct Hin as (x & Ex & Hx). rewrite <- Ex.
      apply in_map. exact (remove_car_In c cars r Er x Hx).
    + intros x [<-|Hx]; [exact Hne|now apply Hc].
Qed.

Lemma remove_car_raises (c : Car) (cars : list Car) :
  match remove_car c cars with
  | Ok _ => True
  | Raise e => e = ValueError
  | Diverge => False
  end.
Proof.
  induction cars as [|y cars IH]; cbn; [reflexivity|].
  destruct (Z.eqb (car_id y) (car_id c)); [exact I|].
  destruct (remove_car c cars); cbn; auto.
Qed.

Section Run.
Variable hypot : Q -> Q -> Q.

(** *** The loop over the cars *)

Lemma update_cars_cons (car : Car) (rest : list Car) (sim : Simulator) (dt : Q) :
  update_cars hypot (car :: rest) sim dt =
  match update_result hypot sim car dt with
  | Ok _ =>
      if car_finished (updated_car hypot sim car dt) then
        match remove_car (updated_car hypot sim car dt)
                (replace_car (updated_car hypot sim car dt) (sim_cars sim)) with
        | Ok cars =>
            update_cars hypot rest
              (set_cars
                 (set_cars sim (replace_car (updated_car hypot sim car dt) (sim_cars sim))
                    (updated_registry hypot sim car dt))
                 cars (updated_registry hypot sim car dt)) dt
        | Raise e =>
            (set_cars sim (replace_car (updated_car hypot sim car dt) (sim_cars sim))
               (updated_registry hypot sim car dt), Raise e)
        | Diverge =>
            (set_cars sim (replace_car (updated_car hypot sim car dt) (sim_cars sim))
               (updated_registry hypot sim car dt), Diverge)
        end
      else
        update_cars hypot rest
          (set_cars sim (replace_car (updated_car hypot sim car dt) (sim_cars sim))
             (updated_registry hypot sim car dt)) dt
  | Raise e =>
      (set_cars sim (replace_car (updated_car hypot sim car dt) (sim_cars sim))
         (updated_registry hypot sim car dt), Raise e)
  | Diverge =>
      (set_cars sim (replace_car (updated_car hypot sim car dt) (sim_cars sim))
         (updated_registry hypot sim car dt), Diverge)
  end.
Proof.
  cbn [update_cars]. unfold updated_car, updated_registry, update_result.
  destruct (Car_update hypot sim car dt) as [[c o] r]. reflexivity.
Qed.

(** What the loop leaves alone, and where its cars come from. *)
Lemma update_cars_frame (dt : Q) (snapshot : list Car) :
  forall sim,
    sim_map (fst (update_cars hypot snapshot sim dt)) = sim_map sim /\
    sim_nodes (fst (update_cars hypot snapshot sim dt)) = sim_nodes sim /\
    sim_edges (fst (update_cars hypot snapshot sim dt)) = sim_edges sim /\
    sim_lights (fst (update_cars hypot snapshot sim dt)) = sim_lights sim /\
    sim_symbols (fst (update_cars hypot snapshot sim dt)) = sim_symbols sim /\
    sim_next_car_id (fst (update_cars hypot snapshot sim dt)) = sim_next_car_id sim /\
    forall c', In c' (sim_cars (fst (update_cars hypot snapshot sim dt))) ->
      exists c, (In c (sim_cars sim) \/ In c snapshot) /\
                car_id c' = car_id c /\ car_path c' = car_path c.
Proof.
  induction snapshot as [|car rest IH]; intros sim.
  - cbn. repeat split; auto. intros c' H. exists c'. auto.
  - rewrite update_cars_cons.
    destruct (update_keeps hypot sim car dt) as (Hp & Hi & _).
    assert (Hrep : forall c', In c' (replace_car (updated_car hypot sim car dt) (sim_cars sim)) ->
              exists c, (In c (sim_cars sim) \/ In c (car :: rest)) /\
                        car_id c' = car_id c /\ car_path c' = car_path c).
    { intros c' H. apply replace_car_In in H. destruct H as [->|H].
      - exists car. split; [right; now left|]. split; assumption.
      - exists c'. auto. }
    assert (Hstop : forall r : outcome unit,
              sim_map (fst (set_cars sim (replace_car (updated_car hypot sim car dt) (sim_cars sim))
                              (updated_registry hypot sim car dt), r)) = sim_map sim /\
              sim_nodes (fst (set_cars sim (replace_car (updated_car hypot sim car dt) (sim_cars sim))
                              (updated_registry hypot sim car dt), r)) = sim_nodes sim /\
              sim_edges (fst (set_cars sim (replace_car (updated_car hypot sim car dt) (sim_cars sim))
                              (updated_registry hypot sim car dt), r)) = sim_edges sim /\
              sim_lights (fst (set_cars sim (replace_car (updated_car hypot sim car dt) (sim_cars sim))
                              (updated_registry hypot sim car dt), r)) = sim_lights sim /\
              sim_symbols (fst (set_cars sim (replace_car (updated_car hypot sim car dt) (sim_cars sim))
                              (updated_registry hypot sim car dt), r)) = sim_symbols sim /\
              sim_next_car_id (fst (set_cars sim (replace_car (updated_car hypot sim car dt) (sim_cars sim))
                              (updated_registry hypot sim car dt), r)) = sim_next_car_id sim /\
              forall c', In c' (sim_cars (fst (set_cars sim (replace_car (updated_car hypot sim car dt) (sim_cars sim))
                              (updated_registry hypot sim car dt), r))) ->
                exists c, (In c (sim_cars sim) \/ In c (car :: rest)) /\
                          car_id c' = car_id c /\ car_path c' = car_path c).
    { intros r. cbn. repeat split; auto. }
    destruct (update_result hypot sim car dt) as [u|e|]; [|apply Hstop..].
    destruct (car_finished (updated_car hypot sim car dt)).
    + destruct (remove_car _ _) as [cars|e|] eqn:Er; [|apply Hstop..].
      destruct (IH (set_cars
                      (set_cars sim (replace_car (updated_car hypot sim car dt) (sim_cars sim))
                         (updated_registry hypot sim car dt))
                      cars (updated_registry hypot sim car dt)))
        as (H1 & H2 & H3 & H4 & H5 & H6 & H7).
      cbn [set_cars sim_map sim_nodes sim_edges sim_lights sim_symbols sim_next_car_id
             sim_cars] in *.
      repeat split; auto. intros c' H. destruct (H7 c' H) as (c & [Hc|Hc] & Hid & Hpa).
      * destruct (Hrep c (remove_car_In _ _ _ Er c Hc)) as (c0 & Hc0 & Hid0 & Hpa0).
        exists c0. split; [exact Hc0|]. split; congruence.
      * exists c. split; [right; now right|]. split; assumption.
    + destruct (IH (set_cars sim (replace_car (updated_car hypot sim car dt) (sim_cars sim))
                      (updated_registry hypot sim car dt)))
        as (H1 & H2 & H3 & H4 & H5 & H6 & H7).
      cbn [set_cars sim_map sim_nodes sim_edges sim_lights sim_symbols sim_next_car_id
             sim_cars] in *.
      repeat split; auto. intros c' H. destruct (H7 c' H) as (c & [Hc|Hc] & Hid & Hpa).
      * destruct (Hrep c Hc) as (c0 & Hc0 & Hid0 & Hpa0).
        exists c0. split; [exact Hc0|]. split; congruence.
      * exists c. split; [right; now right|]. split; assumption.
Qed.

(** X21.  [Simulator.update] changes the clocks of the lights, the cars
    and the registry, and nothing else: the map, the graph, the symbols
    and the id counter are as before, every light is advanced by [dt],
    and every car of the list after the call is a car of the list before
    it, with the same id and the same route.  This holds however the
    call ends. *)
Theorem Simulator_update_frame (sim : Simulator) (dt : Q) :
  sim_map (after_update hypot sim dt) = sim_map sim /\
  sim_nodes (after_update hypot sim dt) = sim_nodes sim /\
  sim_edges (after_update hypot sim dt) = sim_edges sim /\
  sim_symbols (after_update hypot sim dt) = sim_symbols sim /\
  sim_next_car_id (after_update hypot sim dt) = sim_next_car_id sim /\
  sim_lights (after_update hypot sim dt)
  = map (fun lt => TrafficLight_update lt dt) (sim_lights sim) /\
  forall c', In c' (sim_cars (after_update hypot sim dt)) ->
    exists c, In c (sim_cars sim) /\ car_id c' = car_id c /\ car_path c' = car_path c.
Proof.
  unfold after_update, Simulator_update.
  destruct (update_cars_frame dt
              (sim_cars (set_lights sim (map (fun lt => TrafficLight_update lt dt)
                                           (sim_lights sim))))
              (set_lights sim (map (fun lt => TrafficLight_update lt dt) (sim_lights sim))))
    as (H1 & H2 & H3 & H4 & H5 & H6 & H7).
  cbn [set_lights sim_map sim_nodes sim_edges sim_lights sim_symbols sim_next_car_id
         sim_cars] in *.
  repeat split; auto.
  intros c' H. destruct (H7 c' H) as (c & Hc & Hid & Hpa).
  exists c. split; [tauto|]. split; assumption.
Qed.

(** The loop over cars that are under way and have distinct ids. *)
Lemma update_cars_inv (dt : Q) (snapshot : list Car) :
  forall sim,
    NoDup (map car_id (sim_cars sim)) ->
    NoDup (map car_id snapshot) ->
    (forall c, In c snapshot -> In c (sim_cars sim)) ->
    (forall c, In c (sim_cars sim) -> on_route (sim_nodes sim) (sim_edges sim) c) ->
    match snd (update_cars hypot snapshot sim dt) with
    | Ok _ =>
        NoDup (map car_id (sim_cars (fst (update_cars hypot snapshot sim dt)))) /\
        (forall c, In c (sim_cars (fst (update_cars hypot snapshot sim dt))) ->
                   on_route (sim_nodes sim) (sim_edges sim) c)
    | Raise e =>
        e = ValueError \/ e = ZeroDivisionError \/
        (e = KeyError /\ exists s, In s (sim_symbols sim) /\ (s_x s = None \/ s_y s = None))
    | Diverge => False
    end.
Proof.
  induction snapshot as [|car rest IH]; intros sim Hnd Hnds Hin Hroute.
  - cbn. split; assumption.
  - rewrite update_cars_cons.
    assert (Hcar : In car (sim_cars sim)) by (apply Hin; now left).
    pose proof (Car_update_raises hypot sim car dt (Hroute car Hcar)) as Hex.
    pose proof (Car_update_on_route hypot sim car dt (Hroute car Hcar)) as Hor.
    destruct (update_keeps hypot sim car dt) as (_ & Hid & _).
    cbn [map] in Hnds. apply NoDup_cons_iff in Hnds. destruct Hnds as [Hfresh Hnds].
    assert (Hids : NoDup (map car_id (replace_car (updated_car hypot sim car dt)
                                        (sim_cars sim)))).
    { now rewrite replace_car_ids. }
    assert (Hrest : forall c, In c rest ->
              In c (replace_car (updated_car hypot sim car dt) (sim_cars sim)) /\
              car_id c <> car_id (updated_car hypot sim car dt)).
    { intros c Hc.
      assert (Hne : car_id c <> car_id (updated_car hypot sim car dt)).
      { rewrite Hid. intros E. apply Hfresh. rewrite <- E. now apply in_map. }
      split; [|exact Hne]. apply replace_car_other; [|exact Hne]. apply Hin. now right. }
    destruct (update_result hypot sim car dt) as [[]|e|]; [|exact Hex..].
    destruct (car_finished (updated_car hypot sim car dt)) eqn:Ef.
    + pose proof (remove_car_raises (updated_car hypot sim car dt)
                    (replace_car (updated_car hypot sim car dt) (sim_cars sim))) as Hrr.
      destruct (remove_car _ _) as [cars|e|] eqn:Er; [|cbn; now left|destruct Hrr].
      destruct (remove_car_NoDup _ _ _ Er Hids) as [Hnd' Hgone].
      apply (IH (set_cars
                   (set_cars sim (replace_car (updated_car hypot sim car dt) (sim_cars sim))
                      (updated_registry hypot sim car dt))
                   cars (updated_registry hypot sim car dt))).
      * exact Hnd'.
      * exact Hnds.
      * intros c Hc. destruct (Hrest c Hc) as [H1 H2].
        exact (remove_car_other _ _ _ Er c H1 H2).
      * intros c Hc. cbn [set_cars sim_nodes sim_edges sim_cars] in *.
        pose proof (remove_car_In _ _ _ Er c Hc) as Hc'.
        apply replace_car_In in Hc'. destruct Hc' as [->|Hc']; [|now apply Hroute].
        exfalso. exact (Hgone _ Hc eq_refl).
    + apply (IH (set_cars sim (replace_car (updated_car hypot sim car dt) (sim_cars sim))
                   (updated_registry hypot sim car dt))).
      * exact Hids.
      * exact Hnds.
      * intros c Hc. exact (proj1 (Hrest c Hc)).
      * intros c Hc. cbn [set_cars sim_nodes sim_edges sim_cars] in *.
        apply replace_car_In in Hc. destruct Hc as [->|Hc]; [|now apply Hroute].
        now apply Hor.
Qed.

(** The registry after the loop names lights of the simulator and cars
    of the loop. *)
Lemma update_cars_registry (dt : Q) (bound : Z) (snapshot : list Car) :
  forall sim,
    (forall c, In c snapshot -> (car_id c < bound)%Z) ->
    (forall i owner, In (i, owner) (sim_occupied sim) ->
       (i < List.length (sim_lights sim))%nat /\ (owner < bound)%Z) ->
    forall i owner, In (i, owner) (sim_occupied (fst (update_cars hypot snapshot sim dt))) ->
      (i < List.length (sim_lights sim))%nat /\ (owner < bound)%Z.
Proof.
  induction snapshot as [|car rest IH]; intros sim Hids Hreg; [exact Hreg|].
  rewrite update_cars_cons.
  assert (Hreg' : forall i owner, In (i, owner) (updated_registry hypot sim car dt) ->
            (i < List.length (sim_lights sim))%nat /\ (owner < bound)%Z).
  { intros i owner H. apply update_registry_entries in H.
    destruct H as [H|[-> H]]; [now apply Hreg|]. split; [exact H|].
    apply Hids. now left. }
  assert (Hrest : forall c, In c rest -> (car_id c < bound)%Z).
  { intros c Hc. apply Hids. now right. }
  destruct (update_result hypot sim car dt) as [u|e|]; [|exact Hreg'..].
  destruct (car_finished (updated_car hypot sim car dt)).
  - destruct (remove_car _ _) as [cars|e|]; [|exact Hreg'..].
    exact (IH (set_cars
                 (set_cars sim (replace_car (updated_car hypot sim car dt) (sim_cars sim))
                    (updated_registry hypot sim car dt))
                 cars (updated_registry hypot sim car dt)) Hrest Hreg').
  - exact (IH (set_cars sim (replace_car (updated_car hypot sim car dt) (sim_cars sim))
                 (updated_registry hypot sim car dt)) Hrest Hreg').
Qed.

(** *** Spawning *)

Lemma Car_init_fields (p : list node_id) (nodes : nodes_t) (cid : Z) (jitter : Q)
  (car : Car) :
  Car_init p nodes cid jitter = Ok car ->
  car_path car = p /\ car_id car = cid /\ car_edge_idx car = 0%nat /\
  car_progress car = 0 /\ car_speed car = 80 + jitter /\ car_finished car = false /\
  car_intersection_target car = None /\
  forall first tl, p = first :: tl ->
    exists pt, dict_get first nodes = Some pt /\ car_pos car = vec pt.
Proof.
  unfold Car_init. destruct p as [|first tl]; cbn [bind].
  - intros E. injection E as <-. cbn. repeat split; auto. discriminate.
  - unfold dict_item. destruct (dict_get first nodes) as [pt|] eqn:Eg; cbn [bind];
      [|discriminate].
    intros E. injection E as <-. cbn. repeat split; auto.
    intros f t E. injection E as <- <-. now exists pt.
Qed.

Lemma route_nodes (nodes : nodes_t) (edges : edges_t) (start : node_id)
  (p : list node_id) :
  closed nodes edges -> hd_error p = Some start -> dict_mem start edges = true ->
  follows_edges edges p ->
  forall n, In n p -> dict_mem n nodes = true.
Proof.
  intros [Hk Hc] Hhd Hs Hf n Hn. apply dict_mem_keys.
  apply In_nth_error in Hn. destruct Hn as [i Hi]. destruct i as [|i].
  - destruct p as [|x p]; [discriminate|]. cbn in Hhd, Hi.
    assert (n = start) by congruence. subst n. now apply Hk.
  - destruct (nth_error p i) as [u|] eqn:Eu.
    + destruct (Hf i u n Eu Hi) as [w Hw]. exact (Hc u n w Hw).
    + apply nth_error_None in Eu.
      assert (nth_error p (S i) <> None) by congruence.
      apply nth_error_Some in H. lia.
Qed.

(** What [spawn_car] returns, by cases. *)
Lemma spawn_car_cases (fuel : nat) (jitter : Q) (sim : Simulator)
  (start_id end_id : node_id) (b : bool) (sim' : Simulator) :
  Simulator_spawn_car fuel jitter sim start_id end_id = Ok (b, sim') ->
  (b = false /\ sim' = sim) \/
  (b = true /\
   exists p car,
     find_path fuel (sim_edges sim) start_id end_id None = Ok (Some p) /\
     (2 <= List.length p)%nat /\
     Car_init p (sim_nodes sim) (sim_next_car_id sim) jitter = Ok car /\
     sim' = with_car sim car).
Proof.
  unfold Simulator_spawn_car.
  destruct (find_path fuel (sim_edges sim) start_id end_id None) as [[p|]| |];
    cbn [bind]; [| |discriminate..].
  - destruct (Nat.ltb_spec (List.length p) 2) as [Hlt|Hge].
    + intros E. injection E as <- <-. now left.
    + destruct (Car_init p _ _ jitter) as [car| |] eqn:Ec; cbn [bind]; [|discriminate..].
      intros E. injection E as <- <-. right. split; [reflexivity|].
      exists p, car. auto.
  - intros E. injection E as <- <-. now left.
Qed.

(** X22.  A car [spawn_car] adds goes last in the list, stands on the
    node of the start hub, at the beginning of the first edge of a route
    of the map from the start to the end, which are two different nodes;
    it is not finished, remembers no light, and its cruising speed is 80
    plus the random draw. *)
Theorem spawn_car_places_car (fuel : nat) (jitter : Q) (sim : Simulator)
  (start_id end_id : node_id) (sim' : Simulator) :
  Simulator_spawn_car fuel jitter sim start_id end_id = Ok (true, sim') ->
  start_id <> end_id /\
  exists car pt,
    sim_cars sim' = sim_cars sim ++ [car] /\
    hd_error (car_path car) = Some start_id /\
    last (car_path car) start_id = end_id /\
    follows_edges (sim_edges sim) (car_path car) /\
    dict_get start_id (sim_nodes sim) = Some pt /\ car_pos car = vec pt /\
    car_edge_idx car = 0%nat /\ car_progress car = 0 /\
    car_speed car = 80 + jitter /\ car_finished car = false /\
    car_intersection_target car = None.
Proof.
  intros H. apply spawn_car_cases in H.
  destruct H as [[H _]|(_ & p & car & Hp & Hlen & Hcar & ->)]; [discriminate|].
  destruct (find_path_route fuel _ _ _ _ p Hp) as (Hhd & Hlast & Hs & _ & Hf).
  destruct (Car_init_fields _ _ _ _ _ Hcar) as (E1 & E2 & E3 & E4 & E5 & E6 & E7 & Hpos).
  split.
  - intros <-. destruct fuel as [|fuel].
    + unfold find_path in Hp. rewrite Hs in Hp. cbn in Hp. discriminate.
    + rewrite (SimFacts.find_path_same _ _ _ _ Hs) in Hp. injection Hp as <-.
      cbn in Hlen. lia.
  - destruct p as [|first tl]; [discriminate|]. cbn in Hhd. injection Hhd as ->.
    destruct (Hpos start_id tl eq_refl) as (pt & Hpt & Hv).
    exists car, pt. rewrite E1. cbn [with_car sim_cars hd_error].
    repeat split; auto.
Qed.

Lemma spawn_car_places_car_witness :
  NInt 2 <> NInt 3 /\
  exists car pt,
    sim_cars big_road_spawned = sim_cars big_road_sim ++ [car] /\
    hd_error (car_path car) = Some (NInt 2) /\
    last (car_path car) (NInt 2) = NInt 3 /\
    follows_edges (sim_edges big_road_sim) (car_path car) /\
    dict_get (NInt 2) (sim_nodes big_road_sim) = Some pt /\ car_pos car = vec pt /\
    car_edge_idx car = 0%nat /\ car_progress car = 0 /\
    car_speed car = 80 + 0 /\ car_finished car = false /\
    car_intersection_target car = None.
Proof.
  apply (spawn_car_places_car 20 0 big_road_sim (NInt 2) (NInt 3) big_road_spawned).
  vm_compute. reflexivity.
Defined.

(** *** The states of a run *)

Lemma sim_inv_init (doc : document) (sim : Simulator) :
  Simulator_init hypot doc = Ok sim -> sim_inv hypot sim.
Proof.
  unfold Simulator_init, load_map_data.
  destruct (read_document doc) as [map| |]; cbn [bind]; try discriminate.
  destruct (build_graph hypot map hub_snap_dist_default) as [nodes edges] eqn:Eg.
  destruct (make_lights _); cbn [bind]; try discriminate.
  intros E. injection E as <-. constructor; cbn.
  - now rewrite Eg.
  - now rewrite Eg.
  - split; [constructor|intros c []].
  - intros c [].
  - intros i owner [].
Qed.

Lemma sim_inv_closed (sim : Simulator) :
  sim_inv hypot sim -> closed (sim_nodes sim) (sim_edges sim).
Proof.
  intros [Hn He _ _ _]. rewrite Hn, He. apply build_graph_closed.
Qed.

Lemma sim_inv_spawn (fuel : nat) (jitter : Q) (sim : Simulator)
  (start_id end_id : node_id) (b : bool) (sim' : Simulator) :
  sim_inv hypot sim ->
  Simulator_spawn_car fuel jitter sim start_id end_id = Ok (b, sim') ->
  sim_inv hypot sim'.
Proof.
  intros Hinv H. apply spawn_car_cases in H.
  destruct H as [[_ ->]|(_ & p & car & Hp & Hlen & Hcar & ->)]; [exact Hinv|].
  pose proof (sim_inv_closed sim Hinv) as Hcl.
  destruct Hinv as [Hn He [Hnd Hlt] Hcars Hreg].
  destruct (find_path_route fuel _ _ _ _ p Hp) as (Hhd & _ & Hs & _ & Hf).
  destruct (Car_init_fields _ _ _ _ _ Hcar) as (E1 & E2 & E3 & _ & _ & E6 & _).
  constructor; cbn [with_car sim_map sim_nodes sim_edges sim_cars sim_next_car_id
                      sim_occupied sim_lights].
  - exact Hn.
  - exact He.
  - unfold ids_fresh. cbn [with_car sim_cars sim_next_car_id]. split.
    + rewrite map_app. cbn [map]. apply NoDup_app; [exact Hnd|repeat constructor; intros []|].
      intros x Hx [<-|[]]. apply in_map_iff in Hx. destruct Hx as (c & Ec & Hc).
      specialize (Hlt c Hc). lia.
    + intros c Hc. apply in_app_iff in Hc. destruct Hc as [Hc|[<-|[]]].
      * specialize (Hlt c Hc). lia.
      * lia.
  - intros c Hc. apply in_app_iff in Hc. destruct Hc as [Hc|[<-|[]]]; [now apply Hcars|].
    split; [exact E6|]. rewrite E1, E3. split; [lia|]. split; [|exact Hf].
    exact (route_nodes _ _ start_id p Hcl Hhd Hs Hf).
  - intros i owner H. destruct (Hreg i owner H). split; [assumption|lia].
Qed.

Lemma sim_inv_update (sim : Simulator) (dt : Q) :
  sim_inv hypot sim ->
  match snd (Simulator_update hypot sim dt) with
  | Ok _ => sim_inv hypot (fst (Simulator_update hypot sim dt))
  | Raise e =>
      e = ValueError \/ e = ZeroDivisionError \/
      (e = KeyError /\ exists s, In s (sim_symbols sim) /\ (s_x s = None \/ s_y s = None))
  | Diverge => False
  end.
Proof.
  intros [Hn He [Hnd Hlt] Hcars Hreg].
  unfold Simulator_update.
  pose proof (update_cars_registry dt (sim_next_car_id sim)
                (sim_cars (set_lights sim (map (fun lt => TrafficLight_update lt dt)
                                             (sim_lights sim))))
                (set_lights sim (map (fun lt => TrafficLight_update lt dt) (sim_lights sim)))
                Hlt) as HR.
  pose proof (update_cars_inv dt
                (sim_cars (set_lights sim (map (fun lt => TrafficLight_update lt dt)
                                             (sim_lights sim))))
                (set_lights sim (map (fun lt => TrafficLight_update lt dt) (sim_lights sim)))
                Hnd Hnd (fun c H => H) Hcars) as H.
  destruct (update_cars_frame dt
              (sim_cars (set_lights sim (map (fun lt => TrafficLight_update lt dt)
                                           (sim_lights sim))))
              (set_lights sim (map (fun lt => TrafficLight_update lt dt) (sim_lights sim))))
    as (H1 & H2 & H3 & H4 & H5 & H6 & H7).
  destruct (update_cars hypot _ _ dt) as [sim' res]. cbn [fst snd] in *.
  cbn [set_lights sim_map sim_nodes sim_edges sim_lights sim_symbols sim_next_car_id
         sim_cars] in *.
  destruct res as [u|e|]; [|exact H..]. destruct H as [Hnd' Hroute'].
  constructor.
  - now rewrite H1, H2.
  - now rewrite H1, H3.
  - split; [exact Hnd'|]. intros c Hc. rewrite H6.
    destruct (H7 c Hc) as (c0 & Hc0 & Hid & _). rewrite Hid.
    apply Hlt. tauto.
  - intros c Hc. rewrite H2, H3. now apply Hroute'.
  - intros i owner H. rewrite H4, H6, length_map. rewrite length_map in HR.
    apply HR; [|exact H].
    intros j z Hj. now apply Hreg.
Qed.

Lemma reachable_inv (sim : Simulator) : reachable hypot sim -> sim_inv hypot sim.
Proof.
  induction 1 as [doc sim H|fuel jitter sim s e b sim' _ IH H|sim dt sim' _ IH H].
  - exact (sim_inv_init doc sim H).
  - exact (sim_inv_spawn fuel jitter sim s e b sim' IH H).
  - pose proof (sim_inv_update sim dt IH) as Hu. rewrite H in Hu. exact Hu.
Qed.

(** X23.  In every state of a run the ids of the cars are pairwise
    distinct and below the id counter. *)
Theorem reachable_ids_fresh (sim : Simulator) :
  reachable hypot sim -> ids_fresh sim.
Proof. intros H. exact (si_ids hypot sim (reachable_inv sim H)). Qed.

Lemma on_route_current_edge (nodes : nodes_t) (edges : edges_t) (c : Car) :
  on_route nodes edges c ->
  exists u v w, Car_current_edge c = Some (u, v) /\ In (v, w) (adj u edges).
Proof.
  intros (_ & Hi & _ & Hf). unfold Car_current_edge.
  destruct (nth_error (car_path c) (car_edge_idx c)) as [u|] eqn:Eu;
    [|apply nth_error_None in Eu; lia].
  destruct (nth_error (car_path c) (car_edge_idx c + 1)) as [v|] eqn:Ev;
    [|apply nth_error_None in Ev; lia].
  rewrite Nat.add_1_r in Ev. destruct (Hf _ u v Eu Ev) as [w Hw].
  now exists u, v, w.
Qed.

(** X24.  In every state of a run each car of the list is under way: it
    is not finished, it has an edge of its route left, every node of its
    route is a node of the map and every step of its route is an entry
    of the edge map; so [current_edge] returns a pair of nodes, and the
    pair is an edge of the map. *)
Theorem reachable_cars_on_route (sim : Simulator) (c : Car) :
  reachable hypot sim -> In c (sim_cars sim) ->
  on_route (sim_nodes sim) (sim_edges sim) c /\
  exists u v w, Car_current_edge c = Some (u, v) /\ In (v, w) (adj u (sim_edges sim)).
Proof.
  intros H Hc. pose proof (si_cars hypot sim (reachable_inv sim H) c Hc) as Hr.
  split; [exact Hr|]. exact (on_route_current_edge _ _ c Hr).
Qed.

(** X25.  From a state of a run, [Simulator.update] raises nothing but
    [ValueError], [ZeroDivisionError] or [KeyError]: the exceptions of
    normalising an edge of length zero, of a light whose cycle is zero,
    and of a symbol entry of the map that has no [x] or no [y], which
    the symbol loop of [Car.update] subscripts.  So a [KeyError] is
    raised only if the map has such a symbol, and no lookup of a node
    or of a route position fails with [KeyError] or [IndexError]. *)
Theorem reachable_update_raises (sim : Simulator) (dt : Q) (e : exn) :
  reachable hypot sim ->
  snd (Simulator_update hypot sim dt) = Raise e ->
  e = ValueError \/ e = ZeroDivisionError \/
  (e = KeyError /\ exists s, In s (sim_symbols sim) /\ (s_x s = None \/ s_y s = None)).
Proof.
  intros H E. pose proof (sim_inv_update sim dt (reachable_inv sim H)) as Hu.
  rewrite E in Hu. exact Hu.
Qed.

(** X26.  In every state of a run the graph is the one [build_graph]
    made from the map when it was loaded, and every key of the edge map
    is a key of the node map: spawning and updating never change the
    graph. *)
Theorem reachable_graph_fixed (sim : Simulator) :
  reachable hypot sim ->
  sim_nodes sim = fst (build_graph hypot (sim_map sim) hub_snap_dist_default) /\
  sim_edges sim = snd (build_graph hypot (sim_map sim) hub_snap_dist_default) /\
  edges_in_nodes sim.
Proof.
  intros H. pose proof (reachable_inv sim H) as Hinv.
  split; [exact (si_nodes hypot sim Hinv)|]. split; [exact (si_edges hypot sim Hinv)|].
  destruct (sim_inv_closed sim Hinv) as [Hk _].
  intros n Hn. apply dict_mem_keys. now apply Hk.
Qed.

(** X27.  In every state of a run each entry of the reservation
    registry names a light of the simulator and the id of a car that was
    spawned. *)
Theorem reachable_registry (sim : Simulator) (i : nat) (owner : Z) :
  reachable hypot sim -> In (i, owner) (sim_occupied sim) ->
  (i < List.length (sim_lights sim))%nat /\ (owner < sim_next_car_id sim)%Z.
Proof. intros H. exact (si_registry hypot sim (reachable_inv sim H) i owner). Qed.

End Run.

(** *** Two runs: on the big road, and past the light of [signal_map] *)

Lemma big_road_spawned_reachable : reachable hypot6 big_road_spawned.
Proof.
  apply (reach_spawn hypot6 20 0 big_road_sim (NInt 2) (NInt 3) true big_road_spawned).
  - apply (reach_init hypot6 (document_of big_road_map) big_road_sim).
    vm_compute. reflexivity.
  - vm_compute. reflexivity.
Qed.

Lemma unplaced_spawned_reachable : reachable hypot6 unplaced_spawned.
Proof.
  apply (reach_spawn hypot6 20 0 unplaced_sim (NInt 3) (NInt 4) true unplaced_spawned).
  - apply (reach_init hypot6 (document_of unplaced_map) unplaced_sim).
    vm_compute. reflexivity.
  - vm_compute. reflexivity.
Qed.

Lemma signal_moved_reachable : reachable hypot6 signal_moved.
Proof.
  apply (reach_update hypot6 signal_spawned (1 # 10) signal_moved).
  - apply (reach_spawn hypot6 20 0 signal_sim (NInt 3) (NInt 4) true signal_spawned).
    + apply (reach_init hypot6 (document_of signal_map) signal_sim).
      vm_compute. reflexivity.
    + vm_compute. reflexivity.
  - vm_compute. reflexivity.
Qed.

Lemma reachable_ids_fresh_witness : ids_fresh signal_moved.
Proof.
  exact (reachable_ids_fresh hypot6 signal_moved signal_moved_reachable).
Defined.

Lemma reachable_cars_on_route_witness :
  on_route (sim_nodes big_road_spawned) (sim_edges big_road_spawned) car_at_hub /\
  exists u v w, Car_current_edge car_at_hub = Some (u, v) /\
                In (v, w) (adj u (sim_edges big_road_spawned)).
Proof.
  apply (reachable_cars_on_route hypot6 big_road_spawned car_at_hub
           big_road_spawned_reachable).
  left. reflexivity.
Defined.

(** The first update of the car spawned on the big road, whose hub lies
    on the end of the road, raises [ValueError]. *)
Lemma big_road_update_raises :
  snd (Simulator_update hypot6 big_road_spawned (1 # 10)) = Raise ValueError.
Proof. vm_compute. reflexivity. Qed.

(** The first update of the car spawned on [unplaced_map], whose symbol
    has no [x], raises [KeyError]. *)
Lemma reachable_update_raises_witness :
  snd (Simulator_update hypot6 unplaced_spawned (1 # 10)) = Raise KeyError /\
  (KeyError = ValueError \/ KeyError = ZeroDivisionError \/
   (KeyError = KeyError /\
    exists s, In s (sim_symbols unplaced_spawned) /\ (s_x s = None \/ s_y s = None))).
Proof.
  assert (E : snd (Simulator_update hypot6 unplaced_spawned (1 # 10)) = Raise KeyError).
  { vm_compute. reflexivity. }
  split; [exact E|].
  exact (reachable_update_raises hypot6 unplaced_spawned (1 # 10) KeyError
           unplaced_spawned_reachable E).
Defined.

Lemma reachable_graph_fixed_witness :
  sim_nodes signal_moved
  = fst (build_graph hypot6 (sim_map signal_moved) hub_snap_dist_default) /\
  sim_edges signal_moved
  = snd (build_graph hypot6 (sim_map signal_moved) hub_snap_dist_default) /\
  edges_in_nodes signal_moved.
Proof.
  exact (reachable_graph_fixed hypot6 signal_moved signal_moved_reachable).
Defined.

(** After the first update the car spawned on [signal_map] holds the
    light. *)
Lemma reachable_registry_witness :
  In (0%nat, 1%Z) (sim_occupied signal_moved) /\
  (0 < List.length (sim_lights signal_moved))%nat /\
  (1 < sim_next_car_id signal_moved)%Z.
Proof.
  assert (H : In (0%nat, 1%Z) (sim_occupied signal_moved)).
  { vm_compute. left. reflexivity. }
  split; [exact H|].
  exact (reachable_registry hypot6 signal_moved 0%nat 1%Z signal_moved_reachable H).
Defined.

(** *** Isolated hubs, on the graph of [tie_map] *)

Lemma tie_sim_symmetric : symmetric (sim_edges tie_sim).
Proof.
  assert (Hnd : NoDup (map h_id (get_list (md_hubs tie_map)))).
  { cbn. repeat constructor; cbn; intuition discriminate. }
  unfold tie_sim. cbn [sim_edges]. rewrite build_graph_eq.
  destruct (hubs_inv hypot6 hub_snap_dist_default (get_list (md_hubs tie_map)) []
              (let '(nodes, edges) :=
                 intersections hypot6 (get_list (md_roads tie_map))
                   (fold_left (add_road hypot6) (get_list (md_roads tie_map)) ([], []))
               in (nodes, stitch_all hypot6 nodes edges)) Hnd) as (done & H).
  - intros z _ [].
  - apply (roads_keep hypot6 (graph_inv [])).
    + intros. now apply graph_inv_connect.
    + intros. now apply graph_inv_add_node.
    + apply graph_inv_empty.
  - exact (gi_sym _ _ H).
Qed.

Lemma find_path_isolated_start_witness :
  find_path 1 (sim_edges tie_sim) (NInt 9) (NInt 2) None = Ok None.
Proof.
  apply (SimFacts.find_path_isolated_start (sim_edges tie_sim) (NInt 9) (NInt 2) None 0).
  - vm_compute. reflexivity.
  - vm_compute. reflexivity.
  - vm_compute. reflexivity.
  - discriminate.
Defined.

Lemma isolated_hub_never_spawns_witness :
  Simulator_spawn_car 3 0 tie_sim (NInt 9) (NInt 2) <> Ok (true, tie_sim).
Proof.
  apply (SimFacts.isolated_hub_never_spawns 3 0 tie_sim (NInt 9) (NInt 2) tie_sim_symmetric).
  left. vm_compute. reflexivity.
Defined.

End SimMore.
(** ** The type of an edge *)
Module EdgeTypeFacts.
Import Py PyFacts map_utils simulator Notions Examples.
Local Open Scope string_scope.

Lemma lacks_append (c : ascii) (a b : string) :
  lacks c (a ++ b) <-> lacks c a /\ lacks c b.
Proof.
  unfold lacks. induction a as [|x a IH]; cbn; [tauto|]. tauto.
Qed.

Lemma lacks_cons (c x : ascii) (s : string) :
  lacks c (String x s) <-> x <> c /\ lacks c s.
Proof. unfold lacks. cbn. tauto. Qed.

(** The decimal notation of an int is made of digits and a sign. *)
Lemma string_of_uint_digits (c : ascii) (d : Decimal.uint) :
  In c (list_ascii_of_string (NilEmpty.string_of_uint d)) ->
  In c (list_ascii_of_string "0123456789").
Proof.
  induction d as [|d IH|d IH|d IH|d IH|d IH|d IH|d IH|d IH|d IH|d IH];
    cbn [NilEmpty.string_of_uint list_ascii_of_string In]; intros H;
    [destruct H|..]; (destruct H as [<-|H]; [cbn; auto 15|exact (IH H)]).
Qed.

Lemma str_of_int_chars (c : ascii) (z : Z) :
  In c (list_ascii_of_string (str_of_int z)) ->
  In c (list_ascii_of_string "-0123456789").
Proof.
  unfold str_of_int, NilZero.string_of_int, NilZero.string_of_uint.
  assert (Hd : forall d, In c (list_ascii_of_string
                                 (match d with
                                  | Decimal.Nil => "0"
                                  | _ => NilEmpty.string_of_uint d
                                  end)) ->
                         In c (list_ascii_of_string "0123456789")).
  { intros d H. destruct d; try exact (string_of_uint_digits c _ H).
    cbn in H. destruct H as [<-|[]]. cbn. auto. }
  destruct (Z.to_int z) as [d|d].
  - intros H. right. exact (Hd d H).
  - cbn [list_ascii_of_string In]. intros [H|H]; [now left|right; exact (Hd d H)].
Qed.

Lemma str_of_int_lacks (z : Z) :
  lacks "r" (str_of_int z) /\ lacks "_" (str_of_int z).
Proof.
  split; intros H; apply str_of_int_chars in H; cbn in H;
    repeat (destruct H as [H|H]; [discriminate H|]); destruct H.
Qed.

Lemma str_of_int_inj (a b : Z) : str_of_int a = str_of_int b -> a = b.
Proof.
  unfold str_of_int. intros H. apply DecimalZ.to_int_inj.
  assert (Hn : forall z, Z.to_int z <> Decimal.Pos Decimal.Nil /\
                         Z.to_int z <> Decimal.Neg Decimal.Nil).
  { intros z. destruct z; cbn; split; try discriminate;
      intros E; injection E as E; exact (DecimalPos.Unsigned.to_uint_nonnil _ E). }
  pose proof (NilZero.isi (Z.to_int a) (proj1 (Hn a)) (proj2 (Hn a))) as Ha.
  pose proof (NilZero.isi (Z.to_int b) (proj1 (Hn b)) (proj2 (Hn b))) as Hb.
  rewrite H in Ha. congruence.
Qed.

(** Where a string occurs, its first character occurs. *)
Lemma str_contains_first (c : ascii) (p s : string) :
  str_contains (String c p) s = true -> In c (list_ascii_of_string s).
Proof.
  induction s as [|x s IH]; cbn [str_contains String.prefix].
  - discriminate.
  - destruct (ascii_dec c x) as [->|Hn].
    + intros _. now left.
    + intros H. right. apply IH. exact H.
Qed.

Lemma prefix_append (p s : string) : String.prefix p (p ++ s) = true.
Proof.
  induction p as [|x p IH]; cbn; [now destruct s|].
  destruct (ascii_dec x x); [exact IH|congruence].
Qed.

Lemma prefix_separator (x : ascii) (a b t1 t2 : string) :
  lacks x a -> lacks x b ->
  String.prefix (a ++ String x t1) (b ++ String x t2) = true -> a = b.
Proof.
  revert b. induction a as [|y a IH]; intros b Ha Hb; destruct b as [|z b]; cbn.
  - reflexivity.
  - apply lacks_cons in Hb. destruct Hb as [Hb _].
    destruct (ascii_dec x z); [intros _; exfalso; congruence|discriminate].
  - apply lacks_cons in Ha. destruct Ha as [Ha _].
    destruct (ascii_dec y x); [intros _; exfalso; congruence|discriminate].
  - apply lacks_cons in Ha, Hb. destruct (ascii_dec y z) as [->|_]; [|discriminate].
    intros H. f_equal. apply IH; tauto.
Qed.

(** The prefix of a road occurs in the names of the nodes of that road
    and of no other. *)
Lemma str_contains_prefix (p s : string) :
  String.prefix p s = true -> str_contains p s = true.
Proof. intros H. destruct s; cbn [str_contains]; now rewrite H. Qed.

Lemma road_prefix_here (rid : Z) (suffix : string) :
  str_contains (road_prefix rid) (str (road_node rid suffix)) = true.
Proof.
  apply str_contains_prefix. unfold road_prefix, road_node, str.
  replace ("r" ++ str_of_int rid ++ "_" ++ suffix)
    with (("r" ++ str_of_int rid ++ "_") ++ suffix); [apply prefix_append|].
  cbn. f_equal. induction (str_of_int rid) as [|x s IH]; cbn; [reflexivity|now rewrite IH].
Qed.

Lemma road_prefix_elsewhere (a b : Z) (suffix : string) :
  lacks "r" suffix ->
  str_contains (road_prefix a) (str (road_node b suffix)) = true -> a = b.
Proof.
  intros Hs. unfold road_prefix, road_node, str.
  change ("r" ++ str_of_int a ++ "_") with (String "r" (str_of_int a ++ "_")).
  change ("r" ++ str_of_int b ++ "_" ++ suffix)
    with (String "r" (str_of_int b ++ "_" ++ suffix)).
  cbn [str_contains String.prefix].
  destruct (ascii_dec "r" "r") as [_|Hn]; [|congruence].
  destruct (String.prefix (str_of_int a ++ "_") (str_of_int b ++ "_" ++ suffix)) eqn:E.
  - intros _. apply str_of_int_inj.
    apply (prefix_separator "_" _ _ "" suffix);
      [apply str_of_int_lacks|apply str_of_int_lacks|exact E].
  - intros H. apply str_contains_first in H. exfalso.
    assert (Hl : lacks "r" (str_of_int b ++ "_" ++ suffix)).
    { apply lacks_append. split; [apply str_of_int_lacks|].
      apply lacks_cons. split; [discriminate|exact Hs]. }
    exact (Hl H).
Qed.

Lemma road_prefix_absent (a : Z) (s : string) :
  lacks "r" s -> str_contains (road_prefix a) s = false.
Proof.
  intros Hl. destruct (str_contains (road_prefix a) s) eqn:E; [|reflexivity].
  unfold road_prefix in E.
  change ("r" ++ str_of_int a ++ "_") with (String "r" (str_of_int a ++ "_")) in E.
  apply str_contains_first in E. contradiction.
Qed.

Lemma get_edge_type_loop_road (roads : list road) (r : road) (u v : node_id) :
  NoDup (map r_id roads) -> In r roads ->
  (forall a, str_contains (road_prefix a) (str u) = true
             \/ str_contains (road_prefix a) (str v) = true -> a = r_id r) ->
  str_contains (road_prefix (r_id r)) (str u) = true
  \/ str_contains (road_prefix (r_id r)) (str v) = true ->
  get_edge_type_loop roads (u, v) = get_type (r_type r) "small".
Proof.
  intros Hnd Hin Honly Hhere. induction roads as [|r0 roads IH]; [destruct Hin|].
  cbn [map] in Hnd. apply NoDup_cons_iff in Hnd. destruct Hnd as [Hfresh Hnd].
  cbn [get_edge_type_loop fst snd]. destruct Hin as [->|Hin].
  - destruct Hhere as [-> | ->]; [reflexivity|]. now rewrite orb_true_r.
  - destruct (str_contains (road_prefix (r_id r0)) (str u)
              || str_contains (road_prefix (r_id r0)) (str v)) eqn:E.
    + exfalso. apply Hfresh. rewrite (Honly (r_id r0)).
      * now apply in_map.
      * apply orb_true_iff in E. exact E.
    + now apply IH.
Qed.

Lemma hub_lacks_r (z : Z) : lacks "r" (str (NInt z)).
Proof. apply str_of_int_lacks. Qed.

Lemma inter_node_lacks_r (a b : Z) : lacks "r" (str (inter_node a b)).
Proof.
  unfold inter_node, str. apply lacks_append. split.
  - intros H. cbn in H. destruct H as [H|[]]. discriminate H.
  - apply lacks_append. split; [apply str_of_int_lacks|].
    apply lacks_append. split; [|apply str_of_int_lacks].
    intros H. cbn in H. destruct H as [H|[]]. discriminate H.
Qed.

(** X28.  When the road ids of the map are pairwise distinct, an edge
    with a node of road [r] at one end and, at the other end, a hub, an
    intersection node or another node of [r] has the type of [r], in
    both directions: [get_edge_type] returns the [type] of [r], or
    [small] when [r] has none, whatever the other roads of the map
    are. *)
Theorem get_edge_type_of_road (sim : Simulator) (r : road) (suffix : string)
  (v : node_id) :
  NoDup (map r_id (get_list (md_roads (sim_map sim)))) ->
  In r (get_list (md_roads (sim_map sim))) ->
  lacks "r" suffix ->
  (exists z, v = NInt z) \/ (exists a b, v = inter_node a b) \/
  (exists suffix', lacks "r" suffix' /\ v = road_node (r_id r) suffix') ->
  Simulator_get_edge_type sim (road_node (r_id r) suffix, v)
  = get_type (r_type r) "small" /\
  Simulator_get_edge_type sim (v, road_node (r_id r) suffix)
  = get_type (r_type r) "small".
Proof.
  intros Hnd Hin Hs Hv. unfold Simulator_get_edge_type.
  assert (Hu : forall a, str_contains (road_prefix a) (str (road_node (r_id r) suffix)) = true ->
                         a = r_id r).
  { intros a. now apply road_prefix_elsewhere. }
  assert (Hv' : forall a, str_contains (road_prefix a) (str v) = true -> a = r_id r).
  { intros a H. destruct Hv as [(z & ->)|[(x & y & ->)|(suffix' & Hs' & ->)]].
    - rewrite (road_prefix_absent a _ (hub_lacks_r z)) in H. discriminate.
    - rewrite (road_prefix_absent a _ (inter_node_lacks_r x y)) in H. discriminate.
    - now apply (road_prefix_elsewhere a (r_id r) suffix'). }
  split; apply get_edge_type_loop_road; auto.
  - intros a [H|H]; auto.
  - left. apply road_prefix_here.
  - intros a [H|H]; auto.
  - right. apply road_prefix_here.
Qed.

(** On the big road, the edge from hub 2 to the left end is [big]. *)
Lemma get_edge_type_of_road_witness :
  Simulator_get_edge_type big_road_sim (road_node 1 "L", NInt 2) = "big" /\
  Simulator_get_edge_type big_road_sim (NInt 2, road_node 1 "L") = "big".
Proof.
  apply (get_edge_type_of_road big_road_sim
           {| r_id := 1; r_x := 0; r_y := 0; r_w := 200; r_h := 20;
              r_type := Some "big" |} "L" (NInt 2)).
  - cbn. repeat constructor. intros [].
  - left. reflexivity.
  - intros H. cbn in H. destruct H as [H|[]]. discriminate H.
  - left. now exists 2%Z.
Defined.

End EdgeTypeFacts.
